(** * Referral rule builder and reward ledger schema

    A shallow embedding of two artefacts of the repository:

    - [flow-builder/flow-builder.js], the canvas editor that turns nodes
      and wires into a rule (modules [JS], [Regex], [FlowBuilder]);
    - the PostgreSQL schema of the reward ledger (module [Schema]), with
      the ledger service that the schema serves (module [LedgerStore]).

    Conventions.  Strings that the program uses as identifiers (node ids,
    node types, template keys, operators) are [string]; free text typed
    by the user is a list of UTF-16 code units ([text]).  A JavaScript
    number is an integer that a double holds exactly, or one of NaN and
    the two infinities; amounts of type DECIMAL(15,2) are finite and
    counted in hundredths. *)

From Stdlib Require Import List ZArith NArith String Ascii Bool Lia Sorted.
From Stdlib Require Import DecimalString DecimalN.
Import ListNotations.

Open Scope string_scope.
Open Scope Z_scope.

(* ================================================================== *)
(** * JavaScript values and plain objects                               *)
(* ================================================================== *)

Module JS.

(** The primitive values that ever reach a node's [config].  [Num n] is
    the Number whose value is the integer [n]. *)
Inductive value : Type :=
| Undefined
| NaN
| Bool (b : bool)
| Num (n : Z)
| Str (s : string)
| Infinity
| NegInfinity.

(** A plain object: own properties in insertion order. *)
Definition obj : Type := list (string * value).

(** [o[k]]: a missing property reads as [undefined]. *)
Fixpoint get (o : obj) (k : string) : value :=
  match o with
  | [] => Undefined
  | (k', v) :: o' => if String.eqb k' k then v else get o' k
  end.

(** [o[k] = v]: an existing key keeps its position, a new one goes last. *)
Fixpoint set (o : obj) (k : string) (v : value) : obj :=
  match o with
  | [] => [(k, v)]
  | (k', v') :: o' =>
      if String.eqb k' k then (k', v) :: o' else (k', v') :: set o' k v
  end.

(** [Object.assign(target, src)]. *)
Definition assign (target src : obj) : obj :=
  fold_left (fun t kv => set t (fst kv) (snd kv)) src target.

(** ToBoolean. *)
Definition truthy (v : value) : bool :=
  match v with
  | Undefined => false
  | NaN => false
  | Bool b => b
  | Num n => negb (n =? 0)
  | Str s => negb (String.eqb s "")
  | Infinity | NegInfinity => true
  end.

(** Free text: UTF-16 code units. *)
Definition text : Type := list N.

(** The code units of an ASCII literal of the program. *)
Definition units (s : string) : text :=
  map N_of_ascii (list_ascii_of_string s).

Fixpoint startsWith (s p : text) : bool :=
  match p, s with
  | [], _ => true
  | _ :: _, [] => false
  | c :: p', a :: s' => (a =? c)%N && startsWith s' p'
  end.

(** [s.includes(p)]. *)
Fixpoint includes (s p : text) : bool :=
  startsWith s p ||
  match s with
  | [] => false
  | _ :: s' => includes s' p
  end.

(** WhiteSpace and LineTerminator code units: what [\s] matches and what
    [trim] strips. *)
Definition isSpace (c : N) : bool :=
  ((9 <=? c) && (c <=? 13) || (c =? 32) || (c =? 160) || (c =? 5760)
   || (8192 <=? c) && (c <=? 8202) || (c =? 8232) || (c =? 8233)
   || (c =? 8239) || (c =? 8287) || (c =? 12288) || (c =? 65279))%N.

(** What [\d] matches. *)
Definition isDigit (c : N) : bool := ((48 <=? c) && (c <=? 57))%N.

Fixpoint trimStart (s : text) : text :=
  match s with
  | c :: s' => if isSpace c then trimStart s' else s
  | [] => []
  end.

(** [s.trim()]. *)
Definition trim (s : text) : text :=
  rev (trimStart (rev (trimStart s))).

(** The value of a run of decimal digits, most significant first. *)
Fixpoint digitsValue (acc : Z) (s : text) : Z :=
  match s with
  | c :: s' =>
      if isDigit c then digitsValue (10 * acc + (Z.of_N c - 48)) s' else acc
  | [] => acc
  end.

(** The Number for a non-negative integer [m]: [m] itself below 2^53;
    from there on [m] rounded to 53 significant bits, a tie going to the
    even neighbour; Infinity when that reaches 2^1024. *)
Definition nearestNumber (m : Z) : value :=
  if m <? 2 ^ 53 then Num m
  else
    let e := Z.log2 m - 52 in
    let q := m / 2 ^ e in
    let r := m mod 2 ^ e in
    let half := 2 ^ (e - 1) in
    let q' := if (half <? r) || ((r =? half) && Z.odd q) then q + 1 else q in
    if 2 ^ 1024 <=? q' * 2 ^ e then Infinity else Num (q' * 2 ^ e).

(** Unary minus, on what [parseInt] can produce. *)
Definition negate (v : value) : value :=
  match v with
  | Num n => Num (- n)
  | Infinity => NegInfinity
  | NegInfinity => Infinity
  | _ => v
  end.

(** [parseInt(s)] in radix 10: leading white space and one sign are
    skipped, then the longest run of digits is read; no digit gives NaN.
    The result is the Number nearest to the digits' value, as the
    engines compute it (the licence to read the digits after the
    twentieth as zeros is not taken).  The [0x] prefix is left out, and
    -0 is not told from 0: no caller here passes a prefix or a sign. *)
Definition parseInt (s : text) : value :=
  let s1 := trimStart s in
  let '(neg, s2) :=
    match s1 with
    | c :: r => if (c =? 45)%N then (true, r)
                else if (c =? 43)%N then (false, r) else (false, s1)
    | [] => (false, s1)
    end in
  match s2 with
  | c :: _ =>
      if isDigit c
      then
        let number := nearestNumber (digitsValue 0 s2) in
        if neg then negate number else number
      else NaN
  | [] => NaN
  end.

(** A Number that is not below 0: Infinity, or a value from 0 on. *)
Definition nonNegative (v : value) : Prop :=
  v = Infinity \/ exists n, v = Num n /\ 0 <= n.

End JS.

(* ================================================================== *)
(** * Regular expressions, as far as the parser's two patterns go       *)
(* ================================================================== *)

Module Regex.

Import JS.

Inductive regex : Type :=
| Char (c : N)               (* a pattern character, matched under /i *)
| Class (p : N -> bool)      (* a character class escape *)
| Seq (r1 r2 : regex)
| Alt (r1 r2 : regex)        (* r1|r2, r1 tried first *)
| Opt (r : regex)            (* r?, greedy *)
| Star (r : regex)           (* r*, greedy *)
| Capture (r : regex).       (* the capturing group, number 1 *)

(** r+ is r followed by r*. *)
Definition Plus (r : regex) : regex := Seq r (Star r).

(** Canonicalize of a case-insensitive pattern without the u flag.  Only
    Basic Latin letters are folded: a code unit above 127 never folds to
    one below, and nothing folds to the rupee sign, so on the patterns
    below this agrees with the full table. *)
Definition canonicalize (c : N) : N :=
  if ((97 <=? c) && (c <=? 122))%N then (c - 32)%N else c.

(** Backtracking matcher with a continuation: [k] receives what is left
    of the input and the capture so far. *)
Fixpoint m {A : Type} (r : regex) (s : text) (cap : option text)
  (k : text -> option text -> option A) {struct r} : option A :=
  match r with
  | Char c =>
      match s with
      | a :: s' =>
          if (canonicalize a =? canonicalize c)%N then k s' cap else None
      | [] => None
      end
  | Class p =>
      match s with
      | a :: s' => if p a then k s' cap else None
      | [] => None
      end
  | Seq r1 r2 => m r1 s cap (fun s' cap' => m r2 s' cap' k)
  | Alt r1 r2 =>
      match m r1 s cap k with
      | Some x => Some x
      | None => m r2 s cap k
      end
  | Opt r1 =>
      match m r1 s cap k with
      | Some x => Some x
      | None => k s cap
      end
  | Star r1 =>
      (fix star (fuel : nat) (s : text) (cap : option text) : option A :=
         match fuel with
         | O => k s cap
         | S fuel' =>
             match m r1 s cap
                     (fun s' cap' =>
                        if (List.length s' <? List.length s)%nat
                        then star fuel' s' cap' else None) with
             | Some x => Some x
             | None => k s cap
             end
         end) (List.length s) s cap
  | Capture r1 =>
      m r1 s cap
        (fun s' _ =>
           k s' (Some (firstn (List.length s - List.length s') s)))
  end.

(** A match anchored at the start of [s]: the content of group 1. *)
Definition matchHere (r : regex) (s : text) : option (option text) :=
  m r s None (fun _ cap => Some cap).

(** [s.match(r)] without the g flag: the leftmost start that matches;
    the result is the match's group 1. *)
Fixpoint exec (r : regex) (s : text) : option (option text) :=
  match matchHere r s with
  | Some cap => Some cap
  | None =>
      match s with
      | [] => None
      | _ :: s' => exec r s'
      end
  end.

(** A pattern without a capturing group. *)
Fixpoint captureFree (r : regex) : bool :=
  match r with
  | Char _ | Class _ => true
  | Seq r1 r2 | Alt r1 r2 => captureFree r1 && captureFree r2
  | Opt r1 | Star r1 => captureFree r1
  | Capture _ => false
  end.

(** A word of the pattern, character by character (the empty word
    matches the empty string). *)
Fixpoint lit (s : text) : regex :=
  match s with
  | [] => Opt (Class (fun _ => false))
  | [c] => Char c
  | c :: s' => Seq (Char c) (lit s')
  end.

(** (?:₹|rs\.?|inr|rupees?) *)
Definition currencyWord : regex :=
  Alt (Char 8377)
   (Alt (Seq (lit (units "rs")) (Opt (Char 46)))
     (Alt (lit (units "inr"))
          (Seq (lit (units "rupee")) (Opt (Char 115))))).

(** /(?:₹|rs\.?|inr|rupees?)\s*(\d+)/i *)
Definition amountAfter : regex :=
  Seq currencyWord
      (Seq (Star (Class isSpace)) (Capture (Plus (Class isDigit)))).

(** /(\d+)\s*(?:₹|rs\.?|inr|rupees?)/i *)
Definition amountBefore : regex :=
  Seq (Capture (Plus (Class isDigit)))
      (Seq (Star (Class isSpace)) currencyWord).

(** A capture that is a non-empty run of digits. *)
Definition digitRun (g : option text) : Prop :=
  exists a ds, g = Some (a :: ds) /\ forallb isDigit (a :: ds) = true.

End Regex.

(* ================================================================== *)
(** * The canvas editor: flow-builder.js                                *)
(* ================================================================== *)

Module FlowBuilder.

Import JS.

(** ** Node templates *)

(** What a read of [nodeTemplates.<type>[key]] can give: one of the
    three shapes of an entry, or what the catalogue inherits under that
    name from [Object.prototype]. *)
Inductive Template : Type :=
| PlainTemplate (label icon : string)
| ConditionTemplate (label icon field : string) (operators : list string)
    (valueType : string) (options : option (list string))
| ActionTemplate (label icon : string) (params : list string)
| Inherited (name : string).

(** A template catalogue, keyed by sub-type: the own properties of the
    object literal. *)
Definition catalogue : Type := list (string * Template).

(** The properties every object literal inherits.  Each of them holds a
    function, or [Object.prototype] itself under [__proto__]: all are
    truthy, and none has a property [field], [operators], [icon] or
    [label]. *)
Definition inheritedKeys : list string :=
  [ "constructor"; "toString"; "toLocaleString"; "valueOf";
    "hasOwnProperty"; "isPrototypeOf"; "propertyIsEnumerable";
    "__proto__"; "__defineGetter__"; "__defineSetter__";
    "__lookupGetter__"; "__lookupSetter__" ].

Definition inherited (k : string) : bool :=
  existsb (String.eqb k) inheritedKeys.

(** The own property [k] of a catalogue. *)
Fixpoint own (c : catalogue) (k : string) : option Template :=
  match c with
  | [] => None
  | (k', t) :: c' => if String.eqb k' k then Some t else own c' k
  end.

(** [c[k]]: the own property, else the inherited one, else
    [undefined]. *)
Definition lookup (c : catalogue) (k : string) : option Template :=
  match own c k with
  | Some t => Some t
  | None => if inherited k then Some (Inherited k) else None
  end.

(** A key that may be [undefined] names no entry. *)
Definition lookup_opt (c : catalogue) (k : option string) : option Template :=
  match k with
  | Some k' => lookup c k'
  | None => None
  end.

Module nodeTemplates.

Definition trigger : catalogue :=
  [ ("referral_signup", PlainTemplate "Referral Signup" "🎯");
    ("subscription_started", PlainTemplate "Subscription Started" "📝");
    ("payment_received", PlainTemplate "Payment Received" "💰") ].

Definition condition : catalogue :=
  [ ("referrer.is_paid_user",
     ConditionTemplate "Is Paid User" "🔷" "referrer.is_paid_user"
       ["equals"; "not_equals"] "boolean" None);
    ("referred.subscription_plan",
     ConditionTemplate "Subscription Plan" "🔷" "referred.subscription_plan"
       ["equals"; "not_equals"; "in"] "select"
       (Some ["free"; "basic"; "premium"; "enterprise"]));
    ("referrer.tier",
     ConditionTemplate "User Tier" "🔷" "referrer.tier"
       ["equals"; "not_equals"] "select"
       (Some ["standard"; "silver"; "gold"; "VIP"]));
    ("payment.amount",
     ConditionTemplate "Payment Amount" "🔷" "payment.amount"
       ["equals"; "greater_than"; "less_than"; "greater_than_or_equal"]
       "number" None) ].

Definition action : catalogue :=
  [ ("credit_reward",
     ActionTemplate "Credit Reward" "🎁" ["amount"; "currency"; "reward_type"]);
    ("send_notification",
     ActionTemplate "Send Notification" "📧" ["channel"; "template"]);
    ("update_status",
     ActionTemplate "Update Status" "📋" ["entity"; "status"]) ].

Definition logic : catalogue :=
  [ ("AND", PlainTemplate "AND Gate" "➕");
    ("OR", PlainTemplate "OR Gate" "⚡") ].

End nodeTemplates.

(** ** State *)

Record Node : Type := mkNode {
  id : string;
  type : string;
  subType : string;
  x : Z;
  y : Z;
  template : Template;
  config : obj
}.

Record Connection : Type := mkConnection {
  from : string;
  to : string
}.

(** [connecting] is [{ nodeId, portType }] or null; [selectedNode] holds
    a node of [nodes], kept here by its id. *)
Record State : Type := mkState {
  nodes : list Node;
  connections : list Connection;
  selectedNode : option string;
  connecting : option (string * string);
  nextNodeId : N;
  dragOffset : Z * Z
}.

Definition state : State :=
  {| nodes := [];
     connections := [];
     selectedNode := None;
     connecting := None;
     nextNodeId := 1%N;
     dragOffset := (0, 0) |}.

(** What a palette item puts on the drag: every field may be missing. *)
Record DropData : Type := mkDropData {
  nodeType : option string;
  d_trigger : option string;
  d_field : option string;
  d_action : option string;
  d_logic : option string
}.

(** ** Node creation *)

(** [`node-${n}`] *)
Definition nodeIdOf (n : N) : string :=
  "node-" ++ NilEmpty.string_of_uint (N.to_uint n).

Definition head_value (l : list string) : value :=
  match l with
  | s :: _ => Str s
  | [] => Undefined
  end.

(** How a call ends. *)
Inductive completion (A : Type) : Type :=
| Normal (a : A)
| Throw (error : string).
Arguments Normal {A} a.
Arguments Throw {A} error.

(** [getDefaultConfig].  For a condition the template is read again; one
    that is no entry of the catalogue ([undefined], or an inherited
    property, which has no [operators]) makes [template.field] or
    [template.operators[0]] a TypeError. *)
Definition getDefaultConfig (nodeType subType : string) : completion obj :=
  let config : obj := [] in
  let afterCondition : completion obj :=
    if String.eqb nodeType "condition" then
      match lookup nodeTemplates.condition subType with
      | Some (ConditionTemplate _ _ field operators valueType options) =>
          let config := set config "field" (Str field) in
          let config := set config "operator" (head_value operators) in
          Normal
            (set config "value"
               (if String.eqb valueType "boolean" then Bool true
                else if String.eqb valueType "number" then Num 0
                else match options with
                     | Some opts => head_value opts
                     | None => Str ""
                     end))
      | _ => Throw "TypeError"
      end
    else Normal config in
  match afterCondition with
  | Throw error => Throw error
  | Normal config =>
      Normal
        (if String.eqb nodeType "action" then
           if String.eqb subType "credit_reward" then
             set (set (set config "amount" (Num 100)) "currency" (Str "INR"))
                 "reward_type" (Str "voucher")
           else if String.eqb subType "send_notification" then
             set (set config "channel" (Str "email"))
                 "template" (Str "reward_credited")
           else config
         else config)
  end.

(** The [switch] of [createNode]: the template and the sub-type. *)
Definition templateFor (data : DropData) : option (Template * string) :=
  match nodeType data with
  | Some nt =>
      let pick (c : catalogue) (k : option string) :=
        match k, lookup_opt c k with
        | Some k', Some t => Some (t, k')
        | _, _ => None
        end in
      if String.eqb nt "trigger" then pick nodeTemplates.trigger (d_trigger data)
      else if String.eqb nt "condition" then
        pick nodeTemplates.condition (d_field data)
      else if String.eqb nt "action" then pick nodeTemplates.action (d_action data)
      else if String.eqb nt "logic" then pick nodeTemplates.logic (d_logic data)
      else None
  | None => None
  end.

(** [createNode(data, x, y)]: the new node, or nothing when no template
    is found.  The counter advances in either case, and also when
    [getDefaultConfig] throws, which is before the node is pushed. *)
Definition createNode (data : DropData) (px py : Z) (st : State)
  : State * completion (option Node) :=
  let nodeId := nodeIdOf (nextNodeId st) in
  let st1 :=
    {| nodes := nodes st;
       connections := connections st;
       selectedNode := selectedNode st;
       connecting := connecting st;
       nextNodeId := (nextNodeId st + 1)%N;
       dragOffset := dragOffset st |} in
  match nodeType data, templateFor data with
  | Some nt, Some (tpl, sub) =>
      match getDefaultConfig nt sub with
      | Throw error => (st1, Throw error)
      | Normal cfg =>
          let node :=
            {| id := nodeId;
               type := nt;
               subType := sub;
               x := px - 90;
               y := py - 30;
               template := tpl;
               config := cfg |} in
          ({| nodes := (nodes st1 ++ [node])%list;
              connections := connections st1;
              selectedNode := selectedNode st1;
              connecting := connecting st1;
              nextNodeId := nextNodeId st1;
              dragOffset := dragOffset st1 |}, Normal (Some node))
      end
  | _, _ => (st1, Normal None)
  end.

(** A write through a node reference: the object of [nodes] with that
    id changes. *)
Definition mutateNode (nodeId : string) (f : Node -> Node) (st : State)
  : State :=
  {| nodes := map (fun n => if String.eqb (id n) nodeId then f n else n)
                  (nodes st);
     connections := connections st;
     selectedNode := selectedNode st;
     connecting := connecting st;
     nextNodeId := nextNodeId st;
     dragOffset := dragOffset st |}.

Definition withConfig (f : obj -> obj) (n : Node) : Node :=
  {| id := id n; type := type n; subType := subType n; x := x n; y := y n;
     template := template n; config := f (config n) |}.

Definition withPosition (px py : Z) (n : Node) : Node :=
  {| id := id n; type := type n; subType := subType n; x := px; y := py;
     template := template n; config := config n |}.

(** The page shows an element for a node exactly while the node is in
    [nodes]. *)
Definition findNode (nodeId : string) (st : State) : option Node :=
  find (fun n => String.eqb (id n) nodeId) (nodes st).

(** The ports [renderNode] draws. *)
Definition hasPort (n : Node) (portType : string) : bool :=
  (String.eqb portType "input" && negb (String.eqb (type n) "trigger"))
  || (String.eqb portType "output" && negb (String.eqb (type n) "action")).

Definition portExists (nodeId portType : string) (st : State) : bool :=
  match findNode nodeId st with
  | Some n => hasPort n portType
  | None => false
  end.

(** ** Interactions *)

(** mousedown on a node, with the pointer at that offset inside it. *)
Definition handleNodeMouseDown (ox oy : Z) (st : State) : State :=
  {| nodes := nodes st;
     connections := connections st;
     selectedNode := selectedNode st;
     connecting := connecting st;
     nextNodeId := nextNodeId st;
     dragOffset := (ox, oy) |}.

(** mousemove while a node is held; the pointer is at canvas position
    [cx], [cy]. *)
Definition handleMouseMove (nodeId : string) (cx cy : Z) (st : State)
  : State :=
  mutateNode nodeId
    (withPosition (cx - fst (dragOffset st)) (cy - snd (dragOffset st))) st.

Definition handleNodeClick (nodeId : string) (st : State) : State :=
  {| nodes := nodes st;
     connections := connections st;
     selectedNode := Some nodeId;
     connecting := connecting st;
     nextNodeId := nextNodeId st;
     dragOffset := dragOffset st |}.

Definition handleCanvasClick (st : State) : State :=
  {| nodes := nodes st;
     connections := connections st;
     selectedNode := None;
     connecting := None;
     nextNodeId := nextNodeId st;
     dragOffset := dragOffset st |}.

(** ** Connections *)

Definition sameEnds (fromNode toNode : string) (c : Connection) : bool :=
  String.eqb (from c) fromNode && String.eqb (to c) toNode.

(** [handlePortClick(e, node, portType)], with [nodeId] the id of [node].
    After a new connection is pushed the two ports are marked; when one
    of them is not on the page the handler stops there on a TypeError,
    before [connecting] is cleared. *)
Definition handlePortClick (nodeId portType : string) (st : State) : State :=
  match connecting st with
  | None =>
      {| nodes := nodes st;
         connections := connections st;
         selectedNode := selectedNode st;
         connecting := Some (nodeId, portType);
         nextNodeId := nextNodeId st;
         dragOffset := dragOffset st |}
  | Some (cNode, cPort) =>
      let reset (conns : list Connection) :=
        {| nodes := nodes st;
           connections := conns;
           selectedNode := selectedNode st;
           connecting := None;
           nextNodeId := nextNodeId st;
           dragOffset := dragOffset st |} in
      if negb (String.eqb cNode nodeId) && negb (String.eqb cPort portType)
      then
        let fromNode := if String.eqb cPort "output" then cNode else nodeId in
        let toNode := if String.eqb cPort "output" then nodeId else cNode in
        let exists_ := existsb (sameEnds fromNode toNode) (connections st) in
        if negb exists_ then
          let conns :=
            (connections st ++ [ {| from := fromNode; to := toNode |} ])%list in
          if portExists fromNode "output" st && portExists toNode "input" st
          then reset conns
          else
            {| nodes := nodes st;
               connections := conns;
               selectedNode := selectedNode st;
               connecting := connecting st;
               nextNodeId := nextNodeId st;
               dragOffset := dragOffset st |}
        else reset (connections st)
      else reset (connections st)
  end.

Definition deleteConnection (conn : Connection) (st : State) : State :=
  {| nodes := nodes st;
     connections :=
       filter (fun c => negb (String.eqb (from c) (from conn)
                              && String.eqb (to c) (to conn)))
              (connections st);
     selectedNode := selectedNode st;
     connecting := connecting st;
     nextNodeId := nextNodeId st;
     dragOffset := dragOffset st |}.

Definition deleteNode (nodeId : string) (st : State) : State :=
  {| nodes := filter (fun n => negb (String.eqb (id n) nodeId)) (nodes st);
     connections :=
       filter (fun c => negb (String.eqb (from c) nodeId)
                        && negb (String.eqb (to c) nodeId))
              (connections st);
     selectedNode := None;
     connecting := connecting st;
     nextNodeId := nextNodeId st;
     dragOffset := dragOffset st |}.

Definition clearCanvas (st : State) : State :=
  {| nodes := [];
     connections := [];
     selectedNode := None;
     connecting := None;
     nextNodeId := nextNodeId st;
     dragOffset := dragOffset st |}.

(** ** Export *)

(** [Leaf] is [{ field, operator, value }]; [value] absent means the
    object has no such key. *)
#[warnings="-register-all"]
Inductive Condition : Type :=
| Leaf (field operator : value) (value : option value)
| Group (operator : string) (conditions : list Condition).

Module Action.
Record t : Type := mk { type : string; params : obj }.
End Action.

Module Rule.
Record t : Type := mk {
  id : string;
  name : string;
  description : string;
  version : Z;
  is_active : bool;
  priority : Z;
  trigger : string;
  conditions : Condition;
  actions : list Action.t
}.
End Rule.

Definition isType (t : string) (n : Node) : bool := String.eqb (type n) t.

Definition leafOf (n : Node) : Condition :=
  Leaf (get (config n) "field") (get (config n) "operator")
       (Some (get (config n) "value")).

(** [buildRuleJSON()], with [now] the value of [Date.now()]. *)
Definition buildRuleJSON (now : Z) (st : State) : Rule.t :=
  let triggerNode := find (isType "trigger") (nodes st) in
  let conditionNodes := filter (isType "condition") (nodes st) in
  let actionNodes := filter (isType "action") (nodes st) in
  let logicNodes := filter (isType "logic") (nodes st) in
  let conditions :=
    match conditionNodes with
    | [] => Leaf (Str "event.occurred") (Str "is_true") None
    | [n] => leafOf n
    | _ =>
        let logicOperator :=
          match logicNodes with
          | l :: _ => subType l
          | [] => "AND"
          end in
        Group logicOperator (map leafOf conditionNodes)
    end in
  let actions :=
    map (fun n => {| Action.type := subType n; Action.params := config n |})
        actionNodes in
  {| Rule.id := "rule-" ++ NilEmpty.string_of_int (Z.to_int now);
     Rule.name := "Generated Rule";
     Rule.description := "Rule created with visual flow builder";
     Rule.version := 1;
     Rule.is_active := true;
     Rule.priority := 0;
     Rule.trigger :=
       match triggerNode with
       | Some n => subType n
       | None => "referral_signup"
       end;
     Rule.conditions := conditions;
     Rule.actions :=
       match actions with
       | _ :: _ => actions
       | [] =>
           [ {| Action.type := "credit_reward";
                Action.params := [("amount", Num 100); ("currency", Str "INR")] |} ]
       end |}.

(** [showExportModal()]: the rule that the export dialog shows.  Neither
    it nor [buildRuleJSON] has a path that throws. *)
Definition showExportModal (now : Z) (st : State) : completion Rule.t :=
  Normal (buildRuleJSON now st).

(** ** Rules from a sentence *)

Module Parsed.
Record t : Type := mk {
  trigger : string;
  conditions : list Condition;
  actions : list Action.t
}.
End Parsed.

Section Generation.

(** [String.prototype.toLowerCase], the host's. *)
Variable toLowerCase : text -> text.

Definition parseNaturalLanguage (txt : text) : Parsed.t :=
  let textLower := toLowerCase txt in
  let trigger :=
    if includes textLower (units "subscri") then "subscription_started"
    else if includes textLower (units "payment")
            || includes textLower (units "pay") then "payment_received"
    else "referral_signup" in
  let conditions : list Condition := [] in
  let conditions :=
    if includes textLower (units "paid user")
       || includes textLower (units "paid member")
    then (conditions ++
          [Leaf (Str "referrer.is_paid_user") (Str "equals") (Some (Bool true))])%list
    else conditions in
  let conditions :=
    if includes textLower (units "premium")
    then (conditions ++
          [Leaf (Str "referred.subscription_plan") (Str "equals")
                (Some (Str "premium"))])%list
    else conditions in
  let conditions :=
    if includes textLower (units "vip")
    then (conditions ++
          [Leaf (Str "referrer.tier") (Str "equals") (Some (Str "VIP"))])%list
    else conditions in
  let amountMatch :=
    match Regex.exec Regex.amountAfter txt with
    | Some g => Some g
    | None => Regex.exec Regex.amountBefore txt
    end in
  let amount :=
    match amountMatch with
    | Some (Some digits) => parseInt digits
    | Some None => NaN
    | None => Num 100
    end in
  let rewardType :=
    if includes textLower (units "cash") then "cash"
    else if includes textLower (units "point") then "points"
    else "voucher" in
  {| Parsed.trigger := trigger;
     Parsed.conditions :=
       match conditions with
       | _ :: _ => conditions
       | [] => [Leaf (Str "referred.signup_completed") (Str "is_true") None]
       end;
     Parsed.actions :=
       [ {| Action.type := "credit_reward";
            Action.params :=
              [("amount", amount); ("currency", Str "INR");
               ("reward_type", Str rewardType)] |} ] |}.

Definition noData : DropData :=
  {| nodeType := None; d_trigger := None; d_field := None;
     d_action := None; d_logic := None |}.

(** The callback of the first [forEach] of [generateNodesFromRule]. *)
Definition createConditionNode (i : Z) (cond : Condition) (st : State)
  : State * completion unit :=
  match cond with
  | Leaf (Str f) operator value =>
      if truthy (Str f) then
        match lookup nodeTemplates.condition f with
        | Some _ =>
            let '(st1, node) :=
              createNode
                {| nodeType := Some "condition"; d_trigger := None;
                   d_field := Some f; d_action := None; d_logic := None |}
                350 (80 + i * 120) st in
            match node with
            | Throw error => (st1, Throw error)
            | Normal (Some n) =>
                (mutateNode (id n)
                   (withConfig (fun c =>
                      set (set c "operator" operator) "value"
                          (match value with
                           | Some v => v
                           | None => Undefined
                           end))) st1,
                 Normal tt)
            | Normal None => (st1, Normal tt)
            end
        | None => (st, Normal tt)
        end
      else (st, Normal tt)
  | _ => (st, Normal tt)
  end.

(** The first [forEach], from index [i] on: a callback that throws ends
    the loop. *)
Fixpoint createConditionNodes (i : Z) (conds : list Condition) (st : State)
  : State * completion unit :=
  match conds with
  | [] => (st, Normal tt)
  | cond :: rest =>
      match createConditionNode i cond st with
      | (st', Throw error) => (st', Throw error)
      | (st', Normal _) => createConditionNodes (i + 1) rest st'
      end
  end.

(** The second [forEach], from index [i] on; [px] is the column. *)
Fixpoint createActionNodes (px : Z) (i : Z) (acts : list Action.t) (st : State)
  : State * completion unit :=
  match acts with
  | [] => (st, Normal tt)
  | act :: rest =>
      let '(st1, node) :=
        createNode
          {| nodeType := Some "action"; d_trigger := None; d_field := None;
             d_action := Some (Action.type act); d_logic := None |}
          px (80 + i * 120) st in
      match node with
      | Throw error => (st1, Throw error)
      | Normal (Some n) =>
          createActionNodes px (i + 1) rest
            (mutateNode (id n)
               (withConfig (fun c => assign c (Action.params act))) st1)
      | Normal None => createActionNodes px (i + 1) rest st1
      end
  end.

(** [generateNodesFromRule(rule)]: the first call that throws ends it,
    with the nodes made so far left on the canvas. *)
Definition generateNodesFromRule (rule : Parsed.t) (st : State)
  : State * completion unit :=
  let yOffset := 80 in
  match createNode
          {| nodeType := Some "trigger";
             d_trigger := Some (Parsed.trigger rule);
             d_field := None; d_action := None; d_logic := None |}
          100 yOffset st with
  | (st, Throw error) => (st, Throw error)
  | (st, Normal _) =>
      match createConditionNodes 0 (Parsed.conditions rule) st with
      | (st, Throw error) => (st, Throw error)
      | (st, Normal _) =>
          let many := (1 <? List.length (Parsed.conditions rule))%nat in
          let gate :=
            if many then
              createNode
                {| nodeType := Some "logic"; d_trigger := None;
                   d_field := None; d_action := None; d_logic := Some "AND" |}
                550 (yOffset + 60) st
            else (st, Normal None) in
          match gate with
          | (st, Throw error) => (st, Throw error)
          | (st, Normal _) =>
              createActionNodes (if many then 750 else 550) 0
                (Parsed.actions rule) st
          end
      end
  end.

(** [generateFromAI()], with [inputValue] the content of the text box.
    What [generateNodesFromRule] throws is caught here and only shown
    on the button. *)
Definition generateFromAI (inputValue : text) (st : State) : State :=
  match trim inputValue with
  | [] => st
  | input =>
      let rule := parseNaturalLanguage input in
      fst (generateNodesFromRule rule (clearCanvas st))
  end.

(** ** What the user can do *)

Inductive Event : Type :=
| CanvasDrop (data : DropData) (px py : Z)
| NodeMouseDown (nodeId : string) (ox oy : Z)
| MouseMove (nodeId : string) (cx cy : Z)
| NodeClick (nodeId : string)
| CanvasClick
| PortClick (nodeId portType : string)
| PathClick (conn : Connection)
| DeleteNode (nodeId : string)
| ClearButton
| ExportButton
| GenerateButton (inputValue : text).

(** One event, as it leaves the state; what a handler throws goes to
    the console.  A node or a port can be clicked only while it is on
    the page; an event on something that is not there changes nothing. *)
Definition step (st : State) (e : Event) : State :=
  match e with
  | CanvasDrop data px py => fst (createNode data px py st)
  | NodeMouseDown nodeId ox oy =>
      match findNode nodeId st with
      | Some _ => handleNodeMouseDown ox oy st
      | None => st
      end
  | MouseMove nodeId cx cy => handleMouseMove nodeId cx cy st
  | NodeClick nodeId =>
      match findNode nodeId st with
      | Some _ => handleNodeClick nodeId st
      | None => st
      end
  | CanvasClick => handleCanvasClick st
  | PortClick nodeId portType =>
      if portExists nodeId portType st
      then handlePortClick nodeId portType st
      else st
  | PathClick conn => deleteConnection conn st
  | DeleteNode nodeId => deleteNode nodeId st
  | ClearButton => clearCanvas st
  | ExportButton => st
  | GenerateButton inputValue => generateFromAI inputValue st
  end.

Definition run (events : list Event) : State := fold_left step events state.

Definition reachable (st : State) : Prop := exists events, st = run events.

End Generation.

(** ** Invariants of the canvas *)

(** The nodes carry the ids [node-k] for increasing [k], all of them
    from [lo] on and below [hi]: they stand in the order in which they
    were created. *)
Inductive ordered (hi : N) : N -> list Node -> Prop :=
| ordered_nil (lo : N) : (lo <= hi)%N -> ordered hi lo []
| ordered_cons (lo k : N) (n : Node) (l : list Node) :
    (lo <= k)%N -> id n = nodeIdOf k -> ordered hi (k + 1)%N l ->
    ordered hi lo (n :: l).

(** A logic node carries a name that [nodeTemplates.logic] answers
    to: AND, OR, or an inherited one. *)
Definition isGate (n : Node) : Prop :=
  type n = "logic" ->
  subType n = "AND" \/ subType n = "OR" \/ In (subType n) inheritedKeys.

Definition nodesInOrder (st : State) : Prop :=
  ordered (nextNodeId st) 0%N (nodes st) /\ Forall isGate (nodes st).

(** No wire from a node to itself, and no wire twice. *)
Definition simpleWiring (conns : list Connection) : Prop :=
  NoDup conns /\ Forall (fun c => from c <> to c) conns.

(** What the parser makes of the digits that an amount pattern has
    captured: the digits are a non-empty run, and the amount is
    [parseInt] of them, the Number nearest to their decimal value. *)
Definition amountOf (digits : text) (amount : value) : Prop :=
  digits <> [] /\
  forallb isDigit digits = true /\
  amount = parseInt digits /\
  amount = nearestNumber (digitsValue 0 digits) /\
  (digitsValue 0 digits < 2 ^ 53 -> amount = Num (digitsValue 0 digits)).

(** [toLowerCase] on Basic Latin text. *)
Definition toLowerCaseAscii (s : text) : text :=
  map (fun c => if ((65 <=? c) && (c <=? 90))%N then (c + 32)%N else c) s.

(** A drop as the palette's items of one kind send it. *)
Definition dropOf (nodeType key : string) : DropData :=
  {| nodeType := Some nodeType;
     d_trigger := if String.eqb nodeType "trigger" then Some key else None;
     d_field := if String.eqb nodeType "condition" then Some key else None;
     d_action := if String.eqb nodeType "action" then Some key else None;
     d_logic := if String.eqb nodeType "logic" then Some key else None |}.

(** A session in which the drop of a logic node carries the name
    [constructor], which [nodeTemplates.logic] inherits: two conditions,
    then that gate. *)
Definition inheritedNameSession : list Event :=
  [ CanvasDrop (dropOf "condition" "payment.amount") 300 100;
    CanvasDrop (dropOf "condition" "referrer.tier") 300 220;
    CanvasDrop (dropOf "logic" "constructor") 500 160 ].

(** A session at the editor: a rule is generated from a sentence, then
    the trigger is wired to the first condition. *)
Definition sampleSession : list Event :=
  [ GenerateButton (units "Paid user refers a premium subscriber: Rs. 500 cash");
    PortClick "node-1" "output";
    PortClick "node-2" "input" ].

End FlowBuilder.

(* ================================================================== *)
(** * The ledger schema: tables, constraints, trigger and view          *)
(* ================================================================== *)

Module Schema.

Local Open Scope list_scope.

(** A UUID, as its 128-bit number. *)
Definition uuid : Type := N.

Inductive entry_type : Type := CREDIT | DEBIT | REVERSAL.

Inductive reward_status : Type :=
  PENDING | CONFIRMED | PAID | REVERSED | EXPIRED.

Definition entry_type_eqb (a b : entry_type) : bool :=
  match a, b with
  | CREDIT, CREDIT | DEBIT, DEBIT | REVERSAL, REVERSAL => true
  | _, _ => false
  end.

(** DECIMAL(15, 2), in hundredths: at most thirteen digits before the
    point.  (An amount here is a finite number; the value NaN, which
    the type also admits, is not among them.) *)
Definition decimal_15_2 (v : Z) : bool := Z.abs v <? 10 ^ 15.

(** VARCHAR(n): a value of more than [n] characters is refused.
    (PostgreSQL stores such a value cut to [n] characters when all that
    is cut off is spaces; here it is refused like any other.) *)
Definition varchar (n : nat) (s : string) : bool :=
  (String.length s <=? n)%nat.

Definition varchar_opt (n : nat) (s : option string) : bool :=
  match s with
  | Some s' => varchar n s'
  | None => true
  end.

(** A row as stored; a column without NOT NULL is an [option]. *)
Module RewardEvent.
Record t : Type := mk {
  id : uuid;
  idempotency_key : string;
  reward_definition_id : option uuid;
  referrer_user_id : uuid;
  referred_user_id : uuid;
  status : reward_status;
  amount : Z;
  currency : option string;
  created_at : option Z;
  confirmed_at : option Z;
  paid_at : option Z;
  reversed_at : option Z;
  created_by : option string;
  reversal_reason : option string
}.
End RewardEvent.

Module LedgerEntry.
Record t : Type := mk {
  id : uuid;
  user_id : uuid;
  entry_type : Schema.entry_type;
  amount : Z;
  currency : option string;
  balance_after : Z;
  reward_event_id : option uuid;
  reference_entry_id : option uuid;
  idempotency_key : string;
  description : string;
  created_at : Z;
  metadata : option string
}.
End LedgerEntry.

(** The tables.  Of [users] and [reward_definitions] only the primary
    keys matter here; rows are in insertion order. *)
Record db : Type := mkDb {
  users : list uuid;
  reward_definitions : list uuid;
  reward_events : list RewardEvent.t;
  ledger_entries : list LedgerEntry.t
}.

(** The database after the script has run: the three seeded reward
    definitions and nothing else. *)
Definition seeded : db :=
  {| users := [];
     reward_definitions :=
       [ 0x11111111111111111111111111111111%N;
         0x22222222222222222222222222222222%N;
         0x33333333333333333333333333333333%N ];
     reward_events := [];
     ledger_entries := [] |}.

Inductive error : Type :=
| numeric_value_out_of_range
| string_data_right_truncation
| check_violation (constraint : string)
| unique_violation (constraint : string)
| foreign_key_violation (constraint : string)
| raise_exception (message : string).

Definition result : Type := (db + error)%type.

Definition mem (i : uuid) (l : list uuid) : bool := existsb (N.eqb i) l.

Definition mem_opt (i : option uuid) (l : list uuid) : bool :=
  match i with
  | Some i' => mem i' l
  | None => true
  end.

(** The first check that fails, if any. *)
Fixpoint first_error (checks : list (bool * error)) : option error :=
  match checks with
  | [] => None
  | (true, _) :: rest => first_error rest
  | (false, e) :: _ => Some e
  end.

(** ** reward_events *)

(** What one row of [reward_events] must satisfy next to the rows
    [others]: column types, the CHECK, then the two unique indexes. *)
Definition reward_event_checks (others : list RewardEvent.t)
  (r : RewardEvent.t) : list (bool * error) :=
  [ (decimal_15_2 (RewardEvent.amount r), numeric_value_out_of_range);
    (varchar 255 (RewardEvent.idempotency_key r)
     && varchar_opt 3 (RewardEvent.currency r)
     && varchar_opt 255 (RewardEvent.created_by r),
     string_data_right_truncation);
    (negb (RewardEvent.referrer_user_id r =? RewardEvent.referred_user_id r)%N,
     check_violation "valid_participants");
    (negb (existsb (fun o => (RewardEvent.id o =? RewardEvent.id r)%N) others),
     unique_violation "reward_events_pkey");
    (negb (existsb (fun o => String.eqb (RewardEvent.idempotency_key o)
                                        (RewardEvent.idempotency_key r))
                   others),
     unique_violation "reward_events_idempotency_key_key") ].

(** The foreign keys out of one row of [reward_events]. *)
Definition reward_event_fk (d : db) (r : RewardEvent.t)
  : list (bool * error) :=
  [ (mem_opt (RewardEvent.reward_definition_id r) (reward_definitions d),
     foreign_key_violation "reward_events_reward_definition_id_fkey");
    (mem (RewardEvent.referrer_user_id r) (users d),
     foreign_key_violation "reward_events_referrer_user_id_fkey");
    (mem (RewardEvent.referred_user_id r) (users d),
     foreign_key_violation "reward_events_referred_user_id_fkey") ].

(** ** ledger_entries *)

(** SET amount = v. *)
Definition set_amount (v : Z) (e : LedgerEntry.t) : LedgerEntry.t :=
  {| LedgerEntry.id := LedgerEntry.id e;
     LedgerEntry.user_id := LedgerEntry.user_id e;
     LedgerEntry.entry_type := LedgerEntry.entry_type e;
     LedgerEntry.amount := v;
     LedgerEntry.currency := LedgerEntry.currency e;
     LedgerEntry.balance_after := LedgerEntry.balance_after e;
     LedgerEntry.reward_event_id := LedgerEntry.reward_event_id e;
     LedgerEntry.reference_entry_id := LedgerEntry.reference_entry_id e;
     LedgerEntry.idempotency_key := LedgerEntry.idempotency_key e;
     LedgerEntry.description := LedgerEntry.description e;
     LedgerEntry.created_at := LedgerEntry.created_at e;
     LedgerEntry.metadata := LedgerEntry.metadata e |}.

(** The column types of one row of [ledger_entries]: what the values
    of an INSERT or of the SET list of an UPDATE are converted to. *)
Definition ledger_entry_types (e : LedgerEntry.t) : list (bool * error) :=
  [ (decimal_15_2 (LedgerEntry.amount e)
     && decimal_15_2 (LedgerEntry.balance_after e),
     numeric_value_out_of_range);
    (varchar_opt 3 (LedgerEntry.currency e)
     && varchar 255 (LedgerEntry.idempotency_key e),
     string_data_right_truncation) ].

(** The two unique indexes, next to the rows [others]. *)
Definition ledger_entry_keys (others : list LedgerEntry.t)
  (e : LedgerEntry.t) : list (bool * error) :=
  [ (negb (existsb (fun o => (LedgerEntry.id o =? LedgerEntry.id e)%N) others),
     unique_violation "ledger_entries_pkey");
    (negb (existsb
             (fun o => String.eqb (LedgerEntry.idempotency_key o)
                                  (LedgerEntry.idempotency_key e)
                       && entry_type_eqb (LedgerEntry.entry_type o)
                                         (LedgerEntry.entry_type e))
             others),
     unique_violation "idx_ledger_idempotency") ].

Definition ledger_entry_checks (others : list LedgerEntry.t)
  (e : LedgerEntry.t) : list (bool * error) :=
  ledger_entry_types e ++ ledger_entry_keys others e.

(** The foreign keys out of one row of [ledger_entries], checked once
    the row is in [entries]: a row may refer to itself. *)
Definition ledger_entry_fk (d : db) (entries : list LedgerEntry.t)
  (e : LedgerEntry.t) : list (bool * error) :=
  [ (mem (LedgerEntry.user_id e) (users d),
     foreign_key_violation "ledger_entries_user_id_fkey");
    (mem_opt (LedgerEntry.reward_event_id e)
             (map RewardEvent.id (reward_events d)),
     foreign_key_violation "ledger_entries_reward_event_id_fkey");
    (mem_opt (LedgerEntry.reference_entry_id e) (map LedgerEntry.id entries),
     foreign_key_violation "ledger_entries_reference_entry_id_fkey") ].

(** How a BEFORE ROW trigger function ends: it raises, or it returns
    the row to go on with (NULL: the row is skipped). *)
Inductive trigger_result : Type :=
| raised (e : error)
| returned (row : option LedgerEntry.t).

(** [prevent_ledger_modification()]: it raises, whatever OLD and NEW
    are (NEW is NULL in a DELETE); its RETURN is never reached. *)
Definition prevent_ledger_modification (old : LedgerEntry.t)
  (new : option LedgerEntry.t) : trigger_result :=
  raised (raise_exception "Ledger entries are immutable").

(** The trigger [enforce_ledger_immutability], BEFORE UPDATE OR DELETE
    ON ledger_entries FOR EACH ROW. *)
Definition enforce_ledger_immutability (old : LedgerEntry.t)
  (new : option LedgerEntry.t) : trigger_result :=
  prevent_ledger_modification old new.

(** ** Statements *)

Inductive statement : Type :=
| InsertUser (id : uuid)
| DeleteUsers (where_ : uuid -> bool)
| InsertRewardDefinition (id : uuid)
| DeleteRewardDefinitions (where_ : uuid -> bool)
| InsertRewardEvent (r : RewardEvent.t)
| UpdateRewardEvents (where_ : RewardEvent.t -> bool)
    (set_ : RewardEvent.t -> RewardEvent.t)
| DeleteRewardEvents (where_ : RewardEvent.t -> bool)
| InsertLedgerEntry (e : LedgerEntry.t)
| UpdateLedgerEntries (where_ : LedgerEntry.t -> bool)
    (set_ : LedgerEntry.t -> LedgerEntry.t)
| DeleteLedgerEntries (where_ : LedgerEntry.t -> bool).

(** UPDATE reward_events, row by row: [done] are the rows already
    passed (in order), [todo] the rows to come.  A changed row is
    checked against all the others as they stand at that moment. *)
Fixpoint update_reward_events (where_ : RewardEvent.t -> bool)
  (set_ : RewardEvent.t -> RewardEvent.t)
  (done todo : list RewardEvent.t) : list RewardEvent.t + error :=
  match todo with
  | [] => inl done
  | r :: rest =>
      if where_ r then
        let r' := set_ r in
        match first_error (reward_event_checks (done ++ rest) r') with
        | Some err => inr err
        | None => update_reward_events where_ set_ (done ++ [r']) rest
        end
      else update_reward_events where_ set_ (done ++ [r]) rest
  end.

(** UPDATE ledger_entries, row by row.  For a row that WHERE selects,
    the SET list is evaluated and converted to the column types first;
    then the BEFORE trigger runs; the row it returns is checked against
    the unique indexes and written.  The result: the rows of the table,
    and those that were written.  (PostgreSQL may convert a SET value
    that is a constant already when it plans the statement, selected
    row or not; here every value is converted when a row is
    selected.) *)
Fixpoint update_ledger_entries (where_ : LedgerEntry.t -> bool)
  (set_ : LedgerEntry.t -> LedgerEntry.t)
  (done written todo : list LedgerEntry.t)
  : list LedgerEntry.t * list LedgerEntry.t + error :=
  match todo with
  | [] => inl (done, written)
  | r :: rest =>
      if where_ r then
        let new := set_ r in
        match first_error (ledger_entry_types new) with
        | Some err => inr err
        | None =>
            match enforce_ledger_immutability r (Some new) with
            | raised err => inr err
            | returned None =>
                update_ledger_entries where_ set_ (done ++ [r]) written rest
            | returned (Some new') =>
                match first_error (ledger_entry_keys (done ++ rest) new') with
                | Some err => inr err
                | None =>
                    update_ledger_entries where_ set_ (done ++ [new'])
                      (written ++ [new']) rest
                end
            end
        end
      else update_ledger_entries where_ set_ (done ++ [r]) written rest
  end.

(** DELETE FROM ledger_entries, row by row: the BEFORE trigger runs for
    each row that WHERE selects.  The result: the rows that stay, and
    those that were deleted. *)
Fixpoint delete_ledger_entries (where_ : LedgerEntry.t -> bool)
  (done deleted todo : list LedgerEntry.t)
  : list LedgerEntry.t * list LedgerEntry.t + error :=
  match todo with
  | [] => inl (done, deleted)
  | r :: rest =>
      if where_ r then
        match enforce_ledger_immutability r None with
        | raised err => inr err
        | returned None =>
            delete_ledger_entries where_ (done ++ [r]) deleted rest
        | returned (Some _) =>
            delete_ledger_entries where_ done (deleted ++ [r]) rest
        end
      else delete_ledger_entries where_ (done ++ [r]) deleted rest
  end.

(** Every foreign key that points into or out of [reward_events],
    [users] and [reward_definitions], over the whole database. *)
Definition all_fk (d : db) : list (bool * error) :=
  flat_map (reward_event_fk d) (reward_events d)
  ++ flat_map (ledger_entry_fk d (ledger_entries d)) (ledger_entries d).

Definition checked (d : db) (checks : list (bool * error)) : result :=
  match first_error checks with
  | Some err => inr err
  | None => inl d
  end.

(** One statement: the new database, or the error that aborts it.  A
    statement on [ledger_entries] that writes or deletes no row leaves
    nothing to check. *)
Definition execute (s : statement) (d : db) : result :=
  match s with
  | InsertUser i =>
      checked
        {| users := users d ++ [i];
           reward_definitions := reward_definitions d;
           reward_events := reward_events d;
           ledger_entries := ledger_entries d |}
        [ (negb (mem i (users d)), unique_violation "users_pkey") ]
  | DeleteUsers w =>
      let d' :=
        {| users := filter (fun i => negb (w i)) (users d);
           reward_definitions := reward_definitions d;
           reward_events := reward_events d;
           ledger_entries := ledger_entries d |} in
      checked d' (all_fk d')
  | InsertRewardDefinition i =>
      checked
        {| users := users d;
           reward_definitions := reward_definitions d ++ [i];
           reward_events := reward_events d;
           ledger_entries := ledger_entries d |}
        [ (negb (mem i (reward_definitions d)),
           unique_violation "reward_definitions_pkey") ]
  | DeleteRewardDefinitions w =>
      let d' :=
        {| users := users d;
           reward_definitions := filter (fun i => negb (w i)) (reward_definitions d);
           reward_events := reward_events d;
           ledger_entries := ledger_entries d |} in
      checked d' (all_fk d')
  | InsertRewardEvent r =>
      checked
        {| users := users d;
           reward_definitions := reward_definitions d;
           reward_events := reward_events d ++ [r];
           ledger_entries := ledger_entries d |}
        (reward_event_checks (reward_events d) r ++ reward_event_fk d r)
  | UpdateRewardEvents w f =>
      match update_reward_events w f [] (reward_events d) with
      | inr err => inr err
      | inl rows =>
          let d' :=
            {| users := users d;
               reward_definitions := reward_definitions d;
               reward_events := rows;
               ledger_entries := ledger_entries d |} in
          checked d' (all_fk d')
      end
  | DeleteRewardEvents w =>
      let d' :=
        {| users := users d;
           reward_definitions := reward_definitions d;
           reward_events := filter (fun r => negb (w r)) (reward_events d);
           ledger_entries := ledger_entries d |} in
      checked d' (all_fk d')
  | InsertLedgerEntry e =>
      let entries := ledger_entries d ++ [e] in
      checked
        {| users := users d;
           reward_definitions := reward_definitions d;
           reward_events := reward_events d;
           ledger_entries := entries |}
        (ledger_entry_checks (ledger_entries d) e ++ ledger_entry_fk d entries e)
  | UpdateLedgerEntries w f =>
      match update_ledger_entries w f [] [] (ledger_entries d) with
      | inr err => inr err
      | inl (_, []) => inl d
      | inl (rows, _ :: _) =>
          let d' :=
            {| users := users d;
               reward_definitions := reward_definitions d;
               reward_events := reward_events d;
               ledger_entries := rows |} in
          checked d' (all_fk d')
      end
  | DeleteLedgerEntries w =>
      match delete_ledger_entries w [] [] (ledger_entries d) with
      | inr err => inr err
      | inl (_, []) => inl d
      | inl (rows, _ :: _) =>
          let d' :=
            {| users := users d;
               reward_definitions := reward_definitions d;
               reward_events := reward_events d;
               ledger_entries := rows |} in
          checked d' (all_fk d')
      end
  end.

(** Every statement is a transaction of its own: one that fails leaves
    the database as it was. *)
Definition apply (d : db) (s : statement) : db :=
  match execute s d with
  | inl d' => d'
  | inr _ => d
  end.

Definition run (script : list statement) (d : db) : db :=
  fold_left apply script d.

(** ** The view user_balances *)

Definition account : Type := (uuid * option string)%type.

Definition currency_eqb (a b : option string) : bool :=
  match a, b with
  | Some a', Some b' => String.eqb a' b'
  | None, None => true
  | _, _ => false
  end.

(** GROUP BY puts the NULL currencies in one group. *)
Definition account_eqb (a b : account) : bool :=
  (fst a =? fst b)%N && currency_eqb (snd a) (snd b).

Definition account_of (e : LedgerEntry.t) : account :=
  (LedgerEntry.user_id e, LedgerEntry.currency e).

Definition in_account (a : account) (e : LedgerEntry.t) : bool :=
  account_eqb (account_of e) a.

(** The groups, each named once, by first appearance. *)
Fixpoint groups (entries : list LedgerEntry.t) : list account :=
  match entries with
  | [] => []
  | e :: rest =>
      account_of e
        :: filter (fun a => negb (account_eqb a (account_of e))) (groups rest)
  end.

Module Balance.
Record t : Type := mk {
  user_id : uuid;
  currency : option string;
  current_balance : Z;
  total_entries : nat;
  last_transaction_at : option Z
}.
End Balance.

Definition sum (l : list Z) : Z := fold_right Z.add 0 l.

Definition maximum (l : list Z) : option Z :=
  match l with
  | [] => None
  | v :: rest => Some (fold_left Z.max rest v)
  end.

Definition user_balances (d : db) : list Balance.t :=
  map (fun a =>
         let rows := filter (in_account a) (ledger_entries d) in
         {| Balance.user_id := fst a;
            Balance.currency := snd a;
            Balance.current_balance := sum (map LedgerEntry.amount rows);
            Balance.total_entries := List.length rows;
            Balance.last_transaction_at :=
              maximum (map LedgerEntry.created_at rows) |})
      (groups (ledger_entries d)).

(** SELECT current_balance FROM user_balances WHERE the row is that
    account's: no row when the account has no entry. *)
Definition current_balance (d : db) (a : account) : option Z :=
  match find (fun b => account_eqb (Balance.user_id b, Balance.currency b) a)
             (user_balances d) with
  | Some b => Some (Balance.current_balance b)
  | None => None
  end.

(** ** What the constraints are to keep *)

(** The columns of idx_ledger_idempotency. *)
Definition ledger_key (e : LedgerEntry.t) : string * entry_type :=
  (LedgerEntry.idempotency_key e, LedgerEntry.entry_type e).

Definition has_ledger_key (k : string) (t : entry_type) (e : LedgerEntry.t)
  : bool :=
  String.eqb (LedgerEntry.idempotency_key e) k
  && entry_type_eqb (LedgerEntry.entry_type e) t.

Definition has_event_key (k : string) (r : RewardEvent.t) : bool :=
  String.eqb (RewardEvent.idempotency_key r) k.

(** The CHECK valid_participants. *)
Definition valid_participants (r : RewardEvent.t) : Prop :=
  RewardEvent.referrer_user_id r <> RewardEvent.referred_user_id r.

(** What the unique indexes and the CHECK say of a database. *)
Definition constrained (d : db) : Prop :=
  NoDup (map ledger_key (ledger_entries d)) /\
  NoDup (map RewardEvent.idempotency_key (reward_events d)) /\
  Forall valid_participants (reward_events d).

(** A reward event in which a user refers themselves. *)
Definition selfReferral : RewardEvent.t :=
  {| RewardEvent.id := 1%N;
     RewardEvent.idempotency_key := "k1";
     RewardEvent.reward_definition_id :=
       Some 0x11111111111111111111111111111111%N;
     RewardEvent.referrer_user_id := 7%N;
     RewardEvent.referred_user_id := 7%N;
     RewardEvent.status := PENDING;
     RewardEvent.amount := 10000;
     RewardEvent.currency := Some "INR";
     RewardEvent.created_at := Some 0;
     RewardEvent.confirmed_at := None;
     RewardEvent.paid_at := None;
     RewardEvent.reversed_at := None;
     RewardEvent.created_by := None;
     RewardEvent.reversal_reason := None |}.

End Schema.

(* ================================================================== *)
(** * The ledger store, on top of the schema                            *)
(* ================================================================== *)

Module LedgerStore.

Import Schema.

Local Open Scope list_scope.

(** Modelled from the spec: the ledger service (ledger/service.py) is
    not part of the sources at hand.  An entry draft is an entry without
    what [append] assigns: id, timestamp and [balance_after]. *)
Record draft : Type := mkDraft {
  user_id : uuid;
  entry_type : Schema.entry_type;
  amount : Z;
  currency : string;
  reward_event_id : option uuid;
  reference_entry_id : option uuid;
  idempotency_key : string;
  description : string;
  metadata : option string
}.

(** Modelled from the spec: [getBalance(user_id, currency)] is the sum
    over all entries for that key. *)
Definition getBalance (d : db) (user : uuid) (cur : string) : Z :=
  sum (map LedgerEntry.amount
           (filter (in_account (user, Some cur)) (ledger_entries d))).

(** Modelled from the spec: the entry that already holds the draft's
    idempotency key and entry type, if there is one. *)
Definition existing (d : db) (dr : draft) : option LedgerEntry.t :=
  find (fun e => String.eqb (LedgerEntry.idempotency_key e) (idempotency_key dr)
                 && entry_type_eqb (LedgerEntry.entry_type e) (entry_type dr))
       (ledger_entries d).

(** Modelled from the spec: [append(entry_draft)] returns the entry that
    exists for the key and entry type and writes nothing; otherwise it
    computes [balance_after] from the account's current balance plus
    the signed amount and persists the entry with the assigned id and
    timestamp.  A write that the schema refuses leaves no entry. *)
Definition append (new_id : uuid) (now : Z) (dr : draft) (d : db)
  : db * (LedgerEntry.t + error) :=
  match existing d dr with
  | Some e => (d, inl e)
  | None =>
      let e :=
        {| LedgerEntry.id := new_id;
           LedgerEntry.user_id := user_id dr;
           LedgerEntry.entry_type := entry_type dr;
           LedgerEntry.amount := amount dr;
           LedgerEntry.currency := Some (currency dr);
           LedgerEntry.balance_after :=
             getBalance d (user_id dr) (currency dr) + amount dr;
           LedgerEntry.reward_event_id := reward_event_id dr;
           LedgerEntry.reference_entry_id := reference_entry_id dr;
           LedgerEntry.idempotency_key := idempotency_key dr;
           LedgerEntry.description := description dr;
           LedgerEntry.created_at := now;
           LedgerEntry.metadata := metadata dr |} in
      match execute (InsertLedgerEntry e) d with
      | inl d' => (d', inl e)
      | inr err => (d, inr err)
      end
  end.

(** One call of [append]: the id and the time it would assign, and the
    draft. *)
Definition call : Type := (uuid * Z * draft)%type.

Definition appends (calls : list call) (d : db) : db :=
  fold_left (fun d c => fst (append (fst (fst c)) (snd (fst c)) (snd c) d))
            calls d.

(** The most recent entry of an account: the last one appended. *)
Definition latest (a : account) (entries : list LedgerEntry.t)
  : option LedgerEntry.t :=
  fold_left (fun acc e => if in_account a e then Some e else acc) entries None.

(** A ledger with no entry yet, whatever the other tables hold. *)
Definition empty_ledger (us defs : list uuid) (evs : list RewardEvent.t)
  : db :=
  {| users := us; reward_definitions := defs; reward_events := evs;
     ledger_entries := [] |}.

(** The scenario of the spec: user 7 is credited 500.00 INR under key
    "k1"; the call is sent twice; then the credit is reversed. *)
Definition sampleCalls : list call :=
  let credit :=
    {| user_id := 7%N; entry_type := CREDIT; amount := 50000;
       currency := "INR"; reward_event_id := None;
       reference_entry_id := None; idempotency_key := "k1";
       description := "referral reward"; metadata := None |} in
  let reversal :=
    {| user_id := 7%N; entry_type := REVERSAL; amount := -50000;
       currency := "INR"; reward_event_id := None;
       reference_entry_id := Some 100%N; idempotency_key := "k1";
       description := "fraud"; metadata := None |} in
  [ (100%N, 1000, credit); (101%N, 1001, credit); (102%N, 1002, reversal) ].

(** The invariant of the store: in every account the latest entry's
    [balance_after] is the sum of the account's amounts. *)
Definition balanced (d : db) : Prop :=
  forall a e,
    latest a (ledger_entries d) = Some e ->
    LedgerEntry.balance_after e
    = sum (map LedgerEntry.amount (filter (in_account a) (ledger_entries d))).

End LedgerStore.

(* ================================================================== *)
(** * More invariants of the canvas                                     *)
(* ================================================================== *)

Module Canvas.

Import JS FlowBuilder.

Local Open Scope list_scope.

(** The catalogue that [createNode] consults for a node type. *)
Definition catalogueOf (nodeType : string) : option catalogue :=
  if String.eqb nodeType "trigger" then Some nodeTemplates.trigger
  else if String.eqb nodeType "condition" then Some nodeTemplates.condition
  else if String.eqb nodeType "action" then Some nodeTemplates.action
  else if String.eqb nodeType "logic" then Some nodeTemplates.logic
  else None.

(** A node as [createNode] makes it: its template is what the
    catalogue of its type holds under its sub-type; a condition node's
    sub-type is an own key of its catalogue, and its [config.field] is
    that sub-type. *)
Definition wellFormedNode (n : Node) : Prop :=
  exists c,
    catalogueOf (type n) = Some c /\
    lookup c (subType n) = Some (template n) /\
    (type n = "condition" ->
     own c (subType n) = Some (template n) /\
     get (config n) "field" = Str (subType n)).

(** An id that the counter has handed out. *)
Definition allocated (st : State) (nodeId : string) : Prop :=
  exists k, (k < nextNodeId st)%N /\ nodeId = nodeIdOf k.

(** Every node on the canvas with that id has such a port. *)
Definition portsFit (st : State) (nodeId portType : string) : Prop :=
  forall n, In n (nodes st) -> id n = nodeId -> hasPort n portType = true.

(** Wires and the pending connection go by the ports: a wire leaves an
    output port and enters an input port. *)
Definition wiredByPorts (st : State) : Prop :=
  (forall nodeId portType,
     connecting st = Some (nodeId, portType) ->
     allocated st nodeId /\
     (portType = "input" \/ portType = "output") /\
     portsFit st nodeId portType) /\
  Forall (fun c => allocated st (from c) /\ allocated st (to c) /\
                   portsFit st (from c) "output" /\
                   portsFit st (to c) "input")
         (connections st).

Definition canvasInvariant (st : State) : Prop :=
  nodesInOrder st /\ Forall wellFormedNode (nodes st) /\ wiredByPorts st.

(** A node with that id is on the canvas. *)
Definition onCanvas (st : State) (nodeId : string) : Prop :=
  exists n, In n (nodes st) /\ id n = nodeId.

(** Every wire joins two nodes of the canvas. *)
Definition noDanglingWire (st : State) : Prop :=
  Forall (fun c => onCanvas st (from c) /\ onCanvas st (to c))
         (connections st).

(** What [buildRuleJSON] reads of a node. *)
Definition Look : Type := (string * string * obj)%type.

Definition look (n : Node) : Look := (type n, subType n, config n).

(** The node of that type and sub-type with its default config
    changed by [f]: none where the catalogue [c] gives no template or
    [getDefaultConfig] throws. *)
Definition lookOf (nodeType subType : string) (c : catalogue)
  (f : obj -> obj) : list Look :=
  match lookup c subType, getDefaultConfig nodeType subType with
  | Some _, Normal cfg => [(nodeType, subType, f cfg)]
  | _, _ => []
  end.

(** The node that [generateNodesFromRule] makes for one condition: none
    unless the condition is a leaf on a field of the catalogue. *)
Definition conditionLooks (c : Condition) : list Look :=
  match c with
  | Leaf (Str f) operator value =>
      if truthy (Str f) then
        lookOf "condition" f nodeTemplates.condition
          (fun cfg =>
             set (set cfg "operator" operator)
                 "value" (match value with Some v => v | None => Undefined end))
      else []
  | _ => []
  end.

(** A condition at which [generateNodesFromRule] throws: a leaf on a
    name that [nodeTemplates.condition] only inherits. *)
Definition throwing (c : Condition) : bool :=
  match c with
  | Leaf (Str f) _ _ =>
      match own nodeTemplates.condition f with
      | Some _ => false
      | None => inherited f
      end
  | _ => false
  end.

(** The conditions before the first at which it throws. *)
Fixpoint beforeThrow (conds : list Condition) : list Condition :=
  match conds with
  | [] => []
  | c :: rest => if throwing c then [] else c :: beforeThrow rest
  end.

(** The node made for one action: its parameters over the defaults. *)
Definition actionLooks (a : Action.t) : list Look :=
  lookOf "action" (Action.type a) nodeTemplates.action
    (fun cfg => assign cfg (Action.params a)).

(** The canvas that [generateNodesFromRule] draws on an empty one, up to
    ids and positions: the trigger; the conditions, up to the first at
    which it throws; and unless it has thrown, an AND gate when the rule
    has more than one condition, and the actions. *)
Definition generatedLooks (rule : Parsed.t) : list Look :=
  lookOf "trigger" (Parsed.trigger rule) nodeTemplates.trigger (fun cfg => cfg)
  ++ flat_map conditionLooks (beforeThrow (Parsed.conditions rule))
  ++ (if existsb throwing (Parsed.conditions rule) then []
      else
        (if (1 <? List.length (Parsed.conditions rule))%nat
         then [("logic", "AND", [])] else [])
        ++ flat_map actionLooks (Parsed.actions rule)).

(** How [generateNodesFromRule] ends on that rule. *)
Definition generationOutcome (rule : Parsed.t) : completion unit :=
  if existsb throwing (Parsed.conditions rule)
  then Throw "TypeError" else Normal tt.

(** A rule whose second condition is on a name that the catalogue of
    conditions only inherits. *)
Definition thrownRule : Parsed.t :=
  {| Parsed.trigger := "constructor";
     Parsed.conditions :=
       [ Leaf (Str "payment.amount") (Str "greater_than") (Some (Num 5));
         Leaf (Str "valueOf") (Str "equals") None;
         Leaf (Str "referrer.tier") (Str "equals") (Some (Str "gold")) ];
     Parsed.actions :=
       [ {| Action.type := "credit_reward"; Action.params := [] |} ] |}.

(** A parsed condition for which the palette has a node. *)
Definition hasTemplate (c : Condition) : bool :=
  match conditionLooks c with
  | [] => false
  | _ :: _ => true
  end.

(** A session that leaves a wire without its start: the connection is
    begun at node-1, node-1 is deleted, and the connection is completed
    at node-2. *)
Definition staleSession : list Event :=
  [ CanvasDrop {| nodeType := Some "trigger";
                  d_trigger := Some "payment_received"; d_field := None;
                  d_action := None; d_logic := None |} 100 100;
    CanvasDrop {| nodeType := Some "action"; d_trigger := None;
                  d_field := None; d_action := Some "credit_reward";
                  d_logic := None |} 400 100;
    PortClick "node-1" "output";
    DeleteNode "node-1";
    PortClick "node-2" "input" ].

End Canvas.

(* ================================================================== *)
(** * More invariants of the ledger schema                              *)
(* ================================================================== *)

Module Integrity.

Import Schema.

Local Open Scope list_scope.

(** What the foreign keys say of a database: every reference names a
    row that is there. *)
Definition referentially_intact (d : db) : Prop :=
  Forall (fun r =>
            In (RewardEvent.referrer_user_id r) (users d) /\
            In (RewardEvent.referred_user_id r) (users d) /\
            (forall i, RewardEvent.reward_definition_id r = Some i ->
                       In i (reward_definitions d)))
         (reward_events d) /\
  Forall (fun e =>
            In (LedgerEntry.user_id e) (users d) /\
            (forall i, LedgerEntry.reward_event_id e = Some i ->
                       In i (map RewardEvent.id (reward_events d))) /\
            (forall i, LedgerEntry.reference_entry_id e = Some i ->
                       In i (map LedgerEntry.id (ledger_entries d))))
         (ledger_entries d).

(** What the primary keys say. *)
Definition keys_unique (d : db) : Prop :=
  NoDup (users d) /\
  NoDup (reward_definitions d) /\
  NoDup (map RewardEvent.id (reward_events d)) /\
  NoDup (map LedgerEntry.id (ledger_entries d)).

(** What the VARCHAR columns say of the two tables of rewards. *)
Definition columns_fit (d : db) : Prop :=
  Forall (fun r =>
            (String.length (RewardEvent.idempotency_key r) <= 255)%nat /\
            (forall c, RewardEvent.currency r = Some c ->
                       (String.length c <= 3)%nat) /\
            (forall u, RewardEvent.created_by r = Some u ->
                       (String.length u <= 255)%nat))
         (reward_events d) /\
  Forall (fun e =>
            (String.length (LedgerEntry.idempotency_key e) <= 255)%nat /\
            (forall c, LedgerEntry.currency e = Some c ->
                       (String.length c <= 3)%nat))
         (ledger_entries d).

Definition sound (d : db) : Prop :=
  referentially_intact d /\ keys_unique d /\ columns_fit d.

(** The account of a row of the view. *)
Definition account_of_row (b : Balance.t) : account :=
  (Balance.user_id b, Balance.currency b).

(** User 7 refers user 8; the reward of 500.00 INR is credited to user 7. *)
Definition sampleEvent : RewardEvent.t :=
  {| RewardEvent.id := 1%N;
     RewardEvent.idempotency_key := "k1";
     RewardEvent.reward_definition_id :=
       Some 0x22222222222222222222222222222222%N;
     RewardEvent.referrer_user_id := 7%N;
     RewardEvent.referred_user_id := 8%N;
     RewardEvent.status := PENDING;
     RewardEvent.amount := 50000;
     RewardEvent.currency := Some "INR";
     RewardEvent.created_at := Some 1000;
     RewardEvent.confirmed_at := None;
     RewardEvent.paid_at := None;
     RewardEvent.reversed_at := None;
     RewardEvent.created_by := None;
     RewardEvent.reversal_reason := None |}.

Definition sampleEntry : LedgerEntry.t :=
  {| LedgerEntry.id := 100%N;
     LedgerEntry.user_id := 7%N;
     LedgerEntry.entry_type := CREDIT;
     LedgerEntry.amount := 50000;
     LedgerEntry.currency := Some "INR";
     LedgerEntry.balance_after := 50000;
     LedgerEntry.reward_event_id := Some 1%N;
     LedgerEntry.reference_entry_id := None;
     LedgerEntry.idempotency_key := "k1";
     LedgerEntry.description := "Subscription Bonus";
     LedgerEntry.created_at := 1000;
     LedgerEntry.metadata := None |}.

Definition sampleScript : list statement :=
  [ InsertUser 7%N; InsertUser 8%N;
    InsertRewardEvent sampleEvent; InsertLedgerEntry sampleEntry ].

End Integrity.

(* ================================================================== *)
(** * Properties of the canvas editor                                   *)
(* ================================================================== *)

Module FlowBuilderSpec.

Import JS FlowBuilder.

Local Open Scope list_scope.

(** ** Exported rules *)

(** C5.  A canvas without condition nodes exports the always-true leaf:
    field "event.occurred", operator "is_true", and no value. *)
Theorem buildRuleJSON_no_condition_nodes (now : Z) (st : State) :
  filter (isType "condition") (nodes st) = [] ->
  Rule.conditions (buildRuleJSON now st)
  = Leaf (Str "event.occurred") (Str "is_true") None.
Proof.
  intros Hnone. unfold buildRuleJSON. cbn [Rule.conditions].
  now rewrite Hnone.
Qed.

Lemma buildRuleJSON_no_condition_nodes_witness :
  filter (isType "condition") (nodes state) = [] /\
  Rule.conditions (buildRuleJSON 0 state)
  = Leaf (Str "event.occurred") (Str "is_true") None.
Proof.
  split; [reflexivity | apply (buildRuleJSON_no_condition_nodes 0 state)].
  reflexivity.
Defined.

(** C6, as the claim has it, fails on the empty canvas: there is neither
    a trigger node nor an action node, and the export is a rule, not an
    error. *)
Lemma export_of_empty_canvas_is_a_rule :
  find (isType "trigger") (nodes state) = None /\
  filter (isType "action") (nodes state) = [] /\
  showExportModal 0 state
  = Normal
      {| Rule.id := "rule-0";
         Rule.name := "Generated Rule";
         Rule.description := "Rule created with visual flow builder";
         Rule.version := 1;
         Rule.is_active := true;
         Rule.priority := 0;
         Rule.trigger := "referral_signup";
         Rule.conditions := Leaf (Str "event.occurred") (Str "is_true") None;
         Rule.actions :=
           [ {| Action.type := "credit_reward";
                Action.params :=
                  [("amount", Num 100); ("currency", Str "INR")] |} ] |} /\
  ~ (exists err, showExportModal 0 state = Throw err).
Proof.
  repeat split; try reflexivity.
  intros [err H]. discriminate H.
Qed.

(** C6, amended.  The export never fails: it always is a rule.  With no
    trigger node the rule's trigger is "referral_signup", with one it is
    the first trigger node's sub-type; with no action node the rule's
    actions are the single default credit of 100 INR, otherwise one
    action per action node. *)
Theorem export_defaults_missing_parts (now : Z) (st : State) :
  exists rule,
    showExportModal now st = Normal rule /\
    (find (isType "trigger") (nodes st) = None ->
     Rule.trigger rule = "referral_signup") /\
    (forall n, find (isType "trigger") (nodes st) = Some n ->
     Rule.trigger rule = subType n) /\
    (filter (isType "action") (nodes st) = [] ->
     Rule.actions rule
     = [ {| Action.type := "credit_reward";
            Action.params := [("amount", Num 100); ("currency", Str "INR")] |} ]) /\
    (filter (isType "action") (nodes st) <> [] ->
     Rule.actions rule
     = map (fun n => {| Action.type := subType n; Action.params := config n |})
           (filter (isType "action") (nodes st))) /\
    Rule.actions rule <> [].
Proof.
  exists (buildRuleJSON now st). split; [reflexivity |].
  unfold buildRuleJSON; cbn [Rule.trigger Rule.actions].
  repeat split.
  - intros H; now rewrite H.
  - intros n H; now rewrite H.
  - intros H; now rewrite H.
  - intros H. destruct (filter (isType "action") (nodes st)); [easy | reflexivity].
  - destruct (filter (isType "action") (nodes st)); discriminate.
Qed.

(** ** Deleting a node *)

Lemma eqb_neq_true (a b : string) : negb (String.eqb a b) = true <-> a <> b.
Proof.
  rewrite negb_true_iff. apply String.eqb_neq.
Qed.

Lemma filter_idem {A : Type} (p : A -> bool) (l : list A) :
  filter p (filter p l) = filter p l.
Proof.
  induction l as [| a l IH]; [reflexivity |].
  simpl. destruct (p a) eqn:E; simpl; rewrite ?E, IH; reflexivity.
Qed.

(** C8.  After [deleteNode id] no node has that id and no connection
    starts or ends at it; a node with another id, and a connection with
    two other ends, is there exactly if it was there before, and the
    lists of these others are the same lists as before. *)
Theorem deleteNode_removes_only_that_node (nodeId : string) (st : State) :
  let st' := deleteNode nodeId st in
  let other := fun n => negb (String.eqb (id n) nodeId) in
  let away :=
    fun c => negb (String.eqb (from c) nodeId)
             && negb (String.eqb (to c) nodeId) in
  Forall (fun n => id n <> nodeId) (nodes st') /\
  Forall (fun c => from c <> nodeId /\ to c <> nodeId) (connections st') /\
  (forall n, id n <> nodeId -> (In n (nodes st') <-> In n (nodes st))) /\
  (forall c, from c <> nodeId -> to c <> nodeId ->
             (In c (connections st') <-> In c (connections st))) /\
  filter other (nodes st') = filter other (nodes st) /\
  filter away (connections st') = filter away (connections st).
Proof.
  cbn zeta. unfold deleteNode; cbn [nodes connections].
  split; [| split; [| split; [| split; [| split]]]].
  - apply Forall_forall. intros n Hn. apply filter_In in Hn.
    now apply eqb_neq_true.
  - apply Forall_forall. intros c Hc. apply filter_In in Hc.
    destruct Hc as [_ Hc]. apply andb_true_iff in Hc.
    split; now apply eqb_neq_true.
  - intros n Hid. rewrite filter_In. split; [tauto |].
    intros Hn. split; [assumption |]. now apply eqb_neq_true.
  - intros c Hf Ht. rewrite filter_In. split; [tauto |].
    intros Hc. split; [assumption |].
    apply andb_true_iff. split; now apply eqb_neq_true.
  - apply filter_idem.
  - apply filter_idem.
Qed.

(** ** Wires *)

Lemma connections_createNode data px py st :
  connections (fst (createNode data px py st)) = connections st.
Proof.
  unfold createNode.
  destruct (nodeType data) as [nt |]; [| reflexivity].
  destruct (templateFor data) as [[tpl sub] |]; [| reflexivity].
  destruct (getDefaultConfig nt sub); reflexivity.
Qed.

Lemma connections_mutateNode nodeId f st :
  connections (mutateNode nodeId f st) = connections st.
Proof. reflexivity. Qed.

Lemma connections_created data px py st st' node :
  createNode data px py st = (st', node) -> connections st' = connections st.
Proof.
  intros H. rewrite <- (connections_createNode data px py st).
  now rewrite H.
Qed.

Lemma get_set_same o k v : get (set o k v) k = v.
Proof.
  induction o as [| [k' v'] o IH]; cbn [set get].
  - now rewrite String.eqb_refl.
  - destruct (String.eqb k' k) eqn:E; cbn [get]; rewrite E;
      [reflexivity | exact IH].
Qed.

Lemma get_set_other o k v k' : k <> k' -> get (set o k v) k' = get o k'.
Proof.
  intros Hk. induction o as [| [k0 v0] o IH]; cbn [set get].
  - apply String.eqb_neq in Hk. now rewrite Hk.
  - destruct (String.eqb k0 k) eqn:E; cbn [get].
    + apply String.eqb_eq in E. subst k0.
      apply String.eqb_neq in Hk. now rewrite Hk.
    + now rewrite IH.
Qed.

Lemma createNode_type data px py st st1 n :
  createNode data px py st = (st1, Normal (Some n)) ->
  nodeType data = Some (type n).
Proof.
  unfold createNode.
  destruct (nodeType data) as [nt |]; [| discriminate].
  destruct (templateFor data) as [[tpl sub] |]; [| discriminate].
  destruct (getDefaultConfig nt sub); [| discriminate].
  intros H. now inversion H.
Qed.

(** What holds after every [createNode], and after a write to the
    config of the node just made that leaves a condition's field alone,
    holds after the generation of nodes from a rule, however it ends. *)
Section Generated.

Variable P : State -> Prop.

Hypothesis P_createNode :
  forall data px py st, P st -> P (fst (createNode data px py st)).

Hypothesis P_configure :
  forall data px py st st1 n g,
    P st ->
    createNode data px py st = (st1, Normal (Some n)) ->
    (type n = "condition" -> forall c, get (g c) "field" = get c "field") ->
    P (mutateNode (id n) (withConfig g) st1).

Lemma generated_created data px py st st' node :
  createNode data px py st = (st', node) -> P st -> P st'.
Proof.
  intros E H. apply (P_createNode data px py) in H. now rewrite E in H.
Qed.

Lemma generated_createConditionNode i cond st :
  P st -> P (fst (createConditionNode i cond st)).
Proof.
  intros H. unfold createConditionNode.
  destruct cond as [f op v | op cs]; [| exact H].
  destruct f as [| | b | n | f | |]; try exact H.
  destruct (truthy (Str f)); [| exact H].
  destruct (lookup nodeTemplates.condition f); [| exact H].
  destruct (createNode _ _ _ st) as [st1 node] eqn:E.
  destruct node as [[n |] | err]; cbn [fst];
    [| exact (generated_created _ _ _ _ _ _ E H)
     | exact (generated_created _ _ _ _ _ _ E H)].
  apply (P_configure _ _ _ _ _ _ _ H E).
  intros _ c. rewrite !get_set_other; [reflexivity | discriminate | discriminate].
Qed.

Lemma generated_createConditionNodes conds :
  forall i st, P st -> P (fst (createConditionNodes i conds st)).
Proof.
  induction conds as [| cond rest IH]; intros i st H; [exact H |].
  cbn [createConditionNodes].
  apply (generated_createConditionNode i cond) in H.
  destruct (createConditionNode i cond st) as [st' [[] | err]];
    cbn [fst] in *; [now apply IH | exact H].
Qed.

Lemma generated_createActionNodes px acts :
  forall i st, P st -> P (fst (createActionNodes px i acts st)).
Proof.
  induction acts as [| act rest IH]; intros i st H; [exact H |].
  cbn [createActionNodes].
  destruct (createNode _ _ _ st) as [st1 node] eqn:E.
  destruct node as [[n |] | err]; cbn [fst];
    [| apply IH; exact (generated_created _ _ _ _ _ _ E H)
     | exact (generated_created _ _ _ _ _ _ E H)].
  apply IH. apply (P_configure _ _ _ _ _ _ _ H E).
  intros Hty. apply createNode_type in E. cbn [nodeType] in E.
  rewrite Hty in E. discriminate.
Qed.

Lemma generated_generateNodesFromRule rule st :
  P st -> P (fst (generateNodesFromRule rule st)).
Proof.
  intros H. unfold generateNodesFromRule.
  destruct (createNode _ _ _ st) as [st1 node] eqn:E1.
  apply (generated_created _ _ _ _ _ _ E1) in H.
  destruct node as [node | err]; [| exact H].
  apply (generated_createConditionNodes (Parsed.conditions rule) 0) in H.
  destruct (createConditionNodes 0 (Parsed.conditions rule) st1)
    as [st2 [[] | err]]; cbn [fst] in H; [| exact H].
  destruct (1 <? List.length (Parsed.conditions rule))%nat.
  - destruct (createNode _ _ _ st2) as [st3 gate] eqn:E3.
    apply (generated_created _ _ _ _ _ _ E3) in H.
    destruct gate as [gate | err]; [| exact H].
    now apply generated_createActionNodes.
  - now apply generated_createActionNodes.
Qed.

End Generated.

(** The same for what no write to a config can break. *)
Lemma generated_whatever_config (P : State -> Prop) rule st :
  (forall data px py st, P st -> P (fst (createNode data px py st))) ->
  (forall nodeId g st, P st -> P (mutateNode nodeId (withConfig g) st)) ->
  P st -> P (fst (generateNodesFromRule rule st)).
Proof.
  intros Hcreate Hconfig. apply generated_generateNodesFromRule.
  - exact Hcreate.
  - intros data px py st0 st1 n g H E _. apply Hconfig.
    apply (Hcreate data px py) in H. now rewrite E in H.
Qed.

Lemma connections_generateNodesFromRule rule st :
  connections (fst (generateNodesFromRule rule st)) = connections st.
Proof.
  apply (generated_whatever_config
           (fun st' => connections st' = connections st)); [| | reflexivity].
  - intros data px py st' H. now rewrite connections_createNode.
  - intros nodeId g st' H. exact H.
Qed.

Lemma NoDup_snoc {A : Type} (l : list A) (a : A) :
  NoDup l -> ~ In a l -> NoDup (l ++ [a]).
Proof.
  induction 1 as [| b l Hb Hl IH]; intros Ha; simpl.
  - constructor; [intros [] | constructor].
  - constructor.
    + rewrite in_app_iff. intros [H | [H | []]]; [contradiction |].
      apply Ha. now left.
    + apply IH. intros H. apply Ha. now right.
Qed.

Lemma simpleWiring_filter p conns :
  simpleWiring conns -> simpleWiring (filter p conns).
Proof.
  intros [Hnd Hloop]. split.
  - now apply NoDup_filter.
  - apply Forall_forall. intros c Hc. apply filter_In in Hc.
    rewrite Forall_forall in Hloop. now apply Hloop.
Qed.

Lemma simpleWiring_snoc conns c :
  simpleWiring conns -> from c <> to c -> ~ In c conns ->
  simpleWiring (conns ++ [c]).
Proof.
  intros [Hnd Hloop] Hc Hnew. split.
  - now apply NoDup_snoc.
  - apply Forall_app. split; [assumption |]. now constructor.
Qed.

(** What [handlePortClick] does to the wires: nothing, or one new wire
    between the node that started the connection and the clicked one. *)
Lemma handlePortClick_connections nodeId portType st :
  connections (handlePortClick nodeId portType st) = connections st \/
  exists c cNode cPort,
    connections (handlePortClick nodeId portType st) = connections st ++ [c] /\
    from c <> to c /\
    ~ In c (connections st) /\
    connecting st = Some (cNode, cPort) /\
    cNode <> nodeId /\
    cPort <> portType /\
    (c = {| from := cNode; to := nodeId |} \/
     c = {| from := nodeId; to := cNode |}).
Proof.
  unfold handlePortClick.
  destruct (connecting st) as [[cNode cPort] |] eqn:Hc; [| now left].
  destruct (negb (String.eqb cNode nodeId) && negb (String.eqb cPort portType))
    eqn:Hguard; [| now left].
  apply andb_true_iff in Hguard. destruct Hguard as [Hn Hp].
  apply eqb_neq_true in Hn. apply eqb_neq_true in Hp.
  set (fromNode := if String.eqb cPort "output" then cNode else nodeId).
  set (toNode := if String.eqb cPort "output" then nodeId else cNode).
  destruct (existsb (sameEnds fromNode toNode) (connections st)) eqn:Hex;
    cbn [negb]; [now left |].
  right. exists {| from := fromNode; to := toNode |}, cNode, cPort.
  assert (Hends : fromNode <> toNode).
  { subst fromNode toNode. destruct (String.eqb cPort "output"); congruence. }
  split.
  { destruct (portExists fromNode "output" st && portExists toNode "input" st);
      reflexivity. }
  split; [exact Hends |].
  split.
  { intros Hin.
    assert (existsb (sameEnds fromNode toNode) (connections st) = true)
      as Hyes; [| congruence].
    apply existsb_exists. eexists. split; [exact Hin |].
    unfold sameEnds. cbn [from to]. now rewrite !String.eqb_refl. }
  split; [reflexivity |].
  split; [exact Hn |].
  split; [exact Hp |].
  subst fromNode toNode. destruct (String.eqb cPort "output"); auto.
Qed.

Lemma simpleWiring_handlePortClick nodeId portType st :
  simpleWiring (connections st) ->
  simpleWiring (connections (handlePortClick nodeId portType st)).
Proof.
  intros Hinv.
  destruct (handlePortClick_connections nodeId portType st)
    as [-> | (c & cNode & cPort & -> & Hloop & Hnew & _)]; [assumption |].
  now apply simpleWiring_snoc.
Qed.

Lemma simpleWiring_nil : simpleWiring [].
Proof. split; constructor. Qed.

Lemma simpleWiring_step toLowerCase st e :
  simpleWiring (connections st) ->
  simpleWiring (connections (step toLowerCase st e)).
Proof.
  intros Hinv. destruct e; cbn [step].
  - now rewrite connections_createNode.
  - destruct (findNode nodeId st); assumption.
  - assumption.
  - destruct (findNode nodeId st); assumption.
  - assumption.
  - destruct (portExists nodeId portType st); [| assumption].
    now apply simpleWiring_handlePortClick.
  - now apply simpleWiring_filter.
  - now apply simpleWiring_filter.
  - apply simpleWiring_nil.
  - assumption.
  - unfold generateFromAI. destruct (trim inputValue); [assumption |].
    rewrite connections_generateNodesFromRule. apply simpleWiring_nil.
Qed.

(** An invariant of every event that holds at the start holds in every
    state the editor can reach. *)
Lemma reachable_ind toLowerCase (P : State -> Prop) :
  P state ->
  (forall st e, P st -> P (step toLowerCase st e)) ->
  forall st, reachable toLowerCase st -> P st.
Proof.
  intros Hinit Hstep st [events ->]. unfold run.
  generalize dependent state.
  induction events as [| e events IH]; intros st0 H0; [exact H0 |].
  cbn [fold_left]. apply IH. now apply Hstep.
Qed.

(** C9.  In every state the editor can reach no wire goes from a node to
    itself and no wire is there twice; a port click leaves the wires as
    they are or adds one wire, between two different nodes, from ports
    of different kinds, that was not there before. *)
Theorem connections_never_loop_or_repeat
  (toLowerCase : text -> text) (st : State) :
  reachable toLowerCase st ->
  NoDup (connections st) /\
  Forall (fun c => from c <> to c) (connections st) /\
  forall nodeId portType,
    connections (handlePortClick nodeId portType st) = connections st \/
    exists c cNode cPort,
      connections (handlePortClick nodeId portType st) = connections st ++ [c] /\
      from c <> to c /\
      ~ In c (connections st) /\
      connecting st = Some (cNode, cPort) /\
      cNode <> nodeId /\
      cPort <> portType /\
      (c = {| from := cNode; to := nodeId |} \/
       c = {| from := nodeId; to := cNode |}).
Proof.
  intros Hreach.
  assert (Hinv : simpleWiring (connections st)).
  { revert st Hreach.
    apply (reachable_ind toLowerCase (fun st => simpleWiring (connections st))).
    - apply simpleWiring_nil.
    - intros st e. apply simpleWiring_step. }
  destruct Hinv as [Hnd Hloop].
  split; [exact Hnd |]. split; [exact Hloop |].
  intros nodeId portType. apply handlePortClick_connections.
Qed.

(** ** Creation order *)

Lemma nodeIdOf_inj (a b : N) : nodeIdOf a = nodeIdOf b -> a = b.
Proof.
  unfold nodeIdOf. intros H.
  assert (Hs : NilEmpty.string_of_uint (N.to_uint a)
               = NilEmpty.string_of_uint (N.to_uint b)).
  { cbn in H. now inversion H. }
  assert (Hu : Some (N.to_uint a) = Some (N.to_uint b)).
  { rewrite <- (NilEmpty.usu (N.to_uint a)), <- (NilEmpty.usu (N.to_uint b)).
    now rewrite Hs. }
  inversion Hu as [Hu'].
  rewrite <- (Unsigned.of_to a), <- (Unsigned.of_to b). now rewrite Hu'.
Qed.

Lemma ordered_le hi lo l : ordered hi lo l -> (lo <= hi)%N.
Proof.
  induction 1 as [lo Hle | lo k n l Hlo Hid Hrest IH]; lia.
Qed.

Lemma ordered_lower hi lo lo' l :
  ordered hi lo l -> (lo' <= lo)%N -> ordered hi lo' l.
Proof.
  intros H Hle. destruct H as [lo H | lo k n l Hlo Hid Hrest].
  - constructor. lia.
  - apply ordered_cons with k; [lia | assumption | assumption].
Qed.

Lemma ordered_raise hi hi' lo l :
  ordered hi lo l -> (hi <= hi')%N -> ordered hi' lo l.
Proof.
  intros H Hle. induction H as [lo H | lo k n l Hlo Hid Hrest IH].
  - constructor. lia.
  - apply ordered_cons with k; assumption.
Qed.

Lemma ordered_filter p hi lo l :
  ordered hi lo l -> ordered hi lo (filter p l).
Proof.
  induction 1 as [lo H | lo k n l Hlo Hid Hrest IH]; cbn [filter].
  - now constructor.
  - destruct (p n).
    + now apply ordered_cons with k.
    + apply ordered_lower with (k + 1)%N; [assumption | lia].
Qed.

Lemma ordered_map f hi lo l :
  (forall n, id (f n) = id n) ->
  ordered hi lo l -> ordered hi lo (map f l).
Proof.
  intros Hf. induction 1 as [lo H | lo k n l Hlo Hid Hrest IH]; cbn [map].
  - now constructor.
  - apply ordered_cons with k; [assumption | | assumption].
    now rewrite Hf.
Qed.

Lemma ordered_snoc hi lo l n :
  ordered hi lo l -> id n = nodeIdOf hi -> ordered (hi + 1) lo (l ++ [n]).
Proof.
  intros H Hn. induction H as [lo H | lo k m l Hlo Hid Hrest IH]; cbn [app].
  - apply ordered_cons with hi; [assumption | assumption |].
    constructor. lia.
  - now apply ordered_cons with k.
Qed.

(** The ids of nodes in order name increasing counter values. *)
Lemma ordered_ids hi lo l :
  ordered hi lo l ->
  exists ks,
    map id l = map nodeIdOf ks /\
    StronglySorted N.lt ks /\
    Forall (fun k => (lo <= k < hi)%N) ks.
Proof.
  induction 1 as [lo H | lo k n l Hlo Hid Hrest (ks & Hids & Hsort & Hall)].
  - exists []. repeat split; constructor.
  - exists (k :: ks). cbn [map]. rewrite Hid, Hids.
    split; [reflexivity |]. split.
    + constructor; [assumption |].
      eapply Forall_impl; [| exact Hall]. cbn. intros; lia.
    + constructor.
      * apply ordered_le in Hrest. lia.
      * eapply Forall_impl; [| exact Hall]. cbn. intros; lia.
Qed.

Lemma inherited_In k : inherited k = true -> In k inheritedKeys.
Proof.
  unfold inherited. intros H. apply existsb_exists in H.
  destruct H as (k' & Hin & Heq). apply String.eqb_eq in Heq. now subst.
Qed.

Lemma lookup_logic k t :
  lookup nodeTemplates.logic k = Some t ->
  k = "AND" \/ k = "OR" \/ In k inheritedKeys.
Proof.
  unfold lookup, nodeTemplates.logic. cbn [own].
  destruct (String.eqb "AND" k) eqn:Hand.
  - apply String.eqb_eq in Hand. now left.
  - destruct (String.eqb "OR" k) eqn:Hor.
    + apply String.eqb_eq in Hor. right. now left.
    + destruct (inherited k) eqn:Hk; [| discriminate].
      intros _. right. right. now apply inherited_In.
Qed.

Lemma isGate_created data nt tpl sub :
  nodeType data = Some nt -> templateFor data = Some (tpl, sub) ->
  nt = "logic" -> sub = "AND" \/ sub = "OR" \/ In sub inheritedKeys.
Proof.
  intros Hnt Htpl ->. unfold templateFor in Htpl. rewrite Hnt in Htpl.
  change (String.eqb "logic" "trigger") with false in Htpl.
  change (String.eqb "logic" "condition") with false in Htpl.
  change (String.eqb "logic" "action") with false in Htpl.
  change (String.eqb "logic" "logic") with true in Htpl.
  cbv iota in Htpl.
  destruct (d_logic data) as [k |]; [| discriminate].
  cbn [lookup_opt] in Htpl.
  destruct (lookup nodeTemplates.logic k) as [t |] eqn:Hk; [| discriminate].
  inversion Htpl; subst. now apply (lookup_logic sub tpl).
Qed.

Lemma nodesInOrder_createNode data px py st :
  nodesInOrder st -> nodesInOrder (fst (createNode data px py st)).
Proof.
  intros [Hord Hgate]. unfold createNode.
  assert (Hskip : nodesInOrder
            {| nodes := nodes st; connections := connections st;
               selectedNode := selectedNode st; connecting := connecting st;
               nextNodeId := (nextNodeId st + 1)%N;
               dragOffset := dragOffset st |}).
  { split; cbn [nodes nextNodeId]; [| assumption].
    apply ordered_raise with (nextNodeId st); [assumption | lia]. }
  destruct (nodeType data) as [nt |] eqn:Hnt; [| exact Hskip].
  destruct (templateFor data) as [[tpl sub] |] eqn:Htpl; [| exact Hskip].
  destruct (getDefaultConfig nt sub) as [cfg | err]; [| exact Hskip].
  split; cbn [fst nodes nextNodeId].
  - now apply ordered_snoc.
  - apply Forall_app. split; [assumption |].
    constructor; [| constructor].
    unfold isGate; cbn [type subType].
    now apply (isGate_created data nt tpl sub).
Qed.

Lemma nodesInOrder_mutateNode nodeId f st :
  (forall n, id (f n) = id n) ->
  (forall n, type (f n) = type n) ->
  (forall n, subType (f n) = subType n) ->
  nodesInOrder st -> nodesInOrder (mutateNode nodeId f st).
Proof.
  intros Hid Hty Hsub [Hord Hgate]. split; cbn [mutateNode nodes nextNodeId].
  - apply ordered_map; [| assumption].
    intros n. now destruct (String.eqb (id n) nodeId).
  - apply Forall_map. eapply Forall_impl; [| exact Hgate].
    intros n Hn. unfold isGate in *.
    destruct (String.eqb (id n) nodeId); [| assumption].
    now rewrite Hty, Hsub.
Qed.

Lemma nodesInOrder_withConfig nodeId g st :
  nodesInOrder st -> nodesInOrder (mutateNode nodeId (withConfig g) st).
Proof. now apply nodesInOrder_mutateNode. Qed.

Lemma nodesInOrder_withPosition nodeId px py st :
  nodesInOrder st -> nodesInOrder (mutateNode nodeId (withPosition px py) st).
Proof. now apply nodesInOrder_mutateNode. Qed.

Lemma nodesInOrder_created data px py st st' node :
  createNode data px py st = (st', node) ->
  nodesInOrder st -> nodesInOrder st'.
Proof.
  intros E H. apply (nodesInOrder_createNode data px py) in H.
  now rewrite E in H.
Qed.

Lemma nodesInOrder_clearCanvas st :
  nodesInOrder st -> nodesInOrder (clearCanvas st).
Proof.
  intros _. split; cbn [clearCanvas nodes nextNodeId]; constructor. lia.
Qed.

Lemma nodesInOrder_configure data px py st st1 n g :
  nodesInOrder st ->
  createNode data px py st = (st1, Normal (Some n)) ->
  (type n = "condition" -> forall c, get (g c) "field" = get c "field") ->
  nodesInOrder (mutateNode (id n) (withConfig g) st1).
Proof.
  intros H E _. apply nodesInOrder_withConfig.
  exact (nodesInOrder_created _ _ _ _ _ _ E H).
Qed.

Lemma nodesInOrder_createConditionNode i cond st :
  nodesInOrder st -> nodesInOrder (fst (createConditionNode i cond st)).
Proof.
  apply (generated_createConditionNode nodesInOrder).
  - apply nodesInOrder_createNode.
  - apply nodesInOrder_configure.
Qed.

Lemma nodesInOrder_createConditionNodes conds i st :
  nodesInOrder st -> nodesInOrder (fst (createConditionNodes i conds st)).
Proof.
  apply (generated_createConditionNodes nodesInOrder).
  - apply nodesInOrder_createNode.
  - apply nodesInOrder_configure.
Qed.

Lemma nodesInOrder_generateNodesFromRule rule st :
  nodesInOrder st -> nodesInOrder (fst (generateNodesFromRule rule st)).
Proof.
  apply (generated_whatever_config nodesInOrder).
  - apply nodesInOrder_createNode.
  - intros nodeId g st'. apply nodesInOrder_withConfig.
Qed.

Lemma nodesInOrder_filter p st st' :
  nodes st' = filter p (nodes st) -> nextNodeId st' = nextNodeId st ->
  nodesInOrder st -> nodesInOrder st'.
Proof.
  intros Hn Hnext [Hord Hgate]. split; rewrite Hn; [rewrite Hnext |].
  - now apply ordered_filter.
  - apply Forall_forall. intros n Hin. apply filter_In in Hin.
    rewrite Forall_forall in Hgate. now apply Hgate.
Qed.

Lemma nodesInOrder_same st st' :
  nodes st' = nodes st -> nextNodeId st' = nextNodeId st ->
  nodesInOrder st -> nodesInOrder st'.
Proof.
  intros Hn Hnext [Hord Hgate]. split; rewrite Hn; [rewrite Hnext |]; assumption.
Qed.

Lemma nodesInOrder_step toLowerCase st e :
  nodesInOrder st -> nodesInOrder (step toLowerCase st e).
Proof.
  intros H. destruct e; cbn [step].
  - now apply nodesInOrder_createNode.
  - destruct (findNode nodeId st); [| exact H].
    now apply (nodesInOrder_same st).
  - now apply nodesInOrder_withPosition.
  - destruct (findNode nodeId st); [| exact H].
    now apply (nodesInOrder_same st).
  - now apply (nodesInOrder_same st).
  - destruct (portExists nodeId portType st); [| exact H].
    apply (nodesInOrder_same st); [| | exact H]; unfold handlePortClick;
      destruct (connecting st) as [[cNode cPort] |]; try reflexivity;
      repeat match goal with
             | |- context [if ?b then _ else _] => destruct b
             end; reflexivity.
  - now apply (nodesInOrder_same st).
  - now apply (nodesInOrder_filter
                 (fun n => negb (String.eqb (id n) nodeId)) st).
  - now apply nodesInOrder_clearCanvas.
  - exact H.
  - unfold generateFromAI. destruct (trim inputValue); [exact H |].
    now apply nodesInOrder_generateNodesFromRule, nodesInOrder_clearCanvas.
Qed.

Lemma nodesInOrder_reachable toLowerCase st :
  reachable toLowerCase st -> nodesInOrder st.
Proof.
  apply (reachable_ind toLowerCase nodesInOrder).
  - split; cbn; constructor. lia.
  - intros st' e. apply nodesInOrder_step.
Qed.

(** When the canvas holds two or more condition nodes, the exported
    conditions are a group: its operator is the sub-type of the first
    logic node, or "AND" when there is none; its members are one leaf
    (field, operator, value) for each condition node, in the order of
    the nodes, which is the order in which the nodes were created (their
    ids count upwards).  The operator is a name that
    [nodeTemplates.logic] answers to: "AND", "OR", or an inherited
    one. *)
Lemma exported_group (toLowerCase : text -> text) (now : Z) (st : State) :
  reachable toLowerCase st ->
  (2 <= List.length (filter (isType "condition") (nodes st)))%nat ->
  let conditionNodes := filter (isType "condition") (nodes st) in
  let logicNodes := filter (isType "logic") (nodes st) in
  exists operator,
    Rule.conditions (buildRuleJSON now st)
    = Group operator
        (map (fun n => Leaf (get (config n) "field")
                            (get (config n) "operator")
                            (Some (get (config n) "value")))
             conditionNodes) /\
    operator = match logicNodes with
               | l :: _ => subType l
               | [] => "AND"
               end /\
    (operator = "AND" \/ operator = "OR" \/ In operator inheritedKeys) /\
    exists ks,
      map id conditionNodes = map nodeIdOf ks /\
      StronglySorted N.lt ks.
Proof.
  intros Hreach Hmany conditionNodes logicNodes.
  apply nodesInOrder_reachable in Hreach. destruct Hreach as [Hord Hgate].
  exists (match logicNodes with l :: _ => subType l | [] => "AND" end).
  split; [| split; [reflexivity | split]].
  - unfold buildRuleJSON. cbn [Rule.conditions].
    subst conditionNodes logicNodes.
    destruct (filter (isType "condition") (nodes st)) as [| a [| b rest]];
      cbn [List.length] in Hmany; try lia.
    reflexivity.
  - destruct logicNodes as [| l rest] eqn:Hl; [now left |].
    assert (Hin : In l (filter (isType "logic") (nodes st))).
    { fold logicNodes. rewrite Hl. now left. }
    apply filter_In in Hin. destruct Hin as [Hin Hty].
    rewrite Forall_forall in Hgate. apply (Hgate l Hin).
    now apply String.eqb_eq in Hty.
  - destruct (ordered_ids _ _ _ (ordered_filter (isType "condition") _ _ _ Hord))
      as (ks & Hids & Hsort & _).
    now exists ks.
Qed.

(** C7 fails on the code.  The palette drops two condition nodes and
    then a logic node under the name "constructor".  [createNode] finds
    a template for that name, because [nodeTemplates.logic] inherits a
    property of that name, and makes the logic node; the canvas then
    holds two condition nodes, and the exported conditions are a group
    whose operator is "constructor": neither "AND" nor "OR".  The
    members of the group are the two leaves, in creation order. *)
Theorem buildRuleJSON_exports_inherited_operator :
  let st := run toLowerCaseAscii inheritedNameSession in
  map (fun n => (id n, type n, subType n)) (nodes st)
  = [ ("node-1", "condition", "payment.amount");
      ("node-2", "condition", "referrer.tier");
      ("node-3", "logic", "constructor") ] /\
  Rule.conditions (buildRuleJSON 0 st)
  = Group "constructor"
      [ Leaf (Str "payment.amount") (Str "equals") (Some (Num 0));
        Leaf (Str "referrer.tier") (Str "equals") (Some (Str "standard")) ] /\
  ~ (exists operator leaves,
       Rule.conditions (buildRuleJSON 0 st) = Group operator leaves /\
       (operator = "AND" \/ operator = "OR")).
Proof.
  intros st.
  assert (Hrule : Rule.conditions (buildRuleJSON 0 st)
                  = Group "constructor"
                      [ Leaf (Str "payment.amount") (Str "equals") (Some (Num 0));
                        Leaf (Str "referrer.tier") (Str "equals")
                             (Some (Str "standard")) ])
    by reflexivity.
  split; [reflexivity |]. split; [exact Hrule |].
  intros (operator & leaves & Hgroup & Hop).
  rewrite Hrule in Hgroup. inversion Hgroup as [[Hname Hleaves]].
  destruct Hop as [Hop | Hop]; rewrite Hop in Hname; discriminate Hname.
Qed.

(** ** Witnesses on a session *)

Lemma connections_never_loop_or_repeat_witness :
  let st := run toLowerCaseAscii sampleSession in
  reachable toLowerCaseAscii st /\
  connections st = [ {| from := "node-1"; to := "node-2" |} ] /\
  NoDup (connections st) /\
  Forall (fun c => from c <> to c) (connections st).
Proof.
  intros st.
  assert (Hreach : reachable toLowerCaseAscii st)
    by (exists sampleSession; reflexivity).
  split; [exact Hreach |]. split; [reflexivity |].
  destruct (connections_never_loop_or_repeat toLowerCaseAscii st Hreach)
    as (Hnd & Hloop & _).
  split; [exact Hnd | exact Hloop].
Defined.

(** ** The sentence parser *)

Import Regex.

Lemma m_Seq {A} r1 r2 s cap (k : text -> option text -> option A) :
  m (Seq r1 r2) s cap k = m r1 s cap (fun s' cap' => m r2 s' cap' k).
Proof. reflexivity. Qed.

Lemma m_Class {A} p s cap (k : text -> option text -> option A) :
  m (Class p) s cap k
  = match s with
    | a :: s' => if p a then k s' cap else None
    | [] => None
    end.
Proof. reflexivity. Qed.

Lemma m_Capture {A} r s cap (k : text -> option text -> option A) :
  m (Capture r) s cap k
  = m r s cap
      (fun s' _ => k s' (Some (firstn (List.length s - List.length s') s))).
Proof. reflexivity. Qed.

(** A match ends in its continuation, on a rest of the input that is no
    longer than the input; a pattern without group leaves the capture
    alone. *)
Lemma m_continues (r : regex) :
  forall A s cap (k : text -> option text -> option A) x,
    m r s cap k = Some x ->
    exists s' cap',
      k s' cap' = Some x /\
      (List.length s' <= List.length s)%nat /\
      (captureFree r = true -> cap' = cap).
Proof.
  induction r as [c | p | r1 IH1 r2 IH2 | r1 IH1 r2 IH2 | r1 IH1 | r1 IH1 | r1 IH1];
    intros A s cap k x H.
  - cbn [m] in H. destruct s as [| a s']; [discriminate |].
    destruct (canonicalize a =? canonicalize c)%N; [| discriminate].
    exists s', cap. cbn [List.length]. repeat split; [assumption | lia].
  - rewrite m_Class in H. destruct s as [| a s']; [discriminate |].
    destruct (p a); [| discriminate].
    exists s', cap. cbn [List.length]. repeat split; [assumption | lia].
  - rewrite m_Seq in H.
    apply IH1 in H. destruct H as (s1 & c1 & H & Hlen1 & Hcap1).
    apply IH2 in H. destruct H as (s2 & c2 & H & Hlen2 & Hcap2).
    exists s2, c2. split; [assumption |]. split; [lia |].
    cbn [captureFree]. intros Hfree. apply andb_true_iff in Hfree.
    destruct Hfree as [H1 H2]. now rewrite Hcap2, Hcap1.
  - cbn [m] in H. cbn [captureFree].
    destruct (m r1 s cap k) as [x1 |] eqn:E1.
    + rewrite <- H in *. apply IH1 in E1.
      destruct E1 as (s1 & c1 & E1 & Hlen & Hcap).
      exists s1, c1. repeat split; try assumption.
      intros Hfree. apply andb_true_iff in Hfree. now apply Hcap.
    + apply IH2 in H. destruct H as (s2 & c2 & H & Hlen & Hcap).
      exists s2, c2. repeat split; try assumption.
      intros Hfree. apply andb_true_iff in Hfree. now apply Hcap.
  - cbn [m] in H. cbn [captureFree].
    destruct (m r1 s cap k) as [x1 |] eqn:E1.
    + rewrite <- H in *. now apply IH1 in E1.
    + exists s, cap. repeat split; [assumption | lia].
  - cbn [m] in H. cbn [captureFree].
    revert H. generalize (List.length s) at 1. intros fuel. revert s cap.
    induction fuel as [| fuel IHf]; intros s cap H.
    + exists s, cap. repeat split; [assumption | lia].
    + match type of H with
      | match ?call with _ => _ end = _ => destruct call as [x1 |] eqn:E1
      end.
      * rewrite <- H in *. apply IH1 in E1.
        destruct E1 as (s1 & c1 & E1 & Hlen & Hcap).
        destruct (List.length s1 <? List.length s)%nat; [| discriminate].
        apply IHf in E1. destruct E1 as (s2 & c2 & E2 & Hlen2 & Hcap2).
        exists s2, c2. split; [assumption |]. split; [lia |].
        intros Hfree. now rewrite Hcap2, Hcap.
      * exists s, cap. repeat split; [assumption | lia].
  - rewrite m_Capture in H. apply IH1 in H.
    destruct H as (s1 & c1 & H & Hlen & _).
    exists s1, (Some (firstn (List.length s - List.length s1) s)).
    split; [assumption |]. split; [assumption |].
    cbn [captureFree]. discriminate.
Qed.

(** What [p*] takes is a run of [p]. *)
Lemma m_Star_Class {A} p s cap (k : text -> option text -> option A) x :
  m (Star (Class p)) s cap k = Some x ->
  exists n, k (skipn n s) cap = Some x /\ forallb p (firstn n s) = true.
Proof.
  cbn [m]. generalize (List.length s) at 1. intros fuel. revert s.
  induction fuel as [| fuel IH]; intros s H.
  - now exists 0%nat.
  - destruct s as [| a s1]; [now exists 0%nat |].
    destruct (p a) eqn:Ha; [| now exists 0%nat].
    assert (Hlt : (List.length s1 <? List.length (a :: s1))%nat = true)
      by (apply Nat.ltb_lt; cbn [List.length]; lia).
    rewrite Hlt in H.
    match type of H with
    | match ?call with _ => _ end = _ => destruct call as [x1 |] eqn:E1
    end.
    + rewrite <- H in *. apply IH in E1. destruct E1 as (n & Hk & Hrun).
      exists (S n). cbn [skipn firstn forallb]. now rewrite Ha.
    + now exists 0%nat.
Qed.

(** What [(\d+)] hands on is a run of digits, at least one. *)
Lemma m_capture_digits {A} s cap (k : text -> option text -> option A) x :
  m (Capture (Plus (Class isDigit))) s cap k = Some x ->
  exists s' g, k s' g = Some x /\ digitRun g.
Proof.
  intros H. rewrite m_Capture in H. unfold Plus in H.
  rewrite m_Seq, m_Class in H.
  destruct s as [| a s1]; [discriminate |].
  destruct (isDigit a) eqn:Ha; [| discriminate].
  apply m_Star_Class in H. destruct H as (n & H & Hrun).
  eexists _, _. split; [exact H |].
  exists a, (firstn n s1). split.
  - f_equal. rewrite length_skipn. cbn [List.length].
    destruct (Nat.le_gt_cases n (List.length s1)) as [Hle | Hgt].
    + replace (S (List.length s1) - (List.length s1 - n))%nat with (S n) by lia.
      reflexivity.
    + replace (S (List.length s1) - (List.length s1 - n))%nat
        with (S (List.length s1)) by lia.
      cbn [firstn]. f_equal.
      rewrite !firstn_all2 by lia. reflexivity.
  - cbn [forallb]. now rewrite Ha.
Qed.

Lemma captureFree_currencyWord : captureFree currencyWord = true.
Proof. reflexivity. Qed.

Lemma matchHere_amountAfter s g :
  matchHere amountAfter s = Some g -> digitRun g.
Proof.
  unfold matchHere, amountAfter. intros H.
  rewrite m_Seq in H. apply m_continues in H.
  destruct H as (s1 & c1 & H & _).
  rewrite m_Seq in H. apply m_continues in H.
  destruct H as (s2 & c2 & H & _).
  apply m_capture_digits in H. destruct H as (s' & g' & H & Hrun).
  now inversion H; subst.
Qed.

Lemma matchHere_amountBefore s g :
  matchHere amountBefore s = Some g -> digitRun g.
Proof.
  unfold matchHere, amountBefore. intros H.
  rewrite m_Seq in H. apply m_capture_digits in H.
  destruct H as (s' & g' & H & Hrun).
  apply m_continues in H. destruct H as (s2 & c2 & H & _ & Hcap).
  rewrite Hcap in H by reflexivity. now inversion H; subst.
Qed.

Lemma exec_digits r :
  (forall s g, matchHere r s = Some g -> digitRun g) ->
  forall s g, exec r s = Some g -> digitRun g.
Proof.
  intros Hr s. induction s as [| c s IH]; intros g H; cbn [exec] in H.
  - destruct (matchHere r []) as [g' |] eqn:E; [| discriminate].
    inversion H; subst. now apply Hr in E.
  - destruct (matchHere r (c :: s)) as [g' |] eqn:E.
    + inversion H; subst. now apply Hr in E.
    + now apply IH.
Qed.

Lemma digitsValue_nonneg s : forall acc, 0 <= acc -> 0 <= digitsValue acc s.
Proof.
  induction s as [| c s IH]; intros acc Hacc; cbn [digitsValue]; [assumption |].
  destruct (isDigit c) eqn:Hc; [| assumption].
  apply IH. unfold isDigit in Hc. apply andb_true_iff in Hc.
  destruct Hc as [Hlo _]. apply N.leb_le in Hlo. lia.
Qed.

Lemma digit_is_no_space a : isDigit a = true -> isSpace a = false.
Proof.
  unfold isDigit, isSpace. intros Ha. apply andb_true_iff in Ha.
  destruct Ha as [H1 H2]. apply N.leb_le in H1. apply N.leb_le in H2.
  assert (E1 : (a <=? 13)%N = false) by (apply N.leb_gt; lia).
  assert (E2 : (8192 <=? a)%N = false) by (apply N.leb_gt; lia).
  assert (E3 : forall c, (58 <= c)%N \/ (c < 48)%N -> (a =? c)%N = false)
    by (intros c Hc; apply N.eqb_neq; lia).
  rewrite E1, E2, !E3 by lia.
  now rewrite andb_false_r.
Qed.

(** On a text that starts with a digit [parseInt] is the Number nearest
    to the value of the digits. *)
Lemma parseInt_digits a ds :
  isDigit a = true ->
  parseInt (a :: ds) = nearestNumber (digitsValue 0 (a :: ds)).
Proof.
  intros Ha.
  assert (Hrange : (48 <= a <= 57)%N).
  { unfold isDigit in Ha. apply andb_true_iff in Ha.
    destruct Ha as [H1 H2]. apply N.leb_le in H1. apply N.leb_le in H2. lia. }
  unfold parseInt. cbn [trimStart]. rewrite (digit_is_no_space a Ha).
  destruct (N.eqb_spec a 45); [lia |].
  destruct (N.eqb_spec a 43); [lia |].
  now rewrite Ha.
Qed.

Lemma nearestNumber_nonNegative m : 0 <= m -> nonNegative (nearestNumber m).
Proof.
  intros Hm. unfold nearestNumber.
  destruct (m <? 2 ^ 53); [right; now exists m |].
  set (e := Z.log2 m - 52).
  set (q := m / 2 ^ e).
  set (q' := if _ : bool then q + 1 else q).
  destruct (2 ^ 1024 <=? q' * 2 ^ e); [now left |].
  right. exists (q' * 2 ^ e). split; [reflexivity |].
  assert (Hq : 0 <= q)
    by (apply Z_div_nonneg_nonneg; [exact Hm | apply Z.pow_nonneg; lia]).
  apply Z.mul_nonneg_nonneg; [| apply Z.pow_nonneg; lia].
  subst q'. destruct (_ : bool); lia.
Qed.

Lemma nearestNumber_exact m : m < 2 ^ 53 -> nearestNumber m = Num m.
Proof.
  intros Hm. unfold nearestNumber.
  apply Z.ltb_lt in Hm. now rewrite Hm.
Qed.

(** C10, as the claim has it, fails on the sentence "rs 0": the amount
    pattern matches, and the amount read from it is 0, which is not
    positive. *)
Lemma parseNaturalLanguage_reads_zero_amount :
  Parsed.actions (parseNaturalLanguage toLowerCaseAscii (units "rs 0"))
  = [ {| Action.type := "credit_reward";
         Action.params :=
           [("amount", Num 0); ("currency", Str "INR");
            ("reward_type", Str "voucher")] |} ] /\
  ~ (exists act n,
       Parsed.actions (parseNaturalLanguage toLowerCaseAscii (units "rs 0"))
       = [act] /\
       get (Action.params act) "amount" = Num n /\ 0 < n).
Proof.
  split; [reflexivity |].
  intros (act & n & Hacts & Hamount & Hpos).
  vm_compute in Hacts. inversion Hacts; subst act.
  vm_compute in Hamount. inversion Hamount; subst n. lia.
Qed.

Lemma amountOf_digitRun g :
  digitRun g ->
  exists digits,
    g = Some digits /\ amountOf digits (parseInt digits) /\
    nonNegative (parseInt digits).
Proof.
  intros (a & ds & -> & Hrun).
  assert (Ha : isDigit a = true).
  { cbn [forallb] in Hrun. now apply andb_true_iff in Hrun. }
  exists (a :: ds). split; [reflexivity |].
  unfold amountOf. rewrite (parseInt_digits a ds Ha).
  split.
  - split; [discriminate |]. split; [exact Hrun |].
    split; [reflexivity |]. split; [reflexivity |].
    apply nearestNumber_exact.
  - apply nearestNumber_nonNegative. now apply digitsValue_nonneg.
Qed.

(** C10, amended.  For every sentence, and whatever [toLowerCase] makes
    of it, the parsed rule has one of the three triggers; its conditions
    are not empty, and are the one leaf "referred.signup_completed is
    true" when no keyword is found; its actions are exactly one
    "credit_reward" with currency "INR", a reward type, and an amount
    that is a Number not below 0: 100 when neither amount pattern
    matches, otherwise [parseInt] of the matched digits.  That is the
    Number nearest to the digits' decimal value: the value itself when
    it is below 2^53 (0 for "rs 0"), a rounded value above, and Infinity
    for the longest runs. *)
Theorem parseNaturalLanguage_shape (toLowerCase : text -> text) (txt : text) :
  let rule := parseNaturalLanguage toLowerCase txt in
  let lower := toLowerCase txt in
  (Parsed.trigger rule = "referral_signup" \/
   Parsed.trigger rule = "subscription_started" \/
   Parsed.trigger rule = "payment_received") /\
  Parsed.conditions rule <> [] /\
  ((includes lower (units "paid user") || includes lower (units "paid member")
    || includes lower (units "premium") || includes lower (units "vip")) = false ->
   Parsed.conditions rule
   = [Leaf (Str "referred.signup_completed") (Str "is_true") None]) /\
  exists amount rewardType,
    Parsed.actions rule
    = [ {| Action.type := "credit_reward";
           Action.params :=
             [("amount", amount); ("currency", Str "INR");
              ("reward_type", Str rewardType)] |} ] /\
    (amount = Infinity \/ exists n, amount = Num n /\ 0 <= n) /\
    match exec amountAfter txt, exec amountBefore txt with
    | Some g, _ | None, Some g =>
        exists digits, g = Some digits /\ amountOf digits amount
    | None, None => amount = Num 100
    end.
Proof.
  cbn zeta. unfold parseNaturalLanguage.
  cbn [Parsed.trigger Parsed.conditions Parsed.actions].
  split; [| split; [| split]].
  - destruct (includes (toLowerCase txt) (units "subscri")); [auto |].
    destruct (includes (toLowerCase txt) (units "payment")
              || includes (toLowerCase txt) (units "pay")); auto.
  - destruct (includes (toLowerCase txt) (units "paid user")
              || includes (toLowerCase txt) (units "paid member"));
      destruct (includes (toLowerCase txt) (units "premium"));
      destruct (includes (toLowerCase txt) (units "vip"));
      discriminate.
  - intros Hnone.
    apply orb_false_iff in Hnone. destruct Hnone as [Hnone Hvip].
    apply orb_false_iff in Hnone. destruct Hnone as [Hpaid Hpremium].
    now rewrite Hpaid, Hpremium, Hvip.
  - set (rewardType :=
           if includes (toLowerCase txt) (units "cash") then "cash"
           else if includes (toLowerCase txt) (units "point") then "points"
                else "voucher").
    destruct (exec amountAfter txt) as [g |] eqn:Eafter.
    + apply (exec_digits amountAfter matchHere_amountAfter) in Eafter.
      destruct (amountOf_digitRun g Eafter) as (digits & -> & Hamount & Hpos).
      exists (parseInt digits), rewardType.
      split; [reflexivity |]. split; [exact Hpos |].
      exists digits. split; [reflexivity | exact Hamount].
    + destruct (exec amountBefore txt) as [g |] eqn:Ebefore.
      * apply (exec_digits amountBefore matchHere_amountBefore) in Ebefore.
        destruct (amountOf_digitRun g Ebefore) as (digits & -> & Hamount & Hpos).
        exists (parseInt digits), rewardType.
        split; [reflexivity |]. split; [exact Hpos |].
        exists digits. split; [reflexivity | exact Hamount].
      * exists (Num 100), rewardType.
        split; [reflexivity |]. split; [| reflexivity].
        right. exists 100. split; [reflexivity | lia].
Qed.

(** The amount of a sentence with more digits than a Number holds: the
    last digit is lost. *)
Example parse_amount_beyond_2_53 :
  Parsed.actions (parseNaturalLanguage toLowerCaseAscii
                    (units "rs 9007199254740993"))
  = [ {| Action.type := "credit_reward";
         Action.params :=
           [("amount", Num 9007199254740992); ("currency", Str "INR");
            ("reward_type", Str "voucher")] |} ].
Proof. reflexivity. Qed.

(** Four hundred digits are read as Infinity. *)
Example parse_amount_infinite :
  Parsed.actions (parseNaturalLanguage toLowerCaseAscii
                    (units "rs " ++ repeat 57%N 400))
  = [ {| Action.type := "credit_reward";
         Action.params :=
           [("amount", Infinity); ("currency", Str "INR");
            ("reward_type", Str "voucher")] |} ].
Proof. vm_compute. reflexivity. Qed.

(** ** The parser and the editor on concrete input *)

Example parse_subscription_sentence :
  parseNaturalLanguage toLowerCaseAscii
    (units "When a paid user refers someone who subscribes to premium, reward 500 rupees voucher")
  = {| Parsed.trigger := "subscription_started";
       Parsed.conditions :=
         [ Leaf (Str "referrer.is_paid_user") (Str "equals") (Some (Bool true));
           Leaf (Str "referred.subscription_plan") (Str "equals")
                (Some (Str "premium")) ];
       Parsed.actions :=
         [ {| Action.type := "credit_reward";
              Action.params :=
                [("amount", Num 500); ("currency", Str "INR");
                 ("reward_type", Str "voucher")] |} ] |}.
Proof. reflexivity. Qed.

Example parse_rupee_sign :
  Parsed.actions (parseNaturalLanguage toLowerCaseAscii
                    (units "give " ++ [8377%N] ++ units "250 in points"))
  = [ {| Action.type := "credit_reward";
         Action.params :=
           [("amount", Num 250); ("currency", Str "INR");
            ("reward_type", Str "points")] |} ].
Proof. reflexivity. Qed.

Example sample_session_nodes :
  map (fun n => (id n, type n, subType n))
      (nodes (run toLowerCaseAscii sampleSession))
  = [ ("node-1", "trigger", "subscription_started");
      ("node-2", "condition", "referrer.is_paid_user");
      ("node-3", "condition", "referred.subscription_plan");
      ("node-4", "logic", "AND");
      ("node-5", "action", "credit_reward") ].
Proof. reflexivity. Qed.

Example sample_session_rule :
  Rule.conditions (buildRuleJSON 0 (run toLowerCaseAscii sampleSession))
  = Group "AND"
      [ Leaf (Str "referrer.is_paid_user") (Str "equals") (Some (Bool true));
        Leaf (Str "referred.subscription_plan") (Str "equals")
             (Some (Str "premium")) ].
Proof. reflexivity. Qed.

End FlowBuilderSpec.

(* ================================================================== *)
(** * Properties of the ledger schema                                   *)
(* ================================================================== *)

Module LedgerSpec.

Import Schema.

Local Open Scope list_scope.

(** ** Checks *)

Lemma first_error_None checks :
  first_error checks = None -> forall c e, In (c, e) checks -> c = true.
Proof.
  induction checks as [| [b err] rest IH]; intros H c e Hin; [destruct Hin |].
  cbn [first_error] in H. destruct b; [| discriminate].
  destruct Hin as [Heq | Hin]; [now inversion Heq | now apply (IH H c e)].
Qed.

Lemma first_error_false checks c e :
  In (c, e) checks -> c = false -> exists err, first_error checks = Some err.
Proof.
  intros Hin ->. destruct (first_error checks) as [err |] eqn:E; [now exists err |].
  now apply (first_error_None checks E false e) in Hin.
Qed.

Lemma checked_inl d checks d' :
  checked d checks = inl d' -> d' = d /\ first_error checks = None.
Proof.
  unfold checked. destruct (first_error checks); [discriminate |].
  intros H. now inversion H.
Qed.


(** ** The ledger only grows *)

(** The error that ends an UPDATE at the row [old]: what the new values
    fail on when they do not fit the column types, else the trigger's
    exception. *)
Lemma update_ledger_entries_spec w f :
  forall todo done written,
    update_ledger_entries w f done written todo
    = match find w todo with
      | Some old =>
          inr (match first_error (ledger_entry_types (f old)) with
               | Some err => err
               | None => raise_exception "Ledger entries are immutable"
               end)
      | None => inl (done ++ todo, written)
      end.
Proof.
  induction todo as [| r rest IH]; intros done written;
    cbn [update_ledger_entries find].
  - now rewrite app_nil_r.
  - destruct (w r).
    + now destruct (first_error (ledger_entry_types (f r))).
    + rewrite IH. destruct (find w rest); [reflexivity |].
      now rewrite <- app_assoc.
Qed.

Lemma delete_ledger_entries_spec w :
  forall todo done deleted,
    delete_ledger_entries w done deleted todo
    = match find w todo with
      | Some old => inr (raise_exception "Ledger entries are immutable")
      | None => inl (done ++ todo, deleted)
      end.
Proof.
  induction todo as [| r rest IH]; intros done deleted;
    cbn [delete_ledger_entries find].
  - now rewrite app_nil_r.
  - destruct (w r); [reflexivity |].
    rewrite IH. destruct (find w rest); [reflexivity |].
    now rewrite <- app_assoc.
Qed.

Lemma execute_UpdateLedgerEntries w f d :
  execute (UpdateLedgerEntries w f) d
  = match find w (ledger_entries d) with
    | Some old =>
        inr (match first_error (ledger_entry_types (f old)) with
             | Some err => err
             | None => raise_exception "Ledger entries are immutable"
             end)
    | None => inl d
    end.
Proof.
  cbn [execute]. rewrite update_ledger_entries_spec.
  now destruct (find w (ledger_entries d)).
Qed.

Lemma execute_DeleteLedgerEntries w d :
  execute (DeleteLedgerEntries w) d
  = match find w (ledger_entries d) with
    | Some old => inr (raise_exception "Ledger entries are immutable")
    | None => inl d
    end.
Proof.
  cbn [execute]. rewrite delete_ledger_entries_spec.
  now destruct (find w (ledger_entries d)).
Qed.

(** An UPDATE or a DELETE on the ledger that succeeds has changed
    nothing. *)
Lemma UpdateLedgerEntries_unchanged w f d d' :
  execute (UpdateLedgerEntries w f) d = inl d' -> d' = d.
Proof.
  rewrite execute_UpdateLedgerEntries.
  destruct (find w (ledger_entries d)); [discriminate |].
  intros H. now inversion H.
Qed.

Lemma DeleteLedgerEntries_unchanged w d d' :
  execute (DeleteLedgerEntries w) d = inl d' -> d' = d.
Proof.
  rewrite execute_DeleteLedgerEntries.
  destruct (find w (ledger_entries d)); [discriminate |].
  intros H. now inversion H.
Qed.





(** ** Unique keys and valid participants *)

Lemma entry_type_eqb_eq a b : entry_type_eqb a b = true <-> a = b.
Proof. destruct a, b; cbn; split; congruence. Qed.

Lemma not_In_map_key {A K : Type} (f : A -> K) (same : A -> bool) (k : K)
  (l : list A) :
  (forall o, f o = k -> same o = true) ->
  existsb same l = false -> ~ In k (map f l).
Proof.
  intros Hsame Hex Hin. apply in_map_iff in Hin.
  destruct Hin as (o & Hk & Hin).
  assert (existsb same l = true) as Hyes; [| congruence].
  apply existsb_exists. exists o. split; [exact Hin | now apply Hsame].
Qed.

Lemma NoDup_insert {A : Type} (l l' : list A) (a : A) :
  NoDup (l ++ l') -> ~ In a (l ++ l') -> NoDup (l ++ a :: l').
Proof.
  intros Hnd Hin. apply (NoDup_Add (Add_app a l l')). now split.
Qed.

Lemma NoDup_map_filter {A K : Type} (f : A -> K) (p : A -> bool) (l : list A) :
  NoDup (map f l) -> NoDup (map f (filter p l)).
Proof.
  induction l as [| a l IH]; cbn [map filter]; intros H; [constructor |].
  inversion H as [| k ks Hk Hks]; subst.
  destruct (p a); cbn [map]; [| now apply IH].
  constructor; [| now apply IH].
  intros Hin. apply Hk. apply in_map_iff in Hin.
  destruct Hin as (o & Ho & Hin). apply filter_In in Hin.
  apply in_map_iff. exists o. tauto.
Qed.

(** Rows with pairwise different keys: at most one of them has a given
    key. *)
Lemma NoDup_map_at_most_one {A K : Type} (f : A -> K) (p : A -> bool) (k : K)
  (l : list A) :
  (forall o, p o = true -> f o = k) ->
  NoDup (map f l) -> (List.length (filter p l) <= 1)%nat.
Proof.
  intros Hp. induction l as [| a l IH]; cbn [map filter]; intros H;
    [cbn; lia |].
  inversion H as [| k' ks Hk Hks]; subst.
  destruct (p a) eqn:Ea; [| now apply IH].
  cbn [List.length].
  destruct (filter p l) as [| b rest] eqn:Efilter; [cbn; lia |].
  exfalso. apply Hk.
  assert (Hb : In b (filter p l)) by (rewrite Efilter; now left).
  apply filter_In in Hb. destruct Hb as [Hb Hpb].
  apply in_map_iff. exists b. split; [| exact Hb].
  now rewrite (Hp a Ea), (Hp b Hpb).
Qed.

Lemma reward_event_checks_pass others r :
  first_error (reward_event_checks others r) = None ->
  valid_participants r /\
  ~ In (RewardEvent.idempotency_key r)
       (map RewardEvent.idempotency_key others).
Proof.
  intros H. pose proof (first_error_None _ H) as Hall. split.
  - unfold valid_participants.
    intros Heq.
    assert (negb (RewardEvent.referrer_user_id r
                  =? RewardEvent.referred_user_id r)%N = true) as Hneg.
    { apply (Hall _ (check_violation "valid_participants")). cbn. tauto. }
    rewrite Heq, N.eqb_refl in Hneg. discriminate.
  - eapply (not_In_map_key RewardEvent.idempotency_key
              (fun o => String.eqb (RewardEvent.idempotency_key o)
                                   (RewardEvent.idempotency_key r))).
    + intros o ->. apply String.eqb_refl.
    + apply negb_true_iff.
      apply (Hall _ (unique_violation "reward_events_idempotency_key_key")).
      cbn. tauto.
Qed.

Lemma ledger_entry_checks_pass others e :
  first_error (ledger_entry_checks others e) = None ->
  ~ In (ledger_key e) (map ledger_key others).
Proof.
  intros H. pose proof (first_error_None _ H) as Hall.
  eapply (not_In_map_key ledger_key
            (fun o => String.eqb (LedgerEntry.idempotency_key o)
                                 (LedgerEntry.idempotency_key e)
                      && entry_type_eqb (LedgerEntry.entry_type o)
                                        (LedgerEntry.entry_type e))).
  - intros o Ho. unfold ledger_key in Ho. inversion Ho as [[Hk Ht]].
    rewrite String.eqb_refl. cbn [andb]. now apply entry_type_eqb_eq.
  - apply negb_true_iff.
    apply (Hall _ (unique_violation "idx_ledger_idempotency")).
    cbn. tauto.
Qed.

Lemma first_error_app_None a b :
  first_error (a ++ b) = None -> first_error a = None.
Proof.
  induction a as [| [c e] a IH]; cbn [app first_error]; [reflexivity |].
  destruct c; [exact IH | discriminate].
Qed.

Lemma update_reward_events_keeps w f :
  forall todo done rows,
    update_reward_events w f done todo = inl rows ->
    NoDup (map RewardEvent.idempotency_key (done ++ todo)) ->
    Forall valid_participants (done ++ todo) ->
    NoDup (map RewardEvent.idempotency_key rows) /\
    Forall valid_participants rows.
Proof.
  induction todo as [| r rest IH]; intros done rows H Hnd Hvalid;
    cbn [update_reward_events] in H.
  - inversion H; subst. rewrite app_nil_r in *. now split.
  - destruct (w r).
    + destruct (first_error (reward_event_checks (done ++ rest) (f r)))
        eqn:Echecks; [discriminate |].
      apply reward_event_checks_pass in Echecks.
      destruct Echecks as [Hr' Hfresh].
      apply (IH _ _ H); rewrite <- app_assoc; cbn [app].
      * rewrite map_app in *. cbn [map] in *.
        apply NoDup_insert; [now apply NoDup_remove_1 in Hnd | assumption].
      * apply Forall_app in Hvalid. destruct Hvalid as [Hd Hrest].
        inversion Hrest; subst.
        apply Forall_app. split; [assumption | now constructor].
    + apply (IH _ _ H); now rewrite <- app_assoc.
Qed.

Lemma constrained_apply d s : constrained d -> constrained (apply d s).
Proof.
  intros Hinv. unfold apply.
  destruct (execute s d) as [d' | err] eqn:E; [| exact Hinv].
  destruct Hinv as (Hledger & Hkeys & Hvalid).
  destruct s; cbn [execute] in E.
  - apply checked_inl in E. destruct E as [-> _]. now repeat split.
  - apply checked_inl in E. destruct E as [-> _]. now repeat split.
  - apply checked_inl in E. destruct E as [-> _]. now repeat split.
  - apply checked_inl in E. destruct E as [-> _]. now repeat split.
  - apply checked_inl in E. destruct E as [-> Hchecks].
    apply first_error_app_None, reward_event_checks_pass in Hchecks.
    destruct Hchecks as [Hr Hfresh].
    split; [| split]; cbn [ledger_entries reward_events].
    + assumption.
    + rewrite map_app. cbn [map].
      apply NoDup_insert; now rewrite app_nil_r.
    + apply Forall_app. split; [assumption | now constructor].
  - destruct (update_reward_events where_ set_ [] (reward_events d))
      as [rows | err] eqn:Eupd; [| discriminate].
    apply checked_inl in E. destruct E as [-> _].
    apply update_reward_events_keeps in Eupd; [| assumption | assumption].
    destruct Eupd as [Hk Hv]. now repeat split.
  - apply checked_inl in E. destruct E as [-> _].
    split; [| split]; cbn [ledger_entries reward_events].
    + assumption.
    + now apply NoDup_map_filter.
    + apply Forall_forall. intros r Hr. apply filter_In in Hr.
      rewrite Forall_forall in Hvalid. now apply Hvalid.
  - apply checked_inl in E. destruct E as [-> Hchecks].
    apply first_error_app_None, ledger_entry_checks_pass in Hchecks.
    split; [| split]; cbn [ledger_entries reward_events];
      [| assumption | assumption].
    rewrite map_app. cbn [map].
    apply NoDup_insert; now rewrite app_nil_r.
  - change (execute (UpdateLedgerEntries where_ set_) d = inl d') in E.
    apply UpdateLedgerEntries_unchanged in E. subst d'. now repeat split.
  - change (execute (DeleteLedgerEntries where_) d = inl d') in E.
    apply DeleteLedgerEntries_unchanged in E. subst d'. now repeat split.
Qed.

Lemma constrained_run script : forall d, constrained d -> constrained (run script d).
Proof.
  induction script as [| s script IH]; intros d H; [exact H |].
  cbn [run fold_left]. apply IH. now apply constrained_apply.
Qed.

Lemma constrained_seeded : constrained seeded.
Proof. repeat split; constructor. Qed.

(** C3.  Whatever statements have run on the seeded database, no two
    ledger entries share idempotency key and entry type, and no two
    reward events share their idempotency key; so for any key (and entry
    type) at most one row is there, however often an insert with that
    key is tried. *)
Theorem idempotency_keys_are_unique
  (script : list statement) (key : string) (type : entry_type) :
  let d := run script seeded in
  NoDup (map ledger_key (ledger_entries d)) /\
  NoDup (map RewardEvent.idempotency_key (reward_events d)) /\
  (List.length (filter (has_ledger_key key type) (ledger_entries d)) <= 1)%nat /\
  (List.length (filter (has_event_key key) (reward_events d)) <= 1)%nat.
Proof.
  intros d.
  destruct (constrained_run script seeded constrained_seeded)
    as (Hledger & Hkeys & _).
  fold d in Hledger, Hkeys.
  split; [exact Hledger |]. split; [exact Hkeys |]. split.
  - apply (NoDup_map_at_most_one ledger_key _ (key, type)); [| exact Hledger].
    intros o Ho. unfold has_ledger_key in Ho. apply andb_true_iff in Ho.
    destruct Ho as [Hk Ht]. apply String.eqb_eq in Hk.
    apply entry_type_eqb_eq in Ht. unfold ledger_key. now rewrite Hk, Ht.
  - apply (NoDup_map_at_most_one RewardEvent.idempotency_key _ key);
      [| exact Hkeys].
    intros o Ho. now apply String.eqb_eq in Ho.
Qed.

(** C4.  Whatever statements have run on the seeded database, every
    reward event has a referrer other than the referred user; and on any
    database an insert of a reward event whose referrer is the referred
    user fails and leaves the database as it was. *)
Theorem reward_events_have_valid_participants
  (script : list statement) (d : db) (r : RewardEvent.t) :
  Forall valid_participants (reward_events (run script seeded)) /\
  (RewardEvent.referrer_user_id r = RewardEvent.referred_user_id r ->
   (exists err, execute (InsertRewardEvent r) d = inr err) /\
   apply d (InsertRewardEvent r) = d).
Proof.
  split.
  - now destruct (constrained_run script seeded constrained_seeded)
      as (_ & _ & Hvalid).
  - intros Hself.
    assert (Hfail : exists err, execute (InsertRewardEvent r) d = inr err).
    { cbn [execute]. unfold checked.
      destruct (first_error_false
                  (reward_event_checks (reward_events d) r ++ reward_event_fk d r)
                  (negb (RewardEvent.referrer_user_id r
                         =? RewardEvent.referred_user_id r)%N)
                  (check_violation "valid_participants")) as [err Herr].
      - apply in_or_app. left. cbn. tauto.
      - now rewrite Hself, N.eqb_refl.
      - rewrite Herr. now exists err. }
    split; [exact Hfail |].
    destruct Hfail as [err Herr]. unfold apply. now rewrite Herr.
Qed.

Lemma reward_events_have_valid_participants_witness :
  RewardEvent.referrer_user_id selfReferral
  = RewardEvent.referred_user_id selfReferral /\
  apply seeded (InsertRewardEvent selfReferral) = seeded.
Proof.
  split; [reflexivity |].
  apply (reward_events_have_valid_participants [] seeded selfReferral).
  reflexivity.
Defined.

(** ** Balances *)

Import LedgerStore.

Lemma currency_eqb_eq a b : currency_eqb a b = true <-> a = b.
Proof.
  destruct a as [a |], b as [b |]; cbn; try (split; congruence).
  rewrite String.eqb_eq. split; congruence.
Qed.

Lemma account_eqb_eq a b : account_eqb a b = true <-> a = b.
Proof.
  destruct a as [u c], b as [u' c']. unfold account_eqb. cbn [fst snd].
  rewrite andb_true_iff, N.eqb_eq, currency_eqb_eq. split.
  - now intros [-> ->].
  - intros H. now inversion H.
Qed.

Lemma account_eqb_refl a : account_eqb a a = true.
Proof. now apply account_eqb_eq. Qed.

Lemma find_filter_other (a b : account) (l : list account) :
  account_eqb b a = false ->
  find (fun g => account_eqb g a)
       (filter (fun g => negb (account_eqb g b)) l)
  = find (fun g => account_eqb g a) l.
Proof.
  intros Hba. induction l as [| g l IH]; [reflexivity |].
  cbn [filter find].
  destruct (account_eqb g b) eqn:Egb; cbn [negb find].
  - apply account_eqb_eq in Egb. subst g. now rewrite Hba.
  - now rewrite IH.
Qed.

(** The view has a group for an account exactly when the account has an
    entry. *)
Lemma find_groups a entries :
  find (fun g => account_eqb g a) (groups entries)
  = if existsb (in_account a) entries then Some a else None.
Proof.
  induction entries as [| e rest IH]; [reflexivity |].
  cbn [groups find existsb]. unfold in_account at 1.
  destruct (account_eqb (account_of e) a) eqn:Ea; cbn [orb].
  - apply account_eqb_eq in Ea. now rewrite Ea.
  - now rewrite find_filter_other.
Qed.

Lemma find_map_row {B : Type} (row : account -> B) (key : B -> account) a gs :
  (forall g, key (row g) = g) ->
  find (fun b => account_eqb (key b) a) (map row gs)
  = option_map row (find (fun g => account_eqb g a) gs).
Proof.
  intros Hkey. induction gs as [| g gs IH]; [reflexivity |].
  cbn [map find]. rewrite Hkey.
  destruct (account_eqb g a); [reflexivity | exact IH].
Qed.

Lemma existsb_filter_nil {A : Type} (p : A -> bool) (l : list A) :
  existsb p l = false <-> filter p l = [].
Proof.
  induction l as [| x l IH]; cbn [existsb filter]; [tauto |].
  destruct (p x); cbn [orb]; [split; discriminate | exact IH].
Qed.

(** What the view reports for an account: nothing when the account has
    no entry, else the sum of its amounts. *)
Lemma current_balance_is_sum d a :
  current_balance d a
  = match filter (in_account a) (ledger_entries d) with
    | [] => None
    | rows => Some (sum (map LedgerEntry.amount rows))
    end.
Proof.
  unfold current_balance, user_balances.
  rewrite (find_map_row _ (fun b => (Balance.user_id b, Balance.currency b)));
    [| now intros [u c]].
  rewrite find_groups.
  destruct (existsb (in_account a) (ledger_entries d)) eqn:Ex.
  - cbn [option_map Balance.current_balance].
    destruct (filter (in_account a) (ledger_entries d)) eqn:Ef; [| reflexivity].
    apply existsb_filter_nil in Ef. congruence.
  - apply existsb_filter_nil in Ex. now rewrite Ex.
Qed.

Lemma latest_snoc a l e :
  latest a (l ++ [e]) = if in_account a e then Some e else latest a l.
Proof.
  unfold latest. now rewrite fold_left_app.
Qed.

Lemma latest_None a l : latest a l = None <-> filter (in_account a) l = [].
Proof.
  induction l as [| e l IH] using rev_ind; [cbn; tauto |].
  rewrite latest_snoc, filter_app. cbn [filter].
  destruct (in_account a e).
  - split; [discriminate |]. intros H. now apply app_eq_nil in H.
  - now rewrite app_nil_r.
Qed.

Lemma sum_app l l' : sum (l ++ l') = sum l + sum l'.
Proof.
  unfold sum. induction l as [| v l IH]; cbn [app fold_right]; [lia |].
  rewrite IH. lia.
Qed.

Lemma balanced_append new_id now dr d :
  balanced d -> balanced (fst (append new_id now dr d)).
Proof.
  intros Hinv. unfold append.
  destruct (existing d dr); [exact Hinv |].
  match goal with
  | |- context [execute (InsertLedgerEntry ?entry) d] => set (e := entry)
  end.
  destruct (execute (InsertLedgerEntry e) d) as [d' | err] eqn:E;
    [| exact Hinv].
  cbn [execute] in E. apply checked_inl in E. destruct E as [-> _].
  cbn [fst]. intros a e' Hlatest. cbn [ledger_entries] in *.
  rewrite latest_snoc in Hlatest. rewrite filter_app, map_app, sum_app.
  cbn [filter]. destruct (in_account a e) eqn:Ea.
  - inversion Hlatest; subst e'.
    unfold in_account in Ea. apply account_eqb_eq in Ea. subst a.
    cbn [map]. unfold e at 1. cbn [LedgerEntry.balance_after].
    unfold getBalance.
    change (account_of e) with (user_id dr, Some (currency dr)).
    change (LedgerEntry.amount e) with (amount dr).
    unfold sum. cbn [fold_right]. lia.
  - cbn [map sum fold_right]. rewrite (Hinv a e' Hlatest). lia.
Qed.

Lemma balanced_appends calls : forall d, balanced d -> balanced (appends calls d).
Proof.
  induction calls as [| c calls IH]; intros d H; [exact H |].
  cbn [appends fold_left]. apply IH. now apply balanced_append.
Qed.

(** C1.  After any sequence of appends to a ledger that started empty,
    and for every account (user and currency): the balance that the
    view user_balances reports is the sum of the amounts of the
    account's entries, and it is the [balance_after] of the account's
    latest entry; the store's [getBalance] is the same sum.  (An account
    without entries has no row in the view and no latest entry.) *)
Theorem balance_is_sum_and_latest_balance_after
  (us defs : list uuid) (evs : list RewardEvent.t) (calls : list call)
  (user : uuid) (cur : string) :
  let d := appends calls (empty_ledger us defs evs) in
  let a := (user, Some cur) in
  let rows := filter (in_account a) (ledger_entries d) in
  current_balance d a
  = match rows with
    | [] => None
    | _ => Some (sum (map LedgerEntry.amount rows))
    end /\
  current_balance d a
  = option_map LedgerEntry.balance_after (latest a (ledger_entries d)) /\
  getBalance d user cur = sum (map LedgerEntry.amount rows).
Proof.
  intros d a rows.
  assert (Hinv : balanced d).
  { apply balanced_appends. intros a' e H. discriminate H. }
  split; [| split; [| reflexivity]].
  - rewrite current_balance_is_sum. fold rows. now destruct rows.
  - rewrite current_balance_is_sum.
    destruct (latest a (ledger_entries d)) as [e |] eqn:El.
    + cbn [option_map]. rewrite (Hinv a e El).
      destruct (filter (in_account a) (ledger_entries d)) eqn:Er;
        [| reflexivity].
      apply latest_None in Er. congruence.
    + apply latest_None in El. now rewrite El.
Qed.

(** The scenario runs as the spec tells it: the repeated call writes
    nothing, the two entries carry the balances 500.00 and 0.00, and the
    view reports 0.00. *)
Example balance_of_sample_calls :
  let d := appends sampleCalls (empty_ledger [7%N] [] []) in
  map (fun e => (LedgerEntry.id e, LedgerEntry.amount e,
                 LedgerEntry.balance_after e)) (ledger_entries d)
  = [ (100%N, 50000, 50000); (102%N, -50000, 0) ] /\
  current_balance d (7%N, Some "INR") = Some 0 /\
  getBalance d 7%N "INR" = 0.
Proof. repeat split. Qed.

(** An UPDATE on the one entry of a ledger is refused by the trigger,
    and so is a DELETE. *)
Example update_of_sample_entry_is_refused :
  let d := appends (firstn 1 sampleCalls) (empty_ledger [7%N] [] []) in
  execute (UpdateLedgerEntries (fun _ => true) (fun e => e)) d
  = inr (raise_exception "Ledger entries are immutable") /\
  execute (DeleteLedgerEntries (fun _ => true)) d
  = inr (raise_exception "Ledger entries are immutable").
Proof. split; reflexivity. Qed.

(** An UPDATE that sets an amount of sixteen digits before the point is
    refused before the trigger runs. *)
Example update_to_wide_amount_is_refused :
  let d := appends (firstn 1 sampleCalls) (empty_ledger [7%N] [] []) in
  execute (UpdateLedgerEntries (fun _ => true) (set_amount (10 ^ 18))) d
  = inr numeric_value_out_of_range /\
  apply d (UpdateLedgerEntries (fun _ => true) (set_amount (10 ^ 18))) = d.
Proof. split; reflexivity. Qed.

End LedgerSpec.

(* ================================================================== *)
(** * More properties of the canvas editor                              *)
(* ================================================================== *)

Module CanvasSpec.

Import JS FlowBuilder Canvas FlowBuilderSpec.

Local Open Scope list_scope.

(** ** Ids *)

Lemma ordered_known hi lo l :
  ordered hi lo l ->
  Forall (fun n => exists k, (lo <= k < hi)%N /\ id n = nodeIdOf k) l.
Proof.
  induction 1 as [lo H | lo k n l Hlo Hid Hrest IH]; constructor.
  - exists k. split; [| exact Hid]. apply ordered_le in Hrest. lia.
  - eapply Forall_impl; [| exact IH].
    intros m (j & Hj & Hm). exists j. split; [lia | exact Hm].
Qed.

Lemma ordered_fresh hi lo l k :
  ordered hi lo l -> (hi <= k)%N -> Forall (fun n => id n <> nodeIdOf k) l.
Proof.
  intros H Hk. eapply Forall_impl; [| exact (ordered_known _ _ _ H)].
  intros n (j & Hj & Hn) Heq. rewrite Hn in Heq.
  apply nodeIdOf_inj in Heq. lia.
Qed.

Lemma ordered_NoDup hi lo l : ordered hi lo l -> NoDup (map id l).
Proof.
  induction 1 as [lo H | lo k n l Hlo Hid Hrest IH]; cbn [map]; constructor;
    [| exact IH].
  intros Hin. apply in_map_iff in Hin. destruct Hin as (m & Hm & Hin).
  pose proof (ordered_known _ _ _ Hrest) as Hall.
  rewrite Forall_forall in Hall. destruct (Hall m Hin) as (j & Hj & Hmj).
  rewrite Hid, Hmj in Hm. apply nodeIdOf_inj in Hm. lia.
Qed.

Lemma mutate_fresh nodeId f l :
  Forall (fun n => id n <> nodeId) l ->
  map (fun n => if String.eqb (id n) nodeId then f n else n) l = l.
Proof.
  induction 1 as [| n l Hn Hl IH]; cbn [map]; [reflexivity |].
  rewrite IH. apply String.eqb_neq in Hn. now rewrite Hn.
Qed.

(** ** What the catalogues answer to *)

Lemma own_keys (c : catalogue) sub tpl :
  own c sub = Some tpl -> In sub (map fst c).
Proof.
  induction c as [| [k t] c IH]; cbn [own map fst]; [discriminate |].
  destruct (String.eqb_spec k sub) as [-> | Hk]; [now left |].
  intros H. right. now apply IH.
Qed.


(** [getDefaultConfig] for a condition: a config whose field is the
    sub-type when that is an own key of the catalogue, a TypeError
    otherwise. *)
Lemma getDefaultConfig_condition sub :
  match own nodeTemplates.condition sub with
  | Some _ =>
      exists cfg,
        getDefaultConfig "condition" sub = Normal cfg /\
        get cfg "field" = Str sub
  | None => getDefaultConfig "condition" sub = Throw "TypeError"
  end.
Proof.
  destruct (own nodeTemplates.condition sub) as [t |] eqn:E.
  - apply own_keys in E. cbn [map fst nodeTemplates.condition] in E.
    destruct E as [<- | [<- | [<- | [<- | []]]]];
      eexists; split; reflexivity.
  - unfold getDefaultConfig, lookup. rewrite E.
    change (String.eqb "condition" "condition") with true. cbv iota.
    now destruct (inherited sub).
Qed.

Lemma getDefaultConfig_other nodeType sub :
  nodeType <> "condition" ->
  exists cfg, getDefaultConfig nodeType sub = Normal cfg.
Proof.
  intros Hnt. unfold getDefaultConfig.
  apply String.eqb_neq in Hnt. rewrite Hnt.
  eexists. reflexivity.
Qed.

(** ** What [createNode] makes *)

Lemma templateFor_catalogue data nt tpl sub :
  nodeType data = Some nt -> templateFor data = Some (tpl, sub) ->
  exists c, catalogueOf nt = Some c /\ lookup c sub = Some tpl.
Proof.
  intros Hnt H. unfold templateFor in H. rewrite Hnt in H.
  unfold catalogueOf.
  assert (Hpick : forall c k,
             match k, lookup_opt c k with
             | Some k', Some t => Some (t, k')
             | _, _ => None
             end = Some (tpl, sub) -> lookup c sub = Some tpl).
  { intros c [k |]; cbn [lookup_opt]; [| discriminate].
    destruct (lookup c k) eqn:E; [| discriminate].
    intros Heq. inversion Heq; subst. exact E. }
  destruct (String.eqb nt "trigger");
    [eexists; split; [reflexivity | now apply Hpick in H] |].
  destruct (String.eqb nt "condition");
    [eexists; split; [reflexivity | now apply Hpick in H] |].
  destruct (String.eqb nt "action");
    [eexists; split; [reflexivity | now apply Hpick in H] |].
  destruct (String.eqb nt "logic");
    [eexists; split; [reflexivity | now apply Hpick in H] |].
  discriminate.
Qed.

(** A node with a default config is well formed. *)
Lemma wellFormedNode_made nodeId nt sub px py tpl cfg c :
  catalogueOf nt = Some c -> lookup c sub = Some tpl ->
  getDefaultConfig nt sub = Normal cfg ->
  wellFormedNode {| id := nodeId; type := nt; subType := sub; x := px; y := py;
                    template := tpl; config := cfg |}.
Proof.
  intros Hc Hsub Hcfg. exists c. cbn [type subType template config].
  split; [exact Hc |]. split; [exact Hsub |].
  intros ->. cbn in Hc. inversion Hc; subst c.
  pose proof (getDefaultConfig_condition sub) as Hd.
  unfold lookup in Hsub.
  destruct (own nodeTemplates.condition sub) as [t |].
  - destruct Hd as (cfg' & Hcfg' & Hfield).
    rewrite Hcfg in Hcfg'. inversion Hcfg'; subst cfg'.
    split; [exact Hsub | exact Hfield].
  - rewrite Hcfg in Hd. discriminate.
Qed.

(** [createNode] in full: the counter moves on by one; the wires, the
    pending connection and the selection stay; a node, if one is made,
    goes last, with the id of the old counter value. *)
Lemma createNode_inv data px py st st1 made :
  createNode data px py st = (st1, made) ->
  connections st1 = connections st /\
  connecting st1 = connecting st /\
  selectedNode st1 = selectedNode st /\
  nextNodeId st1 = (nextNodeId st + 1)%N /\
  match made with
  | Normal (Some n) =>
      nodes st1 = nodes st ++ [n] /\
      id n = nodeIdOf (nextNodeId st) /\
      nodeType data = Some (type n) /\
      getDefaultConfig (type n) (subType n) = Normal (config n) /\
      wellFormedNode n
  | _ => nodes st1 = nodes st
  end.
Proof.
  unfold createNode. intros H.
  destruct (nodeType data) as [nt |] eqn:Hnt;
    [| inversion H; subst; now repeat split].
  destruct (templateFor data) as [[tpl sub] |] eqn:Htpl;
    [| inversion H; subst; now repeat split].
  destruct (getDefaultConfig nt sub) as [cfg | err] eqn:Hcfg;
    [| inversion H; subst; now repeat split].
  inversion H; subst; cbn [connections connecting selectedNode nextNodeId nodes].
  repeat split; [exact Hcfg |].
  destruct (templateFor_catalogue data nt tpl sub Hnt Htpl) as (c & Hc & Hsub).
  now apply (wellFormedNode_made _ nt sub _ _ tpl cfg c).
Qed.

(** The node [createNode] returns, or what it throws. *)
Lemma createNode_outcome data px py st :
  snd (createNode data px py st)
  = match nodeType data, templateFor data with
    | Some nt, Some (tpl, sub) =>
        match getDefaultConfig nt sub with
        | Normal cfg =>
            Normal (Some {| id := nodeIdOf (nextNodeId st);
                            type := nt; subType := sub;
                            x := px - 90; y := py - 30;
                            template := tpl; config := cfg |})
        | Throw error => Throw error
        end
    | _, _ => Normal None
    end.
Proof.
  unfold createNode.
  destruct (nodeType data) as [nt |]; [| reflexivity].
  destruct (templateFor data) as [[tpl sub] |]; [| reflexivity].
  now destruct (getDefaultConfig nt sub).
Qed.

Lemma createNode_nodes data px py st :
  exists added,
    nodes (fst (createNode data px py st)) = nodes st ++ added /\
    Forall (fun n => id n = nodeIdOf (nextNodeId st) /\ wellFormedNode n) added.
Proof.
  destruct (createNode data px py st) as [st1 made] eqn:E.
  apply createNode_inv in E. destruct E as (_ & _ & _ & _ & E).
  destruct made as [[n |] | err]; cbn [fst].
  - destruct E as (Hn & Hid & _ & _ & Hwf). exists [n].
    split; [exact Hn |]. now repeat constructor.
  - exists []. rewrite app_nil_r. split; [exact E | constructor].
  - exists []. rewrite app_nil_r. split; [exact E | constructor].
Qed.

(** ** Well-formed nodes *)

Lemma wellFormedNode_withConfig g n :
  (type n = "condition" ->
   get (g (config n)) "field" = get (config n) "field") ->
  wellFormedNode n -> wellFormedNode (withConfig g n).
Proof.
  intros Hg (c & Hc & Hsub & Hfield). exists c.
  cbn [type subType template config withConfig].
  split; [exact Hc |]. split; [exact Hsub |].
  intros Hty. destruct (Hfield Hty) as [Hown Hf].
  split; [exact Hown |]. now rewrite (Hg Hty).
Qed.

Lemma wellFormedNode_withPosition px py n :
  wellFormedNode n -> wellFormedNode (withPosition px py n).
Proof. intros (c & H). now exists c. Qed.

(** A write through the node that [createNode] has just made reaches
    that node only. *)
Lemma mutate_created data px py st st1 n f :
  createNode data px py st = (st1, Normal (Some n)) ->
  nodesInOrder st ->
  nodes (mutateNode (id n) f st1) = nodes st ++ [f n].
Proof.
  intros E [Hord _]. apply createNode_inv in E.
  destruct E as (_ & _ & _ & _ & Hn & Hid & _).
  cbn [mutateNode nodes]. rewrite Hn, map_app. cbn [map].
  rewrite String.eqb_refl, mutate_fresh; [reflexivity |].
  rewrite Hid. apply (ordered_fresh _ _ _ _ Hord). lia.
Qed.

Lemma wellFormed_createNode data px py st :
  Forall wellFormedNode (nodes st) ->
  Forall wellFormedNode (nodes (fst (createNode data px py st))).
Proof.
  intros H. destruct (createNode_nodes data px py st) as (added & -> & Hadded).
  apply Forall_app. split; [exact H |].
  eapply Forall_impl; [| exact Hadded]. now intros n [_ Hn].
Qed.

Lemma wellFormed_mutate_position nodeId px py st :
  Forall wellFormedNode (nodes st) ->
  Forall wellFormedNode (nodes (mutateNode nodeId (withPosition px py) st)).
Proof.
  intros H. cbn [mutateNode nodes]. apply Forall_map.
  eapply Forall_impl; [| exact H]. intros n Hn.
  destruct (String.eqb (id n) nodeId);
    [now apply wellFormedNode_withPosition | exact Hn].
Qed.

Lemma wellFormed_generateNodesFromRule rule st :
  nodesInOrder st /\ Forall wellFormedNode (nodes st) ->
  nodesInOrder (fst (generateNodesFromRule rule st)) /\
  Forall wellFormedNode (nodes (fst (generateNodesFromRule rule st))).
Proof.
  apply (generated_generateNodesFromRule
           (fun st => nodesInOrder st /\ Forall wellFormedNode (nodes st))).
  - intros data px py st0 [Hord H]. split;
      [now apply nodesInOrder_createNode | now apply wellFormed_createNode].
  - intros data px py st0 st1 n g [Hord H] E Hg. split.
    + apply nodesInOrder_withConfig.
      exact (nodesInOrder_created _ _ _ _ _ _ E Hord).
    + rewrite (mutate_created _ _ _ _ _ _ _ E Hord).
      apply Forall_app. split; [exact H |].
      apply createNode_inv in E.
      destruct E as (_ & _ & _ & _ & _ & _ & _ & _ & Hwf).
      constructor; [| constructor].
      apply wellFormedNode_withConfig; [| exact Hwf].
      intros Hty. now apply Hg.
Qed.

Lemma handlePortClick_nodes nodeId portType st :
  nodes (handlePortClick nodeId portType st) = nodes st /\
  nextNodeId (handlePortClick nodeId portType st) = nextNodeId st.
Proof.
  unfold handlePortClick.
  destruct (connecting st) as [[cNode cPort] |]; [| now split].
  repeat match goal with
         | |- context [if ?b then _ else _] => destruct b
         end; now split.
Qed.

Lemma wellFormed_step toLowerCase st e :
  nodesInOrder st /\ Forall wellFormedNode (nodes st) ->
  Forall wellFormedNode (nodes (step toLowerCase st e)).
Proof.
  intros [Hord H]. destruct e; cbn [step].
  - now apply wellFormed_createNode.
  - now destruct (findNode nodeId st).
  - now apply wellFormed_mutate_position.
  - now destruct (findNode nodeId st).
  - exact H.
  - destruct (portExists nodeId portType st); [| exact H].
    now rewrite (proj1 (handlePortClick_nodes nodeId portType st)).
  - exact H.
  - cbn [deleteNode nodes]. apply Forall_forall. intros n Hn.
    apply filter_In in Hn. rewrite Forall_forall in H. now apply H.
  - constructor.
  - exact H.
  - unfold generateFromAI. destruct (trim inputValue); [exact H |].
    apply wellFormed_generateNodesFromRule.
    split; [now apply nodesInOrder_clearCanvas | constructor].
Qed.






(** Inherited names do get exported: a trigger dropped as "constructor"
    and an action dropped as "toString" are in the rule under these
    names, while a condition dropped as "valueOf" leaves no node. *)
Example inherited_names_are_exported :
  let st := run toLowerCaseAscii
              [ CanvasDrop (dropOf "trigger" "constructor") 100 100;
                CanvasDrop (dropOf "condition" "valueOf") 300 100;
                CanvasDrop (dropOf "action" "toString") 500 100 ] in
  map (fun n => (id n, type n, subType n)) (nodes st)
  = [ ("node-1", "trigger", "constructor"); ("node-3", "action", "toString") ] /\
  Rule.trigger (buildRuleJSON 0 st) = "constructor" /\
  Rule.actions (buildRuleJSON 0 st)
  = [ {| Action.type := "toString"; Action.params := [] |} ].
Proof. repeat split. Qed.

(** ** What generation draws *)

Lemma templateFor_lookup nt c k d1 d2 d3 d4 :
  catalogueOf nt = Some c ->
  (if String.eqb nt "trigger" then d1
   else if String.eqb nt "condition" then d2
   else if String.eqb nt "action" then d3 else d4) = Some k ->
  templateFor {| nodeType := Some nt; d_trigger := d1; d_field := d2;
                 d_action := d3; d_logic := d4 |}
  = match lookup c k with
    | Some t => Some (t, k)
    | None => None
    end.
Proof.
  unfold catalogueOf, templateFor. cbn [nodeType d_trigger d_field d_action d_logic].
  destruct (String.eqb nt "trigger");
    [intros Hc ->; inversion Hc; subst; reflexivity |].
  destruct (String.eqb nt "condition");
    [intros Hc ->; inversion Hc; subst; reflexivity |].
  destruct (String.eqb nt "action");
    [intros Hc ->; inversion Hc; subst; reflexivity |].
  destruct (String.eqb nt "logic"); [| discriminate].
  intros Hc ->. inversion Hc; subst. reflexivity.
Qed.

(** One call of [createNode] for a sub-type [k] of type [nt], followed
    by a write [g] to the new node's config: a node is added exactly
    when the catalogue answers to [k] and [getDefaultConfig] returns;
    the call throws exactly when the catalogue answers and
    [getDefaultConfig] throws. *)
Lemma create_and_configure_looks nt c k d1 d2 d3 d4 px py st g :
  catalogueOf nt = Some c ->
  (if String.eqb nt "trigger" then d1
   else if String.eqb nt "condition" then d2
   else if String.eqb nt "action" then d3 else d4) = Some k ->
  nodesInOrder st ->
  let data := {| nodeType := Some nt; d_trigger := d1; d_field := d2;
                 d_action := d3; d_logic := d4 |} in
  let st' :=
    match createNode data px py st with
    | (st1, Normal (Some n)) => mutateNode (id n) (withConfig g) st1
    | (st1, _) => st1
    end in
  map look (nodes st') = map look (nodes st) ++ lookOf nt k c g /\
  match snd (createNode data px py st) with
  | Throw error =>
      lookup c k <> None /\ getDefaultConfig nt k = Throw error
  | Normal _ =>
      lookup c k = None \/ exists cfg, getDefaultConfig nt k = Normal cfg
  end.
Proof.
  intros Hc Hk Hord data st'. subst st'.
  pose proof (templateFor_lookup nt c k d1 d2 d3 d4 Hc Hk) as Htpl.
  fold data in Htpl. unfold lookOf.
  destruct (createNode data px py st) as [st1 made] eqn:E.
  pose proof E as Hinv. apply createNode_inv in Hinv.
  destruct Hinv as (_ & _ & _ & _ & Hinv).
  pose proof (createNode_outcome data px py st) as Hout.
  rewrite E in Hout. cbn [snd] in Hout.
  change (nodeType data) with (Some nt) in Hout. rewrite Htpl in Hout.
  destruct (lookup c k) as [t |] eqn:El.
  - destruct (getDefaultConfig nt k) as [cfg | err] eqn:Ecfg; subst made;
      cbn [snd].
    + split; [| right; now exists cfg].
      rewrite (mutate_created _ _ _ _ _ _ _ E Hord), map_app.
      reflexivity.
    + split; [now rewrite Hinv, app_nil_r | split; [discriminate | reflexivity]].
  - subst made. cbn [snd].
    split; [now rewrite Hinv, app_nil_r | now left].
Qed.

Lemma withConfig_id_look nodeId st :
  map look (nodes (mutateNode nodeId (withConfig (fun c => c)) st))
  = map look (nodes st).
Proof.
  cbn [mutateNode nodes]. rewrite map_map. apply map_ext.
  intros n. now destruct (String.eqb (id n) nodeId).
Qed.

(** A node of a type other than condition: [createNode] returns. *)
Lemma createNode_looks nt c k d1 d2 d3 d4 px py st :
  catalogueOf nt = Some c ->
  (if String.eqb nt "trigger" then d1
   else if String.eqb nt "condition" then d2
   else if String.eqb nt "action" then d3 else d4) = Some k ->
  nt <> "condition" ->
  nodesInOrder st ->
  map look (nodes (fst (createNode
                          {| nodeType := Some nt; d_trigger := d1;
                             d_field := d2; d_action := d3; d_logic := d4 |}
                          px py st)))
  = map look (nodes st) ++ lookOf nt k c (fun cfg => cfg) /\
  exists made,
    snd (createNode
           {| nodeType := Some nt; d_trigger := d1;
              d_field := d2; d_action := d3; d_logic := d4 |}
           px py st) = Normal made.
Proof.
  intros Hc Hk Hnt Hord.
  destruct (create_and_configure_looks nt c k d1 d2 d3 d4 px py st
              (fun cfg => cfg) Hc Hk Hord) as [Hlooks Hend].
  cbn zeta in Hlooks. rewrite <- Hlooks.
  destruct (createNode _ px py st) as [st1 [[n |] | err]]; cbn [fst snd] in *.
  - split; [now rewrite withConfig_id_look | now eexists].
  - split; [reflexivity | now eexists].
  - exfalso. destruct Hend as [_ Hthrow].
    destruct (getDefaultConfig_other nt k Hnt) as [cfg Hcfg]. congruence.
Qed.

(** One condition: its node, unless the call throws. *)
Lemma createConditionNode_looks i cond st :
  nodesInOrder st ->
  map look (nodes (fst (createConditionNode i cond st)))
  = map look (nodes st) ++ (if throwing cond then [] else conditionLooks cond) /\
  snd (createConditionNode i cond st)
  = if throwing cond then Throw "TypeError" else Normal tt.
Proof.
  intros Hord. unfold createConditionNode.
  destruct cond as [f op v | op cs];
    [| cbn; now rewrite app_nil_r].
  destruct f as [| | b | n | f | |];
    try (cbn; now rewrite app_nil_r).
  cbn [conditionLooks throwing].
  destruct (truthy (Str f)) eqn:Htruthy.
  2: { cbn [fst snd]. cbn [truthy] in Htruthy.
       apply negb_false_iff, String.eqb_eq in Htruthy. subst f.
       cbn. now rewrite app_nil_r. }
  pose proof (create_and_configure_looks "condition" nodeTemplates.condition f
                None (Some f) None None 350 (80 + i * 120) st
                (fun c => set (set c "operator" op) "value"
                              match v with Some v' => v' | None => Undefined end)
                eq_refl eq_refl Hord) as [Hlooks Hend].
  cbn zeta in Hlooks. unfold lookOf in *.
  pose proof (getDefaultConfig_condition f) as Hd.
  unfold lookup in *.
  destruct (own nodeTemplates.condition f) as [t |] eqn:Eown.
  - destruct Hd as (cfg & Hcfg & _). rewrite Hcfg in *.
    destruct (createNode _ 350 (80 + i * 120) st) as [st1 [[n |] | err]];
      cbn [fst snd] in *.
    + split; [exact Hlooks | reflexivity].
    + split; [exact Hlooks | reflexivity].
    + destruct Hend as [_ Hthrow]. discriminate.
  - rewrite Hd in *. destruct (inherited f).
    + destruct (createNode _ 350 (80 + i * 120) st) as [st1 [[n |] | err]];
        cbn [fst snd] in *.
      * destruct Hend as [Hnone | (cfg & Hcfg)]; discriminate.
      * destruct Hend as [Hnone | (cfg & Hcfg)]; discriminate.
      * destruct Hend as [_ Hthrow]. inversion Hthrow; subst err.
        split; [exact Hlooks | reflexivity].
    + cbn [fst snd]. split; [now rewrite app_nil_r | reflexivity].
Qed.

Lemma createConditionNodes_looks conds :
  forall i st,
    nodesInOrder st ->
    map look (nodes (fst (createConditionNodes i conds st)))
    = map look (nodes st) ++ flat_map conditionLooks (beforeThrow conds) /\
    snd (createConditionNodes i conds st)
    = if existsb throwing conds then Throw "TypeError" else Normal tt.
Proof.
  induction conds as [| cond rest IH]; intros i st Hord;
    [cbn; now rewrite app_nil_r |].
  cbn [createConditionNodes beforeThrow existsb].
  destruct (createConditionNode_looks i cond st Hord) as [Hlooks Hend].
  pose proof (nodesInOrder_createConditionNode i cond st Hord) as Hord1.
  destruct (createConditionNode i cond st) as [st' outcome].
  cbn [fst snd] in *. subst outcome.
  destruct (throwing cond); cbn [orb flat_map fst snd].
  - split; [exact Hlooks | reflexivity].
  - destruct (IH (i + 1) st' Hord1) as [IHlooks IHend].
    split; [| exact IHend].
    now rewrite IHlooks, Hlooks, app_assoc.
Qed.

Lemma createActionNodes_looks px acts :
  forall i st,
    nodesInOrder st ->
    map look (nodes (fst (createActionNodes px i acts st)))
    = map look (nodes st) ++ flat_map actionLooks acts /\
    snd (createActionNodes px i acts st) = Normal tt.
Proof.
  induction acts as [| act rest IH]; intros i st Hord;
    [cbn; now rewrite app_nil_r |].
  cbn [createActionNodes flat_map].
  rewrite app_assoc. unfold actionLooks at 1.
  destruct (create_and_configure_looks "action" nodeTemplates.action
              (Action.type act) None None (Some (Action.type act)) None
              px (80 + i * 120) st
              (fun c => assign c (Action.params act))
              eq_refl eq_refl Hord) as [Hstep Hend].
  cbn zeta in Hstep. rewrite <- Hstep.
  destruct (createNode _ px (80 + i * 120) st) as [st1 made] eqn:E.
  pose proof (nodesInOrder_created _ _ _ _ _ _ E Hord) as Hord1.
  destruct made as [[n |] | err]; cbn [snd] in Hend.
  - apply IH. now apply nodesInOrder_withConfig.
  - now apply IH.
  - exfalso. destruct Hend as [_ Hthrow].
    destruct (getDefaultConfig_other "action" (Action.type act)) as [cfg Hcfg];
      [discriminate | congruence].
Qed.

(** What [generateNodesFromRule] draws, and how it ends. *)
Lemma generateNodesFromRule_looks (rule : Parsed.t) (st : State) :
  nodesInOrder st ->
  map look (nodes (fst (generateNodesFromRule rule st)))
  = map look (nodes st) ++ generatedLooks rule /\
  snd (generateNodesFromRule rule st) = generationOutcome rule.
Proof.
  intros Hord. unfold generateNodesFromRule, generatedLooks, generationOutcome.
  destruct (createNode_looks "trigger" nodeTemplates.trigger
              (Parsed.trigger rule) (Some (Parsed.trigger rule)) None None None
              100 80 st eq_refl eq_refl) as [L1 [made1 E1]];
    [discriminate | exact Hord |].
  pose proof (nodesInOrder_createNode
                {| nodeType := Some "trigger";
                   d_trigger := Some (Parsed.trigger rule);
                   d_field := None; d_action := None; d_logic := None |}
                100 80 st Hord) as H1.
  destruct (createNode _ 100 80 st) as [st1 node1]. cbn [fst snd] in *.
  subst node1.
  destruct (createConditionNodes_looks (Parsed.conditions rule) 0 st1 H1)
    as [L2 E2].
  pose proof (nodesInOrder_createConditionNodes
                (Parsed.conditions rule) 0 st1 H1) as H2.
  destruct (createConditionNodes 0 (Parsed.conditions rule) st1)
    as [st2 outcome2]. cbn [fst snd] in *. subst outcome2.
  destruct (existsb throwing (Parsed.conditions rule)).
  - cbn [fst snd]. split; [| reflexivity].
    now rewrite L2, L1, app_nil_r, <- app_assoc.
  - destruct (1 <? List.length (Parsed.conditions rule))%nat.
    + destruct (createNode_looks "logic" nodeTemplates.logic "AND"
                  None None None (Some "AND") 550 (80 + 60) st2
                  eq_refl eq_refl) as [L3 [made3 E3]];
        [discriminate | exact H2 |].
      pose proof (nodesInOrder_createNode
                    {| nodeType := Some "logic"; d_trigger := None;
                       d_field := None; d_action := None;
                       d_logic := Some "AND" |}
                    550 (80 + 60) st2 H2) as H3.
      destruct (createNode _ 550 (80 + 60) st2) as [st3 node3].
      cbn [fst snd] in *. subst node3.
      destruct (createActionNodes_looks 750 (Parsed.actions rule) 0 st3 H3)
        as [L4 E4].
      split; [| exact E4].
      rewrite L4, L3, L2, L1. now rewrite <- !app_assoc.
    + destruct (createActionNodes_looks 550 (Parsed.actions rule) 0 st2 H2)
        as [L4 E4].
      split; [| exact E4].
      rewrite L4, L2, L1. now rewrite <- !app_assoc.
Qed.

(** X3.  What [generateNodesFromRule] adds to a canvas, up to ids and
    positions, and how it ends.  It adds a trigger node when the
    catalogue answers to the rule's trigger; then a condition node for
    every leaf on a field of the catalogue, holding the leaf's operator
    and value.  At the first leaf on a name that the catalogue only
    inherits it throws a TypeError, and what it has added up to there
    stays.  If it has not thrown it adds one AND gate when the rule has
    more than one condition (counted with those that got no node), and
    an action node for every action whose type the catalogue answers to,
    holding the action's parameters over the type's defaults; then it
    returns.  Nothing that was on the canvas changes as far as an export
    reads it, no wire is touched, and the ids stay in order. *)
Theorem generateNodesFromRule_draws (rule : Parsed.t) (st : State) :
  nodesInOrder st ->
  let st' := fst (generateNodesFromRule rule st) in
  map look (nodes st') = map look (nodes st) ++ generatedLooks rule /\
  snd (generateNodesFromRule rule st)
  = (if existsb throwing (Parsed.conditions rule)
     then Throw "TypeError" else Normal tt) /\
  connections st' = connections st /\
  nodesInOrder st'.
Proof.
  intros Hord st'. subst st'.
  destruct (generateNodesFromRule_looks rule st Hord) as [Hlooks Hend].
  split; [exact Hlooks |]. split; [exact Hend |]. split.
  - apply connections_generateNodesFromRule.
  - now apply nodesInOrder_generateNodesFromRule.
Qed.

Lemma generateNodesFromRule_draws_witness :
  nodesInOrder state /\
  map look (nodes (fst (generateNodesFromRule
                          (parseNaturalLanguage toLowerCaseAscii
                             (units "vip pays, 50 rs"))
                          state)))
  = [ ("trigger", "payment_received", []);
      ("condition", "referrer.tier",
       [("field", Str "referrer.tier"); ("operator", Str "equals");
        ("value", Str "VIP")]);
      ("action", "credit_reward",
       [("amount", Num 50); ("currency", Str "INR");
        ("reward_type", Str "voucher")]) ].
Proof.
  assert (Hord : nodesInOrder state).
  { split; cbn; constructor. lia. }
  split; [exact Hord |].
  rewrite (proj1 (generateNodesFromRule_draws _ state Hord)). reflexivity.
Defined.

(** A rule with a condition on "valueOf": the trigger (here under an
    inherited name) and the first condition are drawn, then the
    generation throws; the third condition, the gate and the action are
    not drawn. *)
Example generation_stops_at_inherited_field :
  generateNodesFromRule thrownRule state
  = (fst (generateNodesFromRule thrownRule state), Throw "TypeError") /\
  map look (nodes (fst (generateNodesFromRule thrownRule state)))
  = [ ("trigger", "constructor", []);
      ("condition", "payment.amount",
       [("field", Str "payment.amount"); ("operator", Str "greater_than");
        ("value", Num 5)]) ] /\
  nextNodeId (fst (generateNodesFromRule thrownRule state)) = 4%N.
Proof. repeat split. Qed.

(** ** From a sentence to the canvas and back to a rule *)

Lemma looks_determine (l l' : list Node) (d : string) :
  map look l = map look l' ->
  match find (isType "trigger") l with Some n => subType n | None => d end
  = match find (isType "trigger") l' with Some n => subType n | None => d end /\
  map leafOf (filter (isType "condition") l)
  = map leafOf (filter (isType "condition") l') /\
  map subType (filter (isType "logic") l)
  = map subType (filter (isType "logic") l') /\
  map (fun n => {| Action.type := subType n; Action.params := config n |})
      (filter (isType "action") l)
  = map (fun n => {| Action.type := subType n; Action.params := config n |})
        (filter (isType "action") l').
Proof.
  revert l'. induction l as [| n l IH]; intros [| n' l'] H;
    try discriminate; [now repeat split |].
  cbn [map] in H. inversion H as [[Hty Hsub Hcfg Hrest]].
  destruct (IH l' Hrest) as (IHt & IHc & IHl & IHa).
  assert (Hsame : forall t, isType t n = isType t n').
  { intros t. unfold isType. now rewrite Hty. }
  cbn [find filter]. rewrite !Hsame.
  repeat split.
  - destruct (isType "trigger" n'); [exact Hsub | exact IHt].
  - destruct (isType "condition" n'); cbn [map]; [| exact IHc].
    unfold leafOf at 1 3. now rewrite Hcfg, IHc.
  - destruct (isType "logic" n'); cbn [map];
      [now rewrite Hsub, IHl | exact IHl].
  - destruct (isType "action" n'); cbn [map];
      [now rewrite Hsub, Hcfg, IHa | exact IHa].
Qed.

Lemma buildRuleJSON_conditions now st :
  Rule.conditions (buildRuleJSON now st)
  = match map leafOf (filter (isType "condition") (nodes st)) with
    | [] => Leaf (Str "event.occurred") (Str "is_true") None
    | [c] => c
    | cs =>
        Group match map subType (filter (isType "logic") (nodes st)) with
              | o :: _ => o
              | [] => "AND"
              end cs
    end.
Proof.
  unfold buildRuleJSON. cbn [Rule.conditions].
  destruct (filter (isType "condition") (nodes st)) as [| a [| b rest]];
    try reflexivity.
  cbn [map]. now destruct (filter (isType "logic") (nodes st)).
Qed.

(** The exported trigger, conditions and actions are read off the
    types, sub-types and configs of the nodes, in their order. *)
Lemma buildRuleJSON_by_looks now st st' :
  map look (nodes st) = map look (nodes st') ->
  Rule.trigger (buildRuleJSON now st) = Rule.trigger (buildRuleJSON now st') /\
  Rule.conditions (buildRuleJSON now st)
  = Rule.conditions (buildRuleJSON now st') /\
  Rule.actions (buildRuleJSON now st) = Rule.actions (buildRuleJSON now st').
Proof.
  intros H.
  destruct (looks_determine _ _ "referral_signup" H) as (Ht & Hc & Hl & Ha).
  split; [exact Ht |]. split.
  - now rewrite !buildRuleJSON_conditions, Hc, Hl.
  - unfold buildRuleJSON. cbn [Rule.actions]. now rewrite Ha.
Qed.

Lemma nodesInOrder_cleared st : nodesInOrder (clearCanvas st).
Proof. split; cbn [clearCanvas nodes nextNodeId]; constructor. lia. Qed.

Lemma looks_of_model (ks : list Look) :
  map look
      (map (fun k => {| id := ""; type := fst (fst k); subType := snd (fst k);
                        x := 0; y := 0; template := PlainTemplate "" "";
                        config := snd k |}) ks)
  = ks.
Proof.
  induction ks as [| [[t s] c] ks IH]; [reflexivity |].
  cbn [map]. now rewrite IH.
Qed.

(** X4.  A sentence that is not blank, turned into a canvas by
    [generateFromAI] and exported again by [buildRuleJSON], gives the
    parsed rule back: the same trigger and the same actions.  The
    conditions come back as the export shapes them: none with a node
    gives the always-true leaf (so the parser's stand-in leaf
    "referred.signup_completed", for which the palette has no node, is
    not exported), one gives that leaf, more give an AND group of them
    in their order. *)
Theorem generated_canvas_exports_the_parsed_rule
  (toLowerCase : text -> text) (now : Z) (txt : text) (st : State) :
  trim txt <> [] ->
  let rule := parseNaturalLanguage toLowerCase (trim txt) in
  let exported := buildRuleJSON now (generateFromAI toLowerCase txt st) in
  Rule.trigger exported = Parsed.trigger rule /\
  Rule.actions exported = Parsed.actions rule /\
  Rule.conditions exported
  = match filter hasTemplate (Parsed.conditions rule) with
    | [] => Leaf (Str "event.occurred") (Str "is_true") None
    | [c] => c
    | cs => Group "AND" cs
    end.
Proof.
  intros Hne rule exported. subst exported.
  assert (Hlooks :
    map look (nodes (generateFromAI toLowerCase txt st)) = generatedLooks rule).
  { subst rule. unfold generateFromAI.
    destruct (trim txt) as [| c r] eqn:Et; [contradiction |].
    now rewrite (proj1 (generateNodesFromRule_looks _ _ (nodesInOrder_cleared st))). }
  rewrite <- (looks_of_model (generatedLooks rule)) in Hlooks.
  destruct (buildRuleJSON_by_looks now _
              {| nodes := map (fun k => {| id := ""; type := fst (fst k);
                                           subType := snd (fst k);
                                           x := 0; y := 0;
                                           template := PlainTemplate "" "";
                                           config := snd k |})
                              (generatedLooks rule);
                 connections := []; selectedNode := None; connecting := None;
                 nextNodeId := 1%N; dragOffset := (0, 0) |} Hlooks)
    as (-> & -> & ->).
  clear Hlooks. subst rule. unfold parseNaturalLanguage.
  match goal with
  | |- context [("amount", ?a)] => generalize a
  end.
  intros amount.
  match goal with
  | |- context [("reward_type", Str ?r)] => generalize r
  end.
  intros rewardType.
  destruct (includes (toLowerCase (trim txt)) (units "subscri"));
    destruct (includes (toLowerCase (trim txt)) (units "payment")
              || includes (toLowerCase (trim txt)) (units "pay"));
    destruct (includes (toLowerCase (trim txt)) (units "paid user")
              || includes (toLowerCase (trim txt)) (units "paid member"));
    destruct (includes (toLowerCase (trim txt)) (units "premium"));
    destruct (includes (toLowerCase (trim txt)) (units "vip"));
    repeat split; reflexivity.
Qed.

Lemma generated_canvas_exports_the_parsed_rule_witness :
  let txt := units "  Premium VIP referral: Rs 750 cash  " in
  trim txt <> [] /\
  Rule.conditions
    (buildRuleJSON 0 (generateFromAI toLowerCaseAscii txt state))
  = Group "AND"
      [ Leaf (Str "referred.subscription_plan") (Str "equals")
             (Some (Str "premium"));
        Leaf (Str "referrer.tier") (Str "equals") (Some (Str "VIP")) ].
Proof.
  intros txt.
  assert (Hne : trim txt <> []) by discriminate.
  split; [exact Hne |].
  destruct (generated_canvas_exports_the_parsed_rule
              toLowerCaseAscii 0 txt state Hne) as (_ & _ & Hc).
  rewrite Hc. reflexivity.
Defined.

(** ** Wires and ports *)

Lemma hasPort_kind n portType :
  hasPort n portType = true -> portType = "input" \/ portType = "output".
Proof.
  unfold hasPort. intros H. apply orb_true_iff in H.
  destruct H as [H | H]; apply andb_true_iff in H; destruct H as [H _];
    apply String.eqb_eq in H; auto.
Qed.

Lemma hasPort_type n n' portType :
  type n = type n' -> hasPort n portType = hasPort n' portType.
Proof. unfold hasPort. now intros ->. Qed.

Lemma allocated_later st st' nodeId :
  (nextNodeId st <= nextNodeId st')%N ->
  allocated st nodeId -> allocated st' nodeId.
Proof. intros Hle (k & Hk & ->). exists k. split; [lia | reflexivity]. Qed.

(** The nodes of [st'] are nodes of [st], up to what a node shows
    besides id and type, or they are new. *)
Lemma wiredByPorts_weaken st st' :
  (forall p, connecting st' = Some p -> connecting st = Some p) ->
  incl (connections st') (connections st) ->
  (nextNodeId st <= nextNodeId st')%N ->
  (forall n', In n' (nodes st') ->
     (exists n, In n (nodes st) /\ id n = id n' /\ type n = type n') \/
     (exists k, (nextNodeId st <= k)%N /\ id n' = nodeIdOf k)) ->
  wiredByPorts st -> wiredByPorts st'.
Proof.
  intros Hconn Hincl Hnext Hnodes [Hpending Hwires].
  assert (Hfit : forall nodeId portType,
             allocated st nodeId -> portsFit st nodeId portType ->
             portsFit st' nodeId portType).
  { intros nodeId portType (k & Hk & ->) Hfit n' Hn' Hid.
    destruct (Hnodes n' Hn') as [(n & Hn & Hidn & Hty) | (j & Hj & Hidj)].
    - rewrite <- (hasPort_type n n' portType Hty). apply Hfit; congruence.
    - rewrite Hidj in Hid. apply nodeIdOf_inj in Hid. lia. }
  split.
  - intros nodeId portType Hc. apply Hconn in Hc.
    destruct (Hpending _ _ Hc) as (Ha & Hk & Hf).
    split; [now apply (allocated_later st) |]. split; [exact Hk |].
    now apply Hfit.
  - apply Forall_forall. intros c Hc. apply Hincl in Hc.
    rewrite Forall_forall in Hwires.
    destruct (Hwires c Hc) as (Hf & Ht & Hout & Hin).
    repeat split; try (now apply (allocated_later st)); now apply Hfit.
Qed.

Lemma wiredByPorts_createNode data px py st :
  wiredByPorts st -> wiredByPorts (fst (createNode data px py st)).
Proof.
  destruct (createNode data px py st) as [st1 made] eqn:E. cbn [fst].
  pose proof (createNode_nodes data px py st) as (added & Hn & Hadded).
  rewrite E in Hn. cbn [fst] in Hn.
  apply createNode_inv in E. destruct E as (Hc & Hp & _ & Hnext & _).
  apply wiredByPorts_weaken.
  - intros p. now rewrite Hp.
  - rewrite Hc. apply incl_refl.
  - lia.
  - intros n' Hn'. rewrite Hn in Hn'. apply in_app_or in Hn'.
    destruct Hn' as [Hold | Hnew].
    + left. now exists n'.
    + right. rewrite Forall_forall in Hadded.
      exists (nextNodeId st). split; [lia | now apply Hadded].
Qed.

Lemma wiredByPorts_mutateNode nodeId f st :
  (forall n, id (f n) = id n) -> (forall n, type (f n) = type n) ->
  wiredByPorts st -> wiredByPorts (mutateNode nodeId f st).
Proof.
  intros Hid Hty. apply wiredByPorts_weaken; cbn [mutateNode connecting
    connections nextNodeId nodes].
  - easy.
  - apply incl_refl.
  - lia.
  - intros n' Hn'. left. apply in_map_iff in Hn'.
    destruct Hn' as (n & Hn & Hin). exists n. split; [exact Hin |].
    subst n'. destruct (String.eqb (id n) nodeId); [| now split].
    now rewrite Hid, Hty.
Qed.

Lemma wiredByPorts_generateNodesFromRule rule st :
  wiredByPorts st -> wiredByPorts (fst (generateNodesFromRule rule st)).
Proof.
  apply (generated_whatever_config wiredByPorts).
  - apply wiredByPorts_createNode.
  - intros nodeId g st'. now apply wiredByPorts_mutateNode.
Qed.

Lemma same_id_same_node (l : list Node) n m :
  NoDup (map id l) -> In n l -> In m l -> id n = id m -> n = m.
Proof.
  induction l as [| a l IH]; intros Hnd Hn Hm Hid; [destruct Hn |].
  cbn [map] in Hnd. inversion Hnd as [| i ids Hi Hids]; subst.
  destruct Hn as [-> | Hn], Hm as [-> | Hm].
  - reflexivity.
  - exfalso. apply Hi. rewrite Hid. now apply in_map.
  - exfalso. apply Hi. rewrite <- Hid. now apply in_map.
  - now apply IH.
Qed.

(** A port that can be clicked belongs to a node of the canvas. *)
Lemma portExists_fits nodeId portType st :
  nodesInOrder st -> portExists nodeId portType st = true ->
  allocated st nodeId /\
  (portType = "input" \/ portType = "output") /\
  portsFit st nodeId portType.
Proof.
  intros [Hord _] H. unfold portExists, findNode in H.
  destruct (find (fun n => String.eqb (id n) nodeId) (nodes st)) as [n |] eqn:E;
    [| discriminate].
  apply find_some in E. destruct E as [Hn Hid]. apply String.eqb_eq in Hid.
  split; [| split].
  - pose proof (ordered_known _ _ _ Hord) as Hall.
    rewrite Forall_forall in Hall. destruct (Hall n Hn) as (k & Hk & Hnk).
    exists k. split; [lia | congruence].
  - now apply (hasPort_kind n).
  - intros m Hm Hidm.
    assert (m = n) as ->; [| exact H].
    apply (same_id_same_node (nodes st)); try assumption.
    + now apply ordered_NoDup in Hord.
    + congruence.
Qed.

Lemma wiredByPorts_handlePortClick nodeId portType st :
  nodesInOrder st -> portExists nodeId portType st = true ->
  wiredByPorts st -> wiredByPorts (handlePortClick nodeId portType st).
Proof.
  intros Hord Hport Hinv.
  destruct (portExists_fits nodeId portType st Hord Hport) as (Ha & Hk & Hf).
  pose proof Hinv as [Hpending Hwires].
  assert (Hsame : forall conns pending,
             (forall p, pending = Some p ->
                        connecting st = Some p \/ p = (nodeId, portType)) ->
             Forall (fun c => allocated st (from c) /\ allocated st (to c) /\
                              portsFit st (from c) "output" /\
                              portsFit st (to c) "input") conns ->
             wiredByPorts {| nodes := nodes st; connections := conns;
                             selectedNode := selectedNode st;
                             connecting := pending;
                             nextNodeId := nextNodeId st;
                             dragOffset := dragOffset st |}).
  { intros conns pending Hp Hc. split; cbn [connecting connections].
    - intros nid pt Heq. destruct (Hp _ Heq) as [Hold | Hnew].
      + exact (Hpending _ _ Hold).
      + inversion Hnew; subst. now repeat split.
    - exact Hc. }
  unfold handlePortClick.
  destruct (connecting st) as [[cNode cPort] |] eqn:Hc.
  2: { apply Hsame; [| exact Hwires]. intros p Hp. right. now inversion Hp. }
  destruct (Hpending cNode cPort eq_refl) as (Hca & Hck & Hcf).
  destruct (negb (String.eqb cNode nodeId) && negb (String.eqb cPort portType))
    eqn:Hguard; [| apply Hsame; [discriminate | exact Hwires]].
  apply andb_true_iff in Hguard. destruct Hguard as [_ Hp].
  apply eqb_neq_true in Hp.
  destruct (existsb _ (connections st)); cbn [negb];
    [apply Hsame; [discriminate | exact Hwires] |].
  assert (Hnew : Forall
            (fun c => allocated st (from c) /\ allocated st (to c) /\
                      portsFit st (from c) "output" /\
                      portsFit st (to c) "input")
            (connections st
             ++ [ {| from := if String.eqb cPort "output" then cNode else nodeId;
                     to := if String.eqb cPort "output" then nodeId else cNode |} ])).
  { apply Forall_app. split; [exact Hwires |]. constructor; [| constructor].
    cbn [from to]. destruct (String.eqb_spec cPort "output") as [-> | Hno].
    - destruct Hk as [-> | ->]; [now repeat split | contradiction].
    - destruct Hck as [-> | ->]; [| contradiction].
      destruct Hk as [-> | ->]; [contradiction | now repeat split]. }
  destruct (portExists _ "output" st && portExists _ "input" st).
  - apply Hsame; [discriminate | exact Hnew].
  - apply Hsame; [| exact Hnew]. intros p Hpe. now left.
Qed.

Lemma wiredByPorts_step toLowerCase st e :
  nodesInOrder st -> wiredByPorts st -> wiredByPorts (step toLowerCase st e).
Proof.
  intros Hord H. destruct e; cbn [step].
  - now apply wiredByPorts_createNode.
  - destruct (findNode nodeId st); [| exact H].
    revert H. apply wiredByPorts_weaken; cbn;
      [easy | apply incl_refl | lia | intros n' Hn'; left; now exists n'].
  - now apply wiredByPorts_mutateNode.
  - destruct (findNode nodeId st); [| exact H].
    revert H. apply wiredByPorts_weaken; cbn;
      [easy | apply incl_refl | lia | intros n' Hn'; left; now exists n'].
  - revert H. apply wiredByPorts_weaken; cbn;
      [easy | apply incl_refl | lia | intros n' Hn'; left; now exists n'].
  - destruct (portExists nodeId portType st) eqn:Hport; [| exact H].
    now apply wiredByPorts_handlePortClick.
  - revert H. apply wiredByPorts_weaken; cbn [deleteConnection connecting
      connections nextNodeId nodes];
      [easy | apply incl_filter | lia | intros n' Hn'; left; now exists n'].
  - revert H. apply wiredByPorts_weaken; cbn [deleteNode connecting
      connections nextNodeId nodes];
      [easy | apply incl_filter | lia |].
    intros n' Hn'. left. apply filter_In in Hn'. now exists n'.
  - split; cbn; [discriminate | constructor].
  - exact H.
  - unfold generateFromAI. destruct (trim inputValue); [exact H |].
    apply wiredByPorts_generateNodesFromRule.
    split; cbn; [discriminate | constructor].
Qed.

Lemma canvasInvariant_reachable toLowerCase st :
  reachable toLowerCase st -> canvasInvariant st.
Proof.
  apply (reachable_ind toLowerCase canvasInvariant).
  - split; [| split].
    + split; cbn; constructor. lia.
    + constructor.
    + split; cbn; [discriminate | constructor].
  - intros st' e (Hord & Hwf & Hw). split; [| split].
    + now apply nodesInOrder_step.
    + now apply wellFormed_step.
    + now apply wiredByPorts_step.
Qed.

(** X5.  In every state the editor can reach, a wire leaves a node at an
    output port and enters a node at an input port: no node of the
    canvas that a wire starts from is an action, and none that a wire
    ends in is a trigger. *)
Theorem wires_go_from_output_to_input
  (toLowerCase : text -> text) (st : State) :
  reachable toLowerCase st ->
  forall c n,
    In c (connections st) -> In n (nodes st) ->
    (id n = from c -> type n <> "action") /\
    (id n = to c -> type n <> "trigger").
Proof.
  intros Hreach c n Hc Hn.
  destruct (canvasInvariant_reachable _ _ Hreach) as (_ & _ & _ & Hwires).
  rewrite Forall_forall in Hwires.
  destruct (Hwires c Hc) as (_ & _ & Hout & Hin).
  split; intros Hid Hty.
  - specialize (Hout n Hn Hid). unfold hasPort in Hout.
    rewrite Hty in Hout. discriminate.
  - specialize (Hin n Hn Hid). unfold hasPort in Hin.
    rewrite Hty in Hin. discriminate.
Qed.

Lemma wires_go_from_output_to_input_witness :
  let st := run toLowerCaseAscii sampleSession in
  reachable toLowerCaseAscii st /\
  forall n, In n (nodes st) -> id n = "node-1" -> type n <> "action".
Proof.
  intros st.
  assert (Hreach : reachable toLowerCaseAscii st)
    by (exists sampleSession; reflexivity).
  split; [exact Hreach |].
  assert (Hwire : In {| from := "node-1"; to := "node-2" |} (connections st))
    by (vm_compute; left; reflexivity).
  intros n Hn Hid.
  exact (proj1 (wires_go_from_output_to_input toLowerCaseAscii st Hreach
                  {| from := "node-1"; to := "node-2" |} n Hwire Hn) Hid).
Defined.

(** ** Wires without a node *)

Lemma noDanglingWire_weaken st st' :
  incl (connections st') (connections st) ->
  (forall nodeId, onCanvas st nodeId -> onCanvas st' nodeId) ->
  noDanglingWire st -> noDanglingWire st'.
Proof.
  intros Hincl Hon H. apply Forall_forall. intros c Hc.
  unfold noDanglingWire in H. rewrite Forall_forall in H.
  destruct (H c (Hincl c Hc)) as [Hf Ht]. split; now apply Hon.
Qed.

Lemma onCanvas_createNode data px py st nodeId :
  onCanvas st nodeId -> onCanvas (fst (createNode data px py st)) nodeId.
Proof.
  intros (n & Hn & Hid).
  destruct (createNode_nodes data px py st) as (added & Hnodes & _).
  exists n. split; [| exact Hid]. rewrite Hnodes. apply in_or_app. now left.
Qed.

Lemma onCanvas_mutateNode target f st nodeId :
  (forall n, id (f n) = id n) ->
  onCanvas st nodeId -> onCanvas (mutateNode target f st) nodeId.
Proof.
  intros Hf (n & Hn & Hid).
  exists (if String.eqb (id n) target then f n else n). split.
  - cbn [mutateNode nodes].
    now apply (in_map (fun n => if String.eqb (id n) target then f n else n)).
  - destruct (String.eqb (id n) target); [now rewrite Hf | exact Hid].
Qed.

Lemma findNode_onCanvas nodeId st :
  findNode nodeId st <> None <-> onCanvas st nodeId.
Proof.
  unfold findNode, onCanvas. split.
  - destruct (find _ (nodes st)) as [n |] eqn:E; [| contradiction].
    intros _. apply find_some in E. destruct E as [Hn Hid].
    apply String.eqb_eq in Hid. now exists n.
  - intros (n & Hn & Hid) Hnone.
    apply (find_none _ _ Hnone) in Hn.
    rewrite Hid, String.eqb_refl in Hn. discriminate.
Qed.

Lemma portExists_onCanvas nodeId portType st :
  portExists nodeId portType st = true -> onCanvas st nodeId.
Proof.
  intros H. apply findNode_onCanvas. unfold portExists in H.
  now destruct (findNode nodeId st).
Qed.

(** X6.  One event keeps every wire between nodes of the canvas,
    provided the connection that is pending, if one is, was begun at a
    node that is still on the canvas.  In particular deleting a node
    takes every wire of the node with it. *)
Theorem events_leave_no_dangling_wire
  (toLowerCase : text -> text) (st : State) (e : Event) :
  noDanglingWire st ->
  (forall nodeId portType,
     connecting st = Some (nodeId, portType) -> onCanvas st nodeId) ->
  noDanglingWire (step toLowerCase st e).
Proof.
  intros H Hpending. destruct e; cbn [step].
  - revert H. apply noDanglingWire_weaken.
    + rewrite connections_createNode. apply incl_refl.
    + intros nid. apply onCanvas_createNode.
  - now destruct (findNode nodeId st).
  - revert H. apply noDanglingWire_weaken; [apply incl_refl |].
    intros nid. now apply onCanvas_mutateNode.
  - now destruct (findNode nodeId st).
  - exact H.
  - destruct (portExists nodeId portType st) eqn:Hport; [| exact H].
    apply portExists_onCanvas in Hport.
    assert (Hkeep : forall conns pending,
               Forall (fun c => onCanvas st (from c) /\ onCanvas st (to c)) conns ->
               noDanglingWire
                 {| nodes := nodes st; connections := conns;
                    selectedNode := selectedNode st; connecting := pending;
                    nextNodeId := nextNodeId st;
                    dragOffset := dragOffset st |}) by (intros; assumption).
    unfold handlePortClick.
    destruct (connecting st) as [[cNode cPort] |] eqn:Hc; [| now apply Hkeep].
    specialize (Hpending cNode cPort eq_refl).
    destruct (negb (String.eqb cNode nodeId)
              && negb (String.eqb cPort portType)); [| now apply Hkeep].
    destruct (existsb _ (connections st)); cbn [negb]; [now apply Hkeep |].
    assert (Hnew : Forall
              (fun c => onCanvas st (from c) /\ onCanvas st (to c))
              (connections st
               ++ [ {| from := if String.eqb cPort "output" then cNode else nodeId;
                       to := if String.eqb cPort "output" then nodeId else cNode |} ])).
    { apply Forall_app. split; [exact H |]. constructor; [| constructor].
      cbn [from to]. now destruct (String.eqb cPort "output"). }
    destruct (portExists _ "output" st && portExists _ "input" st);
      now apply Hkeep.
  - revert H. apply noDanglingWire_weaken; [apply incl_filter | easy].
  - unfold noDanglingWire in *. cbn [deleteNode connections].
    apply Forall_forall. intros c Hc. apply filter_In in Hc.
    destruct Hc as [Hc Hends]. apply andb_true_iff in Hends.
    destruct Hends as [Hf Ht].
    apply eqb_neq_true in Hf. apply eqb_neq_true in Ht.
    rewrite Forall_forall in H. destruct (H c Hc) as [(n & Hn & Hidn) (m & Hm & Hidm)].
    split; [exists n | exists m]; (split; [| assumption]);
      cbn [deleteNode nodes]; apply filter_In; (split; [assumption |]);
      apply eqb_neq_true; congruence.
  - constructor.
  - exact H.
  - unfold generateFromAI. destruct (trim inputValue); [exact H |].
    unfold noDanglingWire. rewrite connections_generateNodesFromRule.
    constructor.
Qed.

Lemma events_leave_no_dangling_wire_witness :
  let st := run toLowerCaseAscii sampleSession in
  noDanglingWire st /\
  connecting st = None /\
  noDanglingWire (step toLowerCaseAscii st (DeleteNode "node-2")) /\
  connections (step toLowerCaseAscii st (DeleteNode "node-2")) = [].
Proof.
  intros st.
  assert (H : noDanglingWire st).
  { unfold noDanglingWire, onCanvas. vm_compute.
    constructor; [| constructor].
    split; eexists.
    - split; [left; reflexivity | reflexivity].
    - split; [right; left; reflexivity | reflexivity]. }
  assert (Hp : connecting st = None) by reflexivity.
  split; [exact H |]. split; [exact Hp |]. split; [| reflexivity].
  apply (events_leave_no_dangling_wire toLowerCaseAscii st (DeleteNode "node-2") H).
  intros nodeId portType Hc. rewrite Hp in Hc. discriminate Hc.
Defined.

(** X7.  A connection begun at a node that has been deleted since is
    still completed: the click on a port of the other kind at another
    node adds the wire, though one end of it is not on the canvas, and
    the connection stays pending (the handler stops on the missing
    port before it clears it). *)
Theorem stale_connection_adds_dangling_wire
  (st : State) (cNode cPort nodeId portType : string) :
  connecting st = Some (cNode, cPort) ->
  findNode cNode st = None ->
  cNode <> nodeId ->
  cPort <> portType ->
  (forall c, In c (connections st) ->
             ~ (from c = (if String.eqb cPort "output" then cNode else nodeId) /\
                to c = (if String.eqb cPort "output" then nodeId else cNode))) ->
  let st' := handlePortClick nodeId portType st in
  connections st'
  = connections st
    ++ [ {| from := if String.eqb cPort "output" then cNode else nodeId;
            to := if String.eqb cPort "output" then nodeId else cNode |} ] /\
  connecting st' = Some (cNode, cPort) /\
  ~ onCanvas st' cNode /\
  ~ noDanglingWire st'.
Proof.
  intros Hc Hgone Hn Hp Hnew st'.
  assert (Hoff : ~ onCanvas st cNode).
  { intros Hon. now apply findNode_onCanvas in Hon. }
  assert (Hst' : st'
                 = {| nodes := nodes st;
                      connections :=
                        connections st
                        ++ [ {| from := if String.eqb cPort "output"
                                        then cNode else nodeId;
                                to := if String.eqb cPort "output"
                                      then nodeId else cNode |} ];
                      selectedNode := selectedNode st;
                      connecting := connecting st;
                      nextNodeId := nextNodeId st;
                      dragOffset := dragOffset st |}).
  { subst st'. unfold handlePortClick. rewrite Hc.
    apply String.eqb_neq in Hn. apply String.eqb_neq in Hp.
    rewrite Hn, Hp. cbn [negb andb].
    destruct (existsb _ (connections st)) eqn:Hex.
    - exfalso. apply existsb_exists in Hex. destruct Hex as (c & Hin & Hsame).
      unfold sameEnds in Hsame. apply andb_true_iff in Hsame.
      destruct Hsame as [Hf Ht]. apply String.eqb_eq in Hf, Ht.
      now apply (Hnew c Hin).
    - cbn [negb].
      assert (Hno : forall p, portExists cNode p st = false).
      { intros p. unfold portExists. now rewrite Hgone. }
      destruct (String.eqb cPort "output");
        [now rewrite Hno | now rewrite Hno, andb_false_r]. }
  rewrite Hst'. cbn [connections connecting].
  split; [reflexivity |]. split; [exact Hc |].
  split; [exact Hoff |].
  intros Hall. unfold noDanglingWire in Hall. cbn [connections] in Hall.
  apply Forall_app in Hall. destruct Hall as [_ Hall].
  inversion Hall as [| c cs [Hf Ht] _]; subst. cbn [from to] in Hf, Ht.
  destruct (String.eqb cPort "output"); now apply Hoff.
Qed.

Lemma stale_connection_adds_dangling_wire_witness :
  let st := run toLowerCaseAscii (firstn 4 staleSession) in
  reachable toLowerCaseAscii st /\
  connecting st = Some ("node-1", "output") /\
  findNode "node-1" st = None /\
  connections (handlePortClick "node-2" "input" st)
  = [ {| from := "node-1"; to := "node-2" |} ] /\
  ~ noDanglingWire (handlePortClick "node-2" "input" st).
Proof.
  intros st.
  split; [exists (firstn 4 staleSession); reflexivity |].
  split; [reflexivity |]. split; [reflexivity |].
  destruct (stale_connection_adds_dangling_wire st "node-1" "output"
              "node-2" "input") as (Hconns & _ & _ & Hdangling).
  - reflexivity.
  - reflexivity.
  - discriminate.
  - discriminate.
  - intros c Hin. destruct Hin.
  - split; [exact Hconns | exact Hdangling].
Defined.

(** X8.  [deleteConnection] takes away every wire with the ends of the
    given one and nothing else; and it undoes a port click: when
    [handlePortClick] has added a wire, deleting that wire gives the
    wires there were before the click. *)
Theorem deleteConnection_removes_and_undoes
  (conn : Connection) (nodeId portType : string) (st : State) :
  Forall (fun c => ~ (from c = from conn /\ to c = to conn))
         (connections (deleteConnection conn st)) /\
  (forall c, ~ (from c = from conn /\ to c = to conn) ->
             (In c (connections (deleteConnection conn st))
              <-> In c (connections st))) /\
  nodes (deleteConnection conn st) = nodes st /\
  (connections (handlePortClick nodeId portType st) = connections st ++ [conn] ->
   connections (deleteConnection conn (handlePortClick nodeId portType st))
   = connections st).
Proof.
  assert (Hkeep : forall c,
             negb (String.eqb (from c) (from conn)
                   && String.eqb (to c) (to conn)) = true
             <-> ~ (from c = from conn /\ to c = to conn)).
  { intros c.
    destruct (String.eqb_spec (from c) (from conn)) as [Hf | Hf];
      destruct (String.eqb_spec (to c) (to conn)) as [Ht | Ht];
      cbn [andb negb]; split; intros H;
      try reflexivity; try discriminate; try (intros [Hf' Ht']; contradiction).
    exfalso. apply H. now split. }
  split; [| split; [| split]].
  - cbn [deleteConnection connections]. apply Forall_forall.
    intros c Hc. apply filter_In in Hc. now apply Hkeep.
  - intros c Hc. cbn [deleteConnection connections]. rewrite filter_In.
    split; [tauto |]. intros Hin. split; [exact Hin | now apply Hkeep].
  - reflexivity.
  - intros Hadded. cbn [deleteConnection connections]. rewrite Hadded.
    destruct (handlePortClick_connections nodeId portType st)
      as [Hsame | (c & cNode & cPort & Hc & _ & Hnew & _)].
    + rewrite Hsame in Hadded.
      apply (f_equal (@List.length Connection)) in Hadded.
      rewrite length_app in Hadded. cbn in Hadded. lia.
    + rewrite Hc in Hadded. apply app_inj_tail in Hadded.
      destruct Hadded as [_ ->].
      rewrite filter_app. cbn [filter]. rewrite !String.eqb_refl.
      cbn [andb negb]. rewrite app_nil_r.
      apply forallb_filter_id. apply forallb_forall.
      intros c Hin. apply Hkeep. intros [Hf Ht]. apply Hnew.
      destruct c as [f t], conn as [f' t']. cbn in Hf, Ht. now subst.
Qed.

Lemma deleteConnection_removes_and_undoes_witness :
  let st := run toLowerCaseAscii (firstn 2 sampleSession) in
  let wire := {| from := "node-1"; to := "node-2" |} in
  connections (handlePortClick "node-2" "input" st) = connections st ++ [wire] /\
  connections (deleteConnection wire (handlePortClick "node-2" "input" st))
  = connections st.
Proof.
  intros st wire.
  assert (H : connections (handlePortClick "node-2" "input" st)
              = connections st ++ [wire]) by reflexivity.
  split; [exact H |].
  exact (proj2 (proj2 (proj2
           (deleteConnection_removes_and_undoes wire "node-2" "input" st))) H).
Defined.

End CanvasSpec.

(* ================================================================== *)
(** * More properties of the ledger schema                              *)
(* ================================================================== *)

Module IntegritySpec.

Import Schema Integrity LedgerSpec.

Local Open Scope list_scope.

(** ** Checks that passed *)

Lemma mem_In i l : mem i l = true <-> In i l.
Proof.
  unfold mem. rewrite existsb_exists. split.
  - intros (j & Hj & Heq). apply N.eqb_eq in Heq. now subst.
  - intros H. exists i. split; [exact H | apply N.eqb_refl].
Qed.

Lemma mem_opt_In o l :
  mem_opt o l = true -> forall i, o = Some i -> In i l.
Proof. intros H i ->. now apply mem_In. Qed.

Lemma first_error_app_None_r a b :
  first_error (a ++ b) = None -> first_error b = None.
Proof.
  induction a as [| [c e] a IH]; cbn [app first_error]; [easy |].
  destruct c; [exact IH | discriminate].
Qed.

Lemma reward_event_fk_pass d r :
  (forall c e, In (c, e) (reward_event_fk d r) -> c = true) ->
  In (RewardEvent.referrer_user_id r) (users d) /\
  In (RewardEvent.referred_user_id r) (users d) /\
  (forall i, RewardEvent.reward_definition_id r = Some i ->
             In i (reward_definitions d)).
Proof.
  intros H. split; [| split].
  - apply mem_In.
    apply (H _ (foreign_key_violation "reward_events_referrer_user_id_fkey")).
    cbn. tauto.
  - apply mem_In.
    apply (H _ (foreign_key_violation "reward_events_referred_user_id_fkey")).
    cbn. tauto.
  - apply mem_opt_In.
    apply (H _ (foreign_key_violation "reward_events_reward_definition_id_fkey")).
    cbn. tauto.
Qed.

Lemma ledger_entry_fk_pass d entries e :
  (forall c err, In (c, err) (ledger_entry_fk d entries e) -> c = true) ->
  In (LedgerEntry.user_id e) (users d) /\
  (forall i, LedgerEntry.reward_event_id e = Some i ->
             In i (map RewardEvent.id (reward_events d))) /\
  (forall i, LedgerEntry.reference_entry_id e = Some i ->
             In i (map LedgerEntry.id entries)).
Proof.
  intros H. split; [| split].
  - apply mem_In.
    apply (H _ (foreign_key_violation "ledger_entries_user_id_fkey")).
    cbn. tauto.
  - apply mem_opt_In.
    apply (H _ (foreign_key_violation "ledger_entries_reward_event_id_fkey")).
    cbn. tauto.
  - apply mem_opt_In.
    apply (H _ (foreign_key_violation "ledger_entries_reference_entry_id_fkey")).
    cbn. tauto.
Qed.

Lemma all_fk_intact d :
  first_error (all_fk d) = None -> referentially_intact d.
Proof.
  intros H. pose proof (first_error_None _ H) as Hall.
  split; apply Forall_forall.
  - intros r Hr. apply reward_event_fk_pass. intros c e Hin.
    apply (Hall c e). unfold all_fk. apply in_or_app. left.
    apply in_flat_map. now exists r.
  - intros e He. apply ledger_entry_fk_pass. intros c err Hin.
    apply (Hall c err). unfold all_fk. apply in_or_app. right.
    apply in_flat_map. now exists e.
Qed.

Lemma varchar_spec n s : varchar n s = true <-> (String.length s <= n)%nat.
Proof. unfold varchar. apply Nat.leb_le. Qed.

Lemma varchar_opt_spec n o :
  varchar_opt n o = true ->
  forall c, o = Some c -> (String.length c <= n)%nat.
Proof. intros H c ->. now apply varchar_spec. Qed.

Lemma reward_event_checks_fit others r :
  first_error (reward_event_checks others r) = None ->
  ((String.length (RewardEvent.idempotency_key r) <= 255)%nat /\
   (forall c, RewardEvent.currency r = Some c -> (String.length c <= 3)%nat) /\
   (forall u, RewardEvent.created_by r = Some u ->
              (String.length u <= 255)%nat)) /\
  ~ In (RewardEvent.id r) (map RewardEvent.id others).
Proof.
  intros H. pose proof (first_error_None _ H) as Hall.
  assert (Hlen : varchar 255 (RewardEvent.idempotency_key r)
                 && varchar_opt 3 (RewardEvent.currency r)
                 && varchar_opt 255 (RewardEvent.created_by r) = true).
  { apply (Hall _ string_data_right_truncation). cbn. tauto. }
  apply andb_true_iff in Hlen. destruct Hlen as [Hlen Hby].
  apply andb_true_iff in Hlen. destruct Hlen as [Hkey Hcur].
  split; [split; [| split] |].
  - now apply varchar_spec.
  - now apply varchar_opt_spec.
  - now apply varchar_opt_spec.
  - eapply (not_In_map_key RewardEvent.id
              (fun o => (RewardEvent.id o =? RewardEvent.id r)%N)).
    + intros o ->. apply N.eqb_refl.
    + apply negb_true_iff.
      apply (Hall _ (unique_violation "reward_events_pkey")). cbn. tauto.
Qed.

Lemma ledger_entry_checks_fit others e :
  first_error (ledger_entry_checks others e) = None ->
  ((String.length (LedgerEntry.idempotency_key e) <= 255)%nat /\
   (forall c, LedgerEntry.currency e = Some c -> (String.length c <= 3)%nat)) /\
  ~ In (LedgerEntry.id e) (map LedgerEntry.id others).
Proof.
  intros H. pose proof (first_error_None _ H) as Hall.
  assert (Hlen : varchar_opt 3 (LedgerEntry.currency e)
                 && varchar 255 (LedgerEntry.idempotency_key e) = true).
  { apply (Hall _ string_data_right_truncation). cbn. tauto. }
  apply andb_true_iff in Hlen. destruct Hlen as [Hcur Hkey].
  split; [split |].
  - now apply varchar_spec.
  - now apply varchar_opt_spec.
  - eapply (not_In_map_key LedgerEntry.id
              (fun o => (LedgerEntry.id o =? LedgerEntry.id e)%N)).
    + intros o ->. apply N.eqb_refl.
    + apply negb_true_iff.
      apply (Hall _ (unique_violation "ledger_entries_pkey")). cbn. tauto.
Qed.

(** A row-by-row UPDATE of reward_events keeps the ids apart and lets
    through only rows that pass the checks. *)
Lemma update_reward_events_sound w f (Q : RewardEvent.t -> Prop) :
  (forall others r,
     first_error (reward_event_checks others r) = None -> Q r) ->
  forall todo done rows,
    update_reward_events w f done todo = inl rows ->
    NoDup (map RewardEvent.id (done ++ todo)) ->
    Forall Q (done ++ todo) ->
    NoDup (map RewardEvent.id rows) /\ Forall Q rows.
Proof.
  intros HQ.
  induction todo as [| r rest IH]; intros done rows H Hnd Hall;
    cbn [update_reward_events] in H.
  - inversion H; subst. rewrite app_nil_r in *. now split.
  - destruct (w r).
    + destruct (first_error (reward_event_checks (done ++ rest) (f r)))
        eqn:Echecks; [discriminate |].
      pose proof (HQ _ _ Echecks) as Hr'.
      apply reward_event_checks_fit in Echecks.
      destruct Echecks as [_ Hfresh].
      apply (IH _ _ H); rewrite <- app_assoc; cbn [app].
      * rewrite map_app in *. cbn [map] in *.
        apply NoDup_insert; [now apply NoDup_remove_1 in Hnd | assumption].
      * apply Forall_app in Hall. destruct Hall as [Hd Hrest].
        inversion Hrest; subst.
        apply Forall_app. split; [assumption | now constructor].
    + apply (IH _ _ H); now rewrite <- app_assoc.
Qed.

(** ** Every statement keeps the database sound *)

Lemma Forall_filter_keeps {A : Type} (P : A -> Prop) (p : A -> bool) l :
  Forall P l -> Forall P (filter p l).
Proof.
  intros H. apply Forall_forall. intros a Ha. apply filter_In in Ha.
  rewrite Forall_forall in H. now apply H.
Qed.

Lemma NoDup_snoc_fresh {A : Type} (l : list A) (a : A) :
  NoDup l -> ~ In a l -> NoDup (l ++ [a]).
Proof. intros Hl Ha. apply NoDup_insert; now rewrite app_nil_r. Qed.

Lemma sound_apply d s : sound d -> sound (apply d s).
Proof.
  intros Hinv. unfold apply.
  destruct (execute s d) as [d' | err] eqn:E; [| exact Hinv].
  destruct Hinv as ((Hre & Hrl) & (Hu & Hdf & Hev & Hle) & (Hfe & Hfl)).
  destruct s; cbn [execute] in E.
  - (* INSERT INTO users *)
    apply checked_inl in E. destruct E as [-> Hchecks].
    assert (Hnew : ~ In id (users d)).
    { intros Hin. apply mem_In in Hin.
      pose proof (first_error_None _ Hchecks (negb (mem id (users d)))
                    (unique_violation "users_pkey") (or_introl eq_refl)) as Hc.
      rewrite Hin in Hc. discriminate. }
    split; [| split].
    + split; cbn [users reward_definitions reward_events ledger_entries].
      * eapply Forall_impl; [| exact Hre]. intros r (H1 & H2 & H3).
        repeat split; try (apply in_or_app; now left). exact H3.
      * eapply Forall_impl; [| exact Hrl]. intros e (H1 & H2 & H3).
        repeat split; try (apply in_or_app; now left); assumption.
    + repeat split; cbn [users reward_definitions reward_events ledger_entries];
        try assumption.
      now apply NoDup_snoc_fresh.
    + now split.
  - (* DELETE FROM users *)
    apply checked_inl in E. destruct E as [-> Hchecks].
    split; [now apply all_fk_intact | split].
    + repeat split; cbn [users reward_definitions reward_events ledger_entries];
        try assumption.
      now apply NoDup_filter.
    + now split.
  - (* INSERT INTO reward_definitions *)
    apply checked_inl in E. destruct E as [-> Hchecks].
    assert (Hnew : ~ In id (reward_definitions d)).
    { intros Hin. apply mem_In in Hin.
      pose proof (first_error_None _ Hchecks
                    (negb (mem id (reward_definitions d)))
                    (unique_violation "reward_definitions_pkey")
                    (or_introl eq_refl)) as Hc.
      rewrite Hin in Hc. discriminate. }
    split; [| split].
    + split; cbn [users reward_definitions reward_events ledger_entries];
        [| exact Hrl].
      eapply Forall_impl; [| exact Hre]. intros r (H1 & H2 & H3).
      repeat split; try assumption.
      intros i Hi. apply in_or_app. left. now apply H3.
    + repeat split; cbn [users reward_definitions reward_events ledger_entries];
        try assumption.
      now apply NoDup_snoc_fresh.
    + now split.
  - (* DELETE FROM reward_definitions *)
    apply checked_inl in E. destruct E as [-> Hchecks].
    split; [now apply all_fk_intact | split].
    + repeat split; cbn [users reward_definitions reward_events ledger_entries];
        try assumption.
      now apply NoDup_filter.
    + now split.
  - (* INSERT INTO reward_events *)
    apply checked_inl in E. destruct E as [-> Hchecks].
    pose proof (first_error_app_None _ _ Hchecks) as Hrow.
    pose proof (first_error_app_None_r _ _ Hchecks) as Hfk.
    apply reward_event_checks_fit in Hrow. destruct Hrow as [Hfit Hid].
    pose proof (reward_event_fk_pass d r (first_error_None _ Hfk)) as Hrefs.
    split; [| split].
    + split; cbn [users reward_definitions reward_events ledger_entries].
      * apply Forall_app. split; [exact Hre | now constructor].
      * eapply Forall_impl; [| exact Hrl]. intros e (H1 & H2 & H3).
        repeat split; try assumption.
        intros i Hi. rewrite map_app. apply in_or_app. left. now apply H2.
    + repeat split; cbn [users reward_definitions reward_events ledger_entries];
        try assumption.
      rewrite map_app. cbn [map]. now apply NoDup_snoc_fresh.
    + split; cbn [reward_events ledger_entries]; [| exact Hfl].
      apply Forall_app. split; [exact Hfe | now constructor].
  - (* UPDATE reward_events *)
    destruct (update_reward_events where_ set_ [] (reward_events d))
      as [rows | err] eqn:Eupd; [| discriminate].
    apply checked_inl in E. destruct E as [-> Hchecks].
    apply (update_reward_events_sound where_ set_
             (fun r =>
                (String.length (RewardEvent.idempotency_key r) <= 255)%nat /\
                (forall c, RewardEvent.currency r = Some c ->
                           (String.length c <= 3)%nat) /\
                (forall u, RewardEvent.created_by r = Some u ->
                           (String.length u <= 255)%nat))) in Eupd;
      [| intros others r H; now apply reward_event_checks_fit in H
       | exact Hev | exact Hfe].
    destruct Eupd as [Hids Hrows].
    split; [now apply all_fk_intact | split].
    + now repeat split.
    + now split.
  - (* DELETE FROM reward_events *)
    apply checked_inl in E. destruct E as [-> Hchecks].
    split; [now apply all_fk_intact | split].
    + repeat split; cbn [users reward_definitions reward_events ledger_entries];
        try assumption.
      now apply NoDup_map_filter.
    + split; cbn [reward_events ledger_entries]; [| exact Hfl].
      now apply Forall_filter_keeps.
  - (* INSERT INTO ledger_entries *)
    apply checked_inl in E. destruct E as [-> Hchecks].
    pose proof (first_error_app_None _ _ Hchecks) as Hrow.
    pose proof (first_error_app_None_r _ _ Hchecks) as Hfk.
    apply ledger_entry_checks_fit in Hrow. destruct Hrow as [Hfit Hid].
    pose proof (ledger_entry_fk_pass d _ e (first_error_None _ Hfk)) as Hrefs.
    split; [| split].
    + split; cbn [users reward_definitions reward_events ledger_entries];
        [exact Hre |].
      apply Forall_app. split; [| now constructor].
      eapply Forall_impl; [| exact Hrl]. intros e' (H1 & H2 & H3).
      repeat split; try assumption.
      intros i Hi. rewrite map_app. apply in_or_app. left. now apply H3.
    + repeat split; cbn [users reward_definitions reward_events ledger_entries];
        try assumption.
      rewrite map_app. cbn [map]. now apply NoDup_snoc_fresh.
    + split; cbn [reward_events ledger_entries]; [exact Hfe |].
      apply Forall_app. split; [exact Hfl | now constructor].
  - (* UPDATE ledger_entries *)
    change (execute (UpdateLedgerEntries where_ set_) d = inl d') in E.
    apply UpdateLedgerEntries_unchanged in E. subst d'. now repeat split.
  - (* DELETE FROM ledger_entries *)
    change (execute (DeleteLedgerEntries where_) d = inl d') in E.
    apply DeleteLedgerEntries_unchanged in E. subst d'. now repeat split.
Qed.

Lemma sound_run script : forall d, sound d -> sound (run script d).
Proof.
  induction script as [| s script IH]; intros d H; [exact H |].
  cbn [run fold_left]. apply IH. now apply sound_apply.
Qed.

Lemma sound_seeded : sound seeded.
Proof.
  split; [| split].
  - split; constructor.
  - repeat split; cbn; try constructor.
    + intros [H | [H | []]]; discriminate.
    + constructor; [| constructor; [intros [] | constructor]].
      intros [H | []]. discriminate.
  - split; constructor.
Qed.

(** X9.  Whatever statements have run on the seeded database, every
    reference names a row that is there: the referrer and the referred
    user of every reward event are users and its reward definition, if
    it has one, exists; the user of every ledger entry is a user, and
    the reward event and the entry that a ledger entry refers to
    exist. *)
Theorem references_stay_intact (script : list statement) :
  let d := run script seeded in
  Forall (fun r =>
            In (RewardEvent.referrer_user_id r) (users d) /\
            In (RewardEvent.referred_user_id r) (users d) /\
            (forall i, RewardEvent.reward_definition_id r = Some i ->
                       In i (reward_definitions d)))
         (reward_events d) /\
  Forall (fun e =>
            In (LedgerEntry.user_id e) (users d) /\
            (forall i, LedgerEntry.reward_event_id e = Some i ->
                       exists r, In r (reward_events d) /\ RewardEvent.id r = i) /\
            (forall i, LedgerEntry.reference_entry_id e = Some i ->
                       exists e', In e' (ledger_entries d) /\ LedgerEntry.id e' = i))
         (ledger_entries d).
Proof.
  intros d.
  destruct (sound_run script seeded sound_seeded) as ((Hre & Hrl) & _ & _).
  fold d in Hre, Hrl. split; [exact Hre |].
  eapply Forall_impl; [| exact Hrl]. intros e (Hu & Hev & Hle).
  split; [exact Hu |]. split; intros i Hi.
  - apply Hev in Hi. apply in_map_iff in Hi.
    destruct Hi as (r & Hid & Hin). now exists r.
  - apply Hle in Hi. apply in_map_iff in Hi.
    destruct Hi as (e' & Hid & Hin). now exists e'.
Qed.

(** X10.  Whatever statements have run on the seeded database, the
    primary keys are unique: no two users, reward definitions, reward
    events or ledger entries share an id, so an id selects at most one
    row of its table. *)
Theorem primary_keys_stay_unique (script : list statement) (i : uuid) :
  let d := run script seeded in
  NoDup (users d) /\
  NoDup (reward_definitions d) /\
  NoDup (map RewardEvent.id (reward_events d)) /\
  NoDup (map LedgerEntry.id (ledger_entries d)) /\
  (List.length (filter (fun r => (RewardEvent.id r =? i)%N) (reward_events d))
   <= 1)%nat /\
  (List.length (filter (fun e => (LedgerEntry.id e =? i)%N) (ledger_entries d))
   <= 1)%nat.
Proof.
  intros d.
  destruct (sound_run script seeded sound_seeded)
    as (_ & (Hu & Hdf & Hev & Hle) & _).
  fold d in Hu, Hdf, Hev, Hle.
  repeat (split; [assumption |]). split.
  - apply (NoDup_map_at_most_one RewardEvent.id _ i); [| exact Hev].
    intros r Hr. now apply N.eqb_eq in Hr.
  - apply (NoDup_map_at_most_one LedgerEntry.id _ i); [| exact Hle].
    intros e He. now apply N.eqb_eq in He.
Qed.


(** The sample script runs through: two users, one reward event and one
    ledger entry end up in the tables. *)
Example sample_script_runs :
  let d := run sampleScript seeded in
  users d = [7%N; 8%N] /\
  reward_events d = [sampleEvent] /\
  ledger_entries d = [sampleEntry].
Proof. repeat split. Qed.

(** ** Rows that are referred to stay *)

Lemma first_error_In checks err :
  first_error checks = Some err -> In (false, err) checks.
Proof.
  induction checks as [| [c e] rest IH]; cbn [first_error]; [discriminate |].
  destruct c; intros H; [right; now apply IH | left; now inversion H].
Qed.

Lemma all_fk_errors d err :
  first_error (all_fk d) = Some err -> exists c, err = foreign_key_violation c.
Proof.
  intros H. apply first_error_In in H. unfold all_fk in H.
  apply in_app_or in H. destruct H as [H | H]; apply in_flat_map in H;
    destruct H as (row & _ & H); cbn in H;
    repeat (destruct H as [H | H]; [inversion H; eauto |]); destruct H.
Qed.

Lemma fk_failure d' d0 s c err :
  In (c, err) (all_fk d') -> c = false ->
  execute s d0 = checked d' (all_fk d') ->
  (exists name, execute s d0 = inr (foreign_key_violation name)) /\
  apply d0 s = d0.
Proof.
  intros Hin Hc Hexec.
  destruct (first_error_false _ _ _ Hin Hc) as [e He].
  destruct (all_fk_errors _ _ He) as [name ->].
  assert (Hres : execute s d0 = inr (foreign_key_violation name)).
  { rewrite Hexec. unfold checked. now rewrite He. }
  split; [now exists name |]. unfold apply. now rewrite Hres.
Qed.

(** X12.  A DELETE on users that selects the user of a ledger entry, or
    the referrer or the referred user of a reward event, fails on the
    foreign key and deletes nothing. *)
Theorem referenced_users_cannot_be_deleted (d : db) (where_ : uuid -> bool) :
  (exists e, In e (ledger_entries d) /\ where_ (LedgerEntry.user_id e) = true) \/
  (exists r, In r (reward_events d) /\
             (where_ (RewardEvent.referrer_user_id r) = true \/
              where_ (RewardEvent.referred_user_id r) = true)) ->
  (exists name,
     execute (DeleteUsers where_) d = inr (foreign_key_violation name)) /\
  apply d (DeleteUsers where_) = d.
Proof.
  intros H.
  set (d' := {| users := filter (fun i => negb (where_ i)) (users d);
                reward_definitions := reward_definitions d;
                reward_events := reward_events d;
                ledger_entries := ledger_entries d |}).
  assert (Hgone : forall i, where_ i = true -> mem i (users d') = false).
  { intros i Hi. destruct (mem i (users d')) eqn:Em; [| reflexivity].
    apply mem_In in Em. cbn [d' users] in Em. apply filter_In in Em.
    destruct Em as [_ Em]. rewrite Hi in Em. discriminate. }
  destruct H as [(e & He & Hw) | (r & Hr & [Hw | Hw])].
  - apply (fk_failure d' d (DeleteUsers where_)
             (mem (LedgerEntry.user_id e) (users d'))
             (foreign_key_violation "ledger_entries_user_id_fkey"));
      [| now apply Hgone | reflexivity].
    unfold all_fk. apply in_or_app. right. apply in_flat_map.
    exists e. split; [exact He | cbn; tauto].
  - apply (fk_failure d' d (DeleteUsers where_)
             (mem (RewardEvent.referrer_user_id r) (users d'))
             (foreign_key_violation "reward_events_referrer_user_id_fkey"));
      [| now apply Hgone | reflexivity].
    unfold all_fk. apply in_or_app. left. apply in_flat_map.
    exists r. split; [exact Hr | cbn; tauto].
  - apply (fk_failure d' d (DeleteUsers where_)
             (mem (RewardEvent.referred_user_id r) (users d'))
             (foreign_key_violation "reward_events_referred_user_id_fkey"));
      [| now apply Hgone | reflexivity].
    unfold all_fk. apply in_or_app. left. apply in_flat_map.
    exists r. split; [exact Hr | cbn; tauto].
Qed.

Lemma referenced_users_cannot_be_deleted_witness :
  let d := run sampleScript seeded in
  In sampleEntry (ledger_entries d) /\
  apply d (DeleteUsers (fun i => (i =? 7)%N)) = d.
Proof.
  intros d.
  assert (Hin : In sampleEntry (ledger_entries d)) by (left; reflexivity).
  split; [exact Hin |].
  apply (referenced_users_cannot_be_deleted d (fun i => (i =? 7)%N)).
  left. exists sampleEntry. split; [exact Hin | reflexivity].
Defined.

Lemma same_key_same_row {A K : Type} (f : A -> K) (l : list A) a b :
  NoDup (map f l) -> In a l -> In b l -> f a = f b -> a = b.
Proof.
  induction l as [| x l IH]; intros Hnd Ha Hb Hf; [destruct Ha |].
  cbn [map] in Hnd. inversion Hnd as [| k ks Hk Hks]; subst.
  destruct Ha as [-> | Ha], Hb as [-> | Hb].
  - reflexivity.
  - exfalso. apply Hk. rewrite Hf. now apply in_map.
  - exfalso. apply Hk. rewrite <- Hf. now apply in_map.
  - now apply IH.
Qed.

(** X13.  Where the ids of the reward events are unique (as they are in
    every database the script and its statements produce), a DELETE on
    reward_events that selects an event to which a ledger entry refers
    fails on the foreign key and deletes nothing: with the ledger
    immutable, a reward event with an entry stays for good. *)
Theorem referenced_reward_events_cannot_be_deleted
  (d : db) (where_ : RewardEvent.t -> bool)
  (r : RewardEvent.t) (e : LedgerEntry.t) :
  NoDup (map RewardEvent.id (reward_events d)) ->
  In r (reward_events d) -> where_ r = true ->
  In e (ledger_entries d) ->
  LedgerEntry.reward_event_id e = Some (RewardEvent.id r) ->
  (exists name,
     execute (DeleteRewardEvents where_) d = inr (foreign_key_violation name)) /\
  apply d (DeleteRewardEvents where_) = d.
Proof.
  intros Hnd Hr Hw He Href.
  set (d' := {| users := users d;
                reward_definitions := reward_definitions d;
                reward_events := filter (fun r => negb (where_ r)) (reward_events d);
                ledger_entries := ledger_entries d |}).
  apply (fk_failure d' d (DeleteRewardEvents where_)
           (mem_opt (LedgerEntry.reward_event_id e)
                    (map RewardEvent.id (reward_events d')))
           (foreign_key_violation "ledger_entries_reward_event_id_fkey"));
    [| | reflexivity].
  - unfold all_fk. apply in_or_app. right. apply in_flat_map.
    exists e. split; [exact He | cbn; tauto].
  - rewrite Href. cbn [mem_opt].
    destruct (mem (RewardEvent.id r) (map RewardEvent.id (reward_events d')))
      eqn:Em; [| reflexivity].
    apply mem_In, in_map_iff in Em. destruct Em as (r' & Hid & Hin).
    cbn [d' reward_events] in Hin. apply filter_In in Hin.
    destruct Hin as [Hin Hkeep].
    assert (r' = r) as ->
      by now apply (same_key_same_row RewardEvent.id (reward_events d)).
    rewrite Hw in Hkeep. discriminate.
Qed.

Lemma referenced_reward_events_cannot_be_deleted_witness :
  let d := run sampleScript seeded in
  NoDup (map RewardEvent.id (reward_events d)) /\
  apply d (DeleteRewardEvents (fun _ => true)) = d.
Proof.
  intros d.
  assert (Hnd : NoDup (map RewardEvent.id (reward_events d))).
  { constructor; [intros [] | constructor]. }
  split; [exact Hnd |].
  apply (referenced_reward_events_cannot_be_deleted
           d (fun _ => true) sampleEvent sampleEntry Hnd).
  - left; reflexivity.
  - reflexivity.
  - left; reflexivity.
  - reflexivity.
Defined.

(** ** The view user_balances *)

Lemma groups_In a entries :
  In a (groups entries) <-> exists e, In e entries /\ account_of e = a.
Proof.
  pose proof (find_groups a entries) as Hfind. split.
  - intros Hin.
    destruct (existsb (in_account a) entries) eqn:Ex.
    + apply existsb_exists in Ex. destruct Ex as (e & He & Hacc).
      exists e. split; [exact He |]. now apply account_eqb_eq.
    + pose proof (find_none _ _ Hfind a Hin) as Hn.
      cbn beta in Hn. rewrite account_eqb_refl in Hn. discriminate.
  - intros (e & He & <-).
    assert (Ex : existsb (in_account (account_of e)) entries = true).
    { apply existsb_exists. exists e. split; [exact He |].
      apply account_eqb_refl. }
    pose proof (find_groups (account_of e) entries) as Hf.
    rewrite Ex in Hf. apply find_some in Hf. destruct Hf as [Hin Heq].
    apply account_eqb_eq in Heq. now subst.
Qed.

Lemma groups_NoDup entries : NoDup (groups entries).
Proof.
  induction entries as [| e rest IH]; cbn [groups]; constructor.
  - intros Hin. apply filter_In in Hin. destruct Hin as [_ Hin].
    now rewrite account_eqb_refl in Hin.
  - now apply NoDup_filter.
Qed.

Lemma accounts_of_view d :
  map account_of_row (user_balances d) = groups (ledger_entries d).
Proof.
  unfold user_balances. rewrite map_map.
  rewrite <- (map_id (groups (ledger_entries d))) at 2.
  apply map_ext. now intros [u c].
Qed.

(** X14.  The view has exactly one row for every account (user and
    currency, the missing currency counted as one) that has a ledger
    entry, and none for any other; the row's [total_entries] is the
    number of the account's entries, at least one, and its
    [current_balance] the sum of their amounts. *)
Theorem user_balances_has_one_row_per_account (d : db) :
  NoDup (map account_of_row (user_balances d)) /\
  (forall a, In a (map account_of_row (user_balances d))
             <-> exists e, In e (ledger_entries d) /\ account_of e = a) /\
  Forall (fun b =>
            let rows := filter (in_account (account_of_row b)) (ledger_entries d) in
            Balance.total_entries b = List.length rows /\
            (1 <= Balance.total_entries b)%nat /\
            Balance.current_balance b = sum (map LedgerEntry.amount rows))
         (user_balances d).
Proof.
  split; [| split].
  - rewrite accounts_of_view. apply groups_NoDup.
  - intros a. rewrite accounts_of_view. apply groups_In.
  - unfold user_balances. apply Forall_map, Forall_forall.
    intros [u c] Ha. cbn zeta.
    unfold account_of_row. cbn [Balance.user_id Balance.currency
      Balance.total_entries Balance.current_balance fst snd].
    split; [reflexivity |]. split; [| reflexivity].
    apply groups_In in Ha. destruct Ha as (e & He & Hacc).
    assert (Hin : In e (filter (in_account (u, c)) (ledger_entries d))).
    { apply filter_In. split; [exact He |].
      unfold in_account. rewrite Hacc. apply account_eqb_refl. }
    destruct (filter (in_account (u, c)) (ledger_entries d));
      [destruct Hin | cbn; lia].
Qed.

Lemma sum_map_add {A : Type} (g h : A -> Z) l :
  sum (map (fun a => g a + h a) l) = sum (map g l) + sum (map h l).
Proof.
  unfold sum. induction l as [| a l IH]; cbn [map fold_right]; [reflexivity |].
  rewrite IH. lia.
Qed.

Lemma sum_once (a0 : account) (v : Z) gs :
  NoDup gs -> In a0 gs ->
  sum (map (fun a => if account_eqb a0 a then v else 0) gs) = v.
Proof.
  unfold sum. induction gs as [| a gs IH]; intros Hnd Hin; [destruct Hin |].
  inversion Hnd as [| x xs Hx Hxs]; subst. cbn [map fold_right].
  destruct Hin as [-> | Hin].
  - rewrite account_eqb_refl.
    assert (Hzero : fold_right Z.add 0
                      (map (fun a => if account_eqb a0 a then v else 0) gs) = 0).
    { clear IH Hnd Hxs. induction gs as [| b gs IHg]; [reflexivity |].
      cbn [map fold_right].
      destruct (account_eqb a0 b) eqn:E.
      - apply account_eqb_eq in E. subst b. exfalso. apply Hx. now left.
      - rewrite IHg; [lia |]. intros H. apply Hx. now right. }
    rewrite Hzero. lia.
  - destruct (account_eqb a0 a) eqn:E.
    + apply account_eqb_eq in E. subst a. contradiction.
    + now rewrite IH.
Qed.

(** Summing a quantity account by account gives its sum over all the
    entries. *)
Lemma sum_by_account (f : LedgerEntry.t -> Z) gs entries :
  NoDup gs ->
  (forall e, In e entries -> In (account_of e) gs) ->
  sum (map (fun a => sum (map f (filter (in_account a) entries))) gs)
  = sum (map f entries).
Proof.
  intros Hnd. induction entries as [| e rest IH]; intros Hall.
  - cbn [filter map]. unfold sum at 2 3. cbn [fold_right].
    unfold sum. induction gs as [| a gs IHg]; [reflexivity |].
    cbn [map fold_right]. inversion Hnd; subst. now rewrite IHg.
  - rewrite (map_ext
               (fun a => sum (map f (filter (in_account a) (e :: rest))))
               (fun a => (if account_eqb (account_of e) a then f e else 0)
                         + sum (map f (filter (in_account a) rest)))).
    + rewrite sum_map_add, sum_once, IH; try assumption.
      * unfold sum. cbn [map fold_right]. reflexivity.
      * intros e' He'. apply Hall. now right.
      * apply Hall. now left.
    + intros a. cbn [filter]. unfold in_account at 1.
      destruct (account_eqb (account_of e) a); [| lia].
      unfold sum. cbn [map fold_right]. reflexivity.
Qed.

(** X15.  Nothing is lost or counted twice in the view: the balances of
    all its rows add up to the sum of the amounts of all ledger
    entries, and the entry counts of its rows add up to the number of
    ledger entries. *)
Theorem user_balances_adds_up (d : db) :
  sum (map Balance.current_balance (user_balances d))
  = sum (map LedgerEntry.amount (ledger_entries d)) /\
  sum (map (fun b => Z.of_nat (Balance.total_entries b)) (user_balances d))
  = Z.of_nat (List.length (ledger_entries d)).
Proof.
  assert (Hcover : forall e, In e (ledger_entries d) ->
                             In (account_of e) (groups (ledger_entries d))).
  { intros e He. apply groups_In. now exists e. }
  assert (Hones : forall l : list LedgerEntry.t,
             sum (map (fun _ => 1) l) = Z.of_nat (List.length l)).
  { unfold sum. induction l as [| e l IH]; [reflexivity |].
    cbn [map fold_right List.length]. rewrite IH. lia. }
  unfold user_balances. rewrite !map_map.
  cbn [Balance.current_balance Balance.total_entries]. split.
  - apply (sum_by_account LedgerEntry.amount); [apply groups_NoDup | exact Hcover].
  - rewrite <- Hones, <- (sum_by_account (fun _ => 1) (groups (ledger_entries d)));
      [| apply groups_NoDup | exact Hcover].
    f_equal. apply map_ext. intros a. now rewrite Hones.
Qed.

Lemma fold_left_max l :
  forall v,
    (fold_left Z.max l v = v \/ In (fold_left Z.max l v) l) /\
    v <= fold_left Z.max l v /\
    Forall (fun u => u <= fold_left Z.max l v) l.
Proof.
  induction l as [| u l IH]; intros v; cbn [fold_left].
  - split; [now left |]. split; [lia | constructor].
  - destruct (IH (Z.max v u)) as (Hin & Hle & Hall).
    split; [| split].
    + destruct Hin as [Heq | Hin]; [| right; now right].
      rewrite Heq. destruct (Z.max_spec v u) as [[_ ->] | [_ ->]];
        [right; now left | now left].
    + lia.
    + constructor; [lia | exact Hall].
Qed.

(** X16.  In every row of the view [last_transaction_at] is the latest
    [created_at] among the account's entries: the time of one of them,
    and no entry of the account is later. *)
Theorem last_transaction_at_is_latest (d : db) :
  Forall (fun b =>
            exists t,
              Balance.last_transaction_at b = Some t /\
              (exists e, In e (ledger_entries d) /\
                         in_account (account_of_row b) e = true /\
                         LedgerEntry.created_at e = t) /\
              (forall e, In e (ledger_entries d) ->
                         in_account (account_of_row b) e = true ->
                         LedgerEntry.created_at e <= t))
         (user_balances d).
Proof.
  unfold user_balances. apply Forall_map, Forall_forall.
  intros [u c] Ha. unfold account_of_row.
  cbn [Balance.user_id Balance.currency Balance.last_transaction_at fst snd].
  apply groups_In in Ha. destruct Ha as (e0 & He0 & Hacc0).
  assert (Hin0 : In e0 (filter (in_account (u, c)) (ledger_entries d))).
  { apply filter_In. split; [exact He0 |].
    unfold in_account. rewrite Hacc0. apply account_eqb_refl. }
  destruct (filter (in_account (u, c)) (ledger_entries d)) as [| e1 rest] eqn:Ef;
    [destruct Hin0 |].
  cbn [map maximum].
  destruct (fold_left_max (map LedgerEntry.created_at rest)
              (LedgerEntry.created_at e1)) as (Hin & Hle & Hall).
  eexists. split; [reflexivity |].
  assert (Hmem : forall e, In e (e1 :: rest) <->
                           In e (ledger_entries d) /\ in_account (u, c) e = true).
  { intros e. rewrite <- Ef. apply filter_In. }
  split.
  - destruct Hin as [Heq | Hin].
    + exists e1. destruct (proj1 (Hmem e1) (or_introl eq_refl)) as [H1 H2].
      split; [exact H1 |]. split; [exact H2 | now rewrite Heq].
    + apply in_map_iff in Hin. destruct Hin as (e & Ht & He).
      exists e. destruct (proj1 (Hmem e) (or_intror He)) as [H1 H2].
      split; [exact H1 |]. split; [exact H2 | exact Ht].
  - intros e He Hacc.
    destruct (proj2 (Hmem e) (conj He Hacc)) as [<- | Hrest]; [exact Hle |].
    rewrite Forall_forall in Hall. apply Hall. now apply in_map.
Qed.

(** X17.  How a statement that succeeds moves the balances of the view:
    an INSERT of a ledger entry adds the entry's amount to the balance
    of the entry's account (counted from 0 when the account had no
    row) and leaves every other account alone; no other statement
    changes any balance. *)
Theorem balances_move_by_inserted_amounts
  (s : statement) (d d' : db) (a : account) :
  execute s d = inl d' ->
  current_balance d' a
  = match s with
    | InsertLedgerEntry e =>
        if in_account a e
        then Some (match current_balance d a with
                   | Some b => b
                   | None => 0
                   end + LedgerEntry.amount e)
        else current_balance d a
    | _ => current_balance d a
    end.
Proof.
  intros E.
  assert (Hsame : ledger_entries d' = ledger_entries d ->
                  current_balance d' a = current_balance d a).
  { intros H. rewrite !current_balance_is_sum. now rewrite H. }
  destruct s; cbn [execute] in E;
    try (apply checked_inl in E; destruct E as [-> _]; now apply Hsame).
  - destruct (update_reward_events where_ set_ [] (reward_events d));
      [| discriminate].
    apply checked_inl in E. destruct E as [-> _]. now apply Hsame.
  - apply checked_inl in E. destruct E as [-> _].
    rewrite !current_balance_is_sum. cbn [ledger_entries].
    rewrite filter_app. cbn [filter].
    destruct (in_account a e); [| now rewrite app_nil_r].
    destruct (filter (in_account a) (ledger_entries d)) as [| e1 rest];
      cbn [app]; [unfold sum; cbn; f_equal; lia |].
    rewrite app_comm_cons, map_app, sum_app.
    unfold sum at 2. cbn [map fold_right]. f_equal. lia.
  - change (execute (UpdateLedgerEntries where_ set_) d = inl d') in E.
    apply UpdateLedgerEntries_unchanged in E. subst d'. now apply Hsame.
  - change (execute (DeleteLedgerEntries where_) d = inl d') in E.
    apply DeleteLedgerEntries_unchanged in E. subst d'. now apply Hsame.
Qed.

Lemma balances_move_by_inserted_amounts_witness :
  let d := run (firstn 3 sampleScript) seeded in
  let d' := run sampleScript seeded in
  execute (InsertLedgerEntry sampleEntry) d = inl d' /\
  current_balance d (7%N, Some "INR") = None /\
  current_balance d' (7%N, Some "INR") = Some 50000.
Proof.
  intros d d'.
  assert (E : execute (InsertLedgerEntry sampleEntry) d = inl d') by reflexivity.
  split; [exact E |]. split; [reflexivity |].
  rewrite (balances_move_by_inserted_amounts _ d d' (7%N, Some "INR") E).
  reflexivity.
Defined.

End IntegritySpec.

